(** * A tagged-template HTML library: template compiler, instantiation engine
      and update rule over a model of the host DOM.

    The program manipulates a mutable tree of nodes with identity.  The tree
    is embedded as a store from node references to node records (parent
    pointer and ordered child list, as in the DOM standard); every function of
    [paths.ts] and [template.ts] becomes a computation in a state-and-error
    monad over that store.  The source's [while] loops take a fuel argument. *)

From Stdlib Require Import ZArith NArith Ascii String.
From stdpp Require Import base option list gmap.

Local Open Scope nat_scope.

(** ** JavaScript strings: sequences of UTF-16 code units *)

Definition JSString := list N.

(** ASCII literals. *)
Definition str (s : string) : JSString :=
  map N_of_ascii (list_ascii_of_string s).

Fixpoint startsWith (needle hay : JSString) : bool :=
  match needle, hay with
  | [], _ => true
  | _ :: _, [] => false
  | a :: needle', b :: hay' => N.eqb a b && startsWith needle' hay'
  end.

(** [String.prototype.indexOf]: position of the first occurrence, or -1. *)
Fixpoint indexOf (hay needle : JSString) : Z :=
  if startsWith needle hay then 0%Z
  else match hay with
       | [] => (-1)%Z
       | _ :: hay' =>
           let r := indexOf hay' needle in
           if (r <? 0)%Z then (-1)%Z else (r + 1)%Z
       end.

(** [Array.prototype.join]. *)
Fixpoint join (sep : JSString) (parts : list JSString) : JSString :=
  match parts with
  | [] => []
  | [s] => s
  | s :: rest => s ++ sep ++ join sep rest
  end.

(** ** The host tree *)

Definition NodeRef := nat.

Inductive NodeData :=
| Element (tagName : JSString) (attributes : list (JSString * JSString))
| Text (data : JSString)
| Comment (data : JSString)
| DocumentFragment.

Record Node := mkNode {
  payload : NodeData;
  parentNode : option NodeRef;
  childNodes : list NodeRef;
}.

(** What a mutation observer would see, plus console output. *)
Inductive Event :=
| ChildAdded (parent node : NodeRef)
| ChildRemoved (parent node : NodeRef)
| CharacterData (node : NodeRef) (data : JSString)
| AttributeSet (element : NodeRef) (name value : JSString)
| AttributeRemoved (element : NodeRef) (name : JSString)
| ConsoleWarn (format : JSString) (name : JSString) (arg : NodeRef).

Record Dom := mkDom {
  heap : gmap NodeRef Node;
  nextRef : NodeRef;
  trace : list Event;
  windowName : JSString;
}.

Inductive JSError :=
| Error (message : JSString)
| TypeError
| HierarchyRequestError
| IndexSizeError.

Inductive Result (A : Type) :=
| Ok (a : A)
| Throw (e : JSError)
| OutOfFuel.
Arguments Ok {A} a.
Arguments Throw {A} e.
Arguments OutOfFuel {A}.

(** State-and-error monad over the host tree. *)
Definition M (A : Type) := Dom -> Result (A * Dom).

Definition ret {A} (a : A) : M A := fun d => Ok (a, d).
Definition bind {A B} (m : M A) (k : A -> M B) : M B :=
  fun d => match m d with
           | Ok (a, d') => k a d'
           | Throw e => Throw e
           | OutOfFuel => OutOfFuel
           end.
Definition throw {A} (e : JSError) : M A := fun _ => Throw e.
Definition outOfFuel {A} : M A := fun _ => OutOfFuel.
Definition get : M Dom := fun d => Ok (d, d).
Definition gets {A} (f : Dom -> A) : M A := fun d => Ok (f d, d).
Definition modify (f : Dom -> Dom) : M unit := fun d => Ok (tt, f d).

Declare Scope dom_scope.
Delimit Scope dom_scope with dom.
Notation "'let*' x ':=' m 'in' k" := (bind m (fun x => k))
  (at level 10, x pattern, m at level 100, k at level 200) : dom_scope.
Notation "m ';;' k" := (bind m (fun _ => k))
  (at level 100, k at level 200, right associativity) : dom_scope.
Local Open Scope dom_scope.

(** *** Navigation *)

Definition node (d : Dom) (r : NodeRef) : option Node := heap d !! r.

Definition parentOf (d : Dom) (r : NodeRef) : option NodeRef :=
  n ← node d r; parentNode n.

Definition childrenOf (d : Dom) (r : NodeRef) : list NodeRef :=
  match node d r with Some n => childNodes n | None => [] end.

(** Position of the first occurrence of [r]. *)
Fixpoint position (r : NodeRef) (l : list NodeRef) : option nat :=
  match l with
  | [] => None
  | x :: l' => if decide (x = r) then Some 0 else S <$> position r l'
  end.

Definition siblingIndex (d : Dom) (r : NodeRef) : option (NodeRef * nat) :=
  p ← parentOf d r; i ← position r (childrenOf d p); Some (p, i).

Definition previousSibling (d : Dom) (r : NodeRef) : option NodeRef :=
  '(p, i) ← siblingIndex d r;
  match i with 0 => None | S j => childrenOf d p !! j end.

Definition nextSibling (d : Dom) (r : NodeRef) : option NodeRef :=
  '(p, i) ← siblingIndex d r; childrenOf d p !! S i.

Definition firstChild (d : Dom) (r : NodeRef) : option NodeRef :=
  head (childrenOf d r).

(** ** paths.ts *)

Definition NodePath := list nat.

(** [while ((node = node.previousSibling) !== null) ++index;] *)
Fixpoint countPreviousSiblings (fuel : nat) (d : Dom) (n : NodeRef) (index : nat)
  : Result nat :=
  match previousSibling d n with
  | None => Ok index
  | Some n' =>
      match fuel with
      | 0 => OutOfFuel
      | S fuel' => countPreviousSiblings fuel' d n' (S index)
      end
  end.

Fixpoint pathToNodeLoop (fuel : nat) (d : Dom) (root : NodeRef)
    (n : option NodeRef) (result : NodePath) : Result NodePath :=
  if decide (n = Some root) then Ok result
  else match n with
       | None => Throw (Error (str "Could not find target from root"))
       | Some n =>
           match fuel with
           | 0 => OutOfFuel
           | S fuel' =>
               let parent := parentOf d n in
               match countPreviousSiblings fuel d n 0 with
               | Ok index => pathToNodeLoop fuel' d root parent (index :: result)
               | Throw e => Throw e
               | OutOfFuel => OutOfFuel
               end
           end
       end.

Definition pathToNode (fuel : nat) (d : Dom) (root target : NodeRef)
  : Result NodePath :=
  pathToNodeLoop fuel d root (Some target) [].

(** [root.childNodes[index]]; reading a property of [undefined] throws. *)
Fixpoint nodeFromPath (d : Dom) (root : option NodeRef) (path : NodePath)
  : Result (option NodeRef) :=
  match path with
  | [] => Ok root
  | index :: path' =>
      match root with
      | None => Throw TypeError
      | Some r => nodeFromPath d (childrenOf d r !! index) path'
      end
  end.

(** ** Host operations the program calls *)

Definition setHeap (h : gmap NodeRef Node) (d : Dom) : Dom :=
  mkDom h (nextRef d) (trace d) (windowName d).

Definition emit (e : Event) (d : Dom) : Dom :=
  mkDom (heap d) (nextRef d) (trace d ++ [e]) (windowName d).

Definition setPayload (r : NodeRef) (x : NodeData) (d : Dom) : Dom :=
  setHeap (alter (fun n => mkNode x (parentNode n) (childNodes n)) r (heap d)) d.

Definition setParent (r : NodeRef) (p : option NodeRef) (d : Dom) : Dom :=
  setHeap (alter (fun n => mkNode (payload n) p (childNodes n)) r (heap d)) d.

Definition setChildren (r : NodeRef) (cs : list NodeRef) (d : Dom) : Dom :=
  setHeap (alter (fun n => mkNode (payload n) (parentNode n) cs) r (heap d)) d.

(** A new node, in no tree. *)
Definition allocated (x : NodeData) (d : Dom) : Dom :=
  mkDom (<[nextRef d := mkNode x None []]> (heap d))
        (S (nextRef d)) (trace d) (windowName d).

Definition alloc (x : NodeData) : M NodeRef :=
  fun d => Ok (nextRef d, allocated x d).

Definition createTextNode (data : JSString) : M NodeRef := alloc (Text data).

(** Reading a property of a node; of anything else, a [TypeError]. *)
Definition read (r : NodeRef) : M Node :=
  fun d => match node d r with Some n => Ok (n, d) | None => Throw TypeError end.

(** [text.data] *)
Definition getData (r : NodeRef) : M JSString :=
  let* n := read r in
  match payload n with
  | Text s | Comment s => ret s
  | _ => throw TypeError
  end.

(** [text.data = s] *)
Definition setData (r : NodeRef) (s : JSString) : M unit :=
  let* n := read r in
  match payload n with
  | Text _ => modify (fun d => emit (CharacterData r s) (setPayload r (Text s) d))
  | Comment _ => modify (fun d => emit (CharacterData r s) (setPayload r (Comment s) d))
  | _ => throw TypeError
  end.

(** The standard's "remove": take [r] out of its parent's child list. *)
Definition detach (r : NodeRef) (d : Dom) : Dom :=
  match parentOf d r with
  | None => d
  | Some p =>
      emit (ChildRemoved p r)
        (setParent r None
           (setChildren p (filter (fun x => x <> r) (childrenOf d p)) d))
  end.

(** [node.remove()] *)
Definition remove (r : NodeRef) : M unit :=
  read r ;; modify (detach r).

(** [cs] with [r] placed before [child], or last. *)
Definition insertAt (r : NodeRef) (child : option NodeRef) (cs : list NodeRef)
  : list NodeRef :=
  let i := match child with
           | Some c => default (length cs) (position c cs)
           | None => length cs
           end in
  take i cs ++ r :: drop i cs.

(** Put the parentless [r] into [p]'s child list before [child], or last. *)
Definition link (r p : NodeRef) (child : option NodeRef) (d : Dom) : Dom :=
  setParent r (Some p) (setChildren p (insertAt r child (childrenOf d p)) d).

(** The same, seen by observers: the standard's "insert" of one node. *)
Definition attach (r p : NodeRef) (child : option NodeRef) (d : Dom) : Dom :=
  emit (ChildAdded p r) (link r p child d).

Fixpoint isInclusiveAncestorFuel (fuel : nat) (d : Dom) (a n : NodeRef) : bool :=
  if decide (a = n) then true
  else match fuel, parentOf d n with
       | S fuel', Some p => isInclusiveAncestorFuel fuel' d a p
       | _, _ => false
       end.

Definition isInclusiveAncestor (d : Dom) (a n : NodeRef) : bool :=
  isInclusiveAncestorFuel (size (heap d)) d a n.

Definition canHaveChildren (x : NodeData) : bool :=
  match x with
  | Element _ _ | DocumentFragment => true
  | Text _ | Comment _ => false
  end.

(** The standard's "insert": a fragment gives up its children, any other
    node is itself moved.  The nodes first leave where they are, all of
    them, and then go in one after the other. *)
Definition insert (r p : NodeRef) (child : option NodeRef) : M unit :=
  let* n := read r in
  let nodes := match payload n with
               | DocumentFragment => childNodes n
               | _ => [r]
               end in
  modify (fun d => foldl (fun d x => attach x p child d)
                     (foldl (fun d x => detach x d) d nodes) nodes).

(** The standard's "pre-insert". *)
Definition preInsert (r p : NodeRef) (child : option NodeRef) : M unit :=
  let* pn := read p in
  let* d := get in
  if negb (canHaveChildren (payload pn)) then throw HierarchyRequestError
  else if isInclusiveAncestor d r p then throw HierarchyRequestError
  else
    let referenceChild :=
      if decide (child = Some r) then nextSibling d r else child in
    insert r p referenceChild.

(** [this.before(r)] *)
Definition before (this r : NodeRef) : M unit :=
  let* d := get in
  match siblingIndex d this with
  | None => read this ;; ret tt
  | Some (p, i) =>
      let viablePreviousSibling :=
        last (filter (fun x => x <> r) (take i (childrenOf d p))) in
      let child := match viablePreviousSibling with
                   | None => firstChild d p
                   | Some v => nextSibling d v
                   end in
      preInsert r p child
  end.

(** [text.splitText(offset)]: the tail becomes a new text node placed right
    after [r]; [r] keeps the head. *)
Definition splitText (r : NodeRef) (offset : nat) : M NodeRef :=
  let* n := read r in
  match payload n with
  | Text s =>
      if decide (length s < offset) then throw IndexSizeError
      else
        let* new := alloc (Text (drop offset s)) in
        let* d := get in
        match parentNode n with
        | Some p => modify (attach new p (nextSibling d r))
        | None => ret tt
        end ;;
        modify (fun d => emit (CharacterData r (take offset s))
                           (setPayload r (Text (take offset s)) d)) ;;
        ret new
  | _ => throw TypeError
  end.

Fixpoint setAssoc (name value : JSString) (l : list (JSString * JSString))
  : list (JSString * JSString) :=
  match l with
  | [] => [(name, value)]
  | (k, v) :: l' =>
      if decide (k = name) then (k, value) :: l' else (k, v) :: setAssoc name value l'
  end.

Fixpoint removeAssoc (name : JSString) (l : list (JSString * JSString))
  : list (JSString * JSString) :=
  match l with
  | [] => []
  | (k, v) :: l' =>
      if decide (k = name) then l' else (k, v) :: removeAssoc name l'
  end.

Fixpoint getAssoc (name : JSString) (l : list (JSString * JSString))
  : option JSString :=
  match l with
  | [] => None
  | (k, v) :: l' => if decide (k = name) then Some v else getAssoc name l'
  end.

(** [element.setAttribute(name, value)] *)
Definition setAttribute (r : NodeRef) (name value : JSString) : M unit :=
  let* n := read r in
  match payload n with
  | Element tag attrs =>
      modify (fun d => emit (AttributeSet r name value)
                         (setPayload r (Element tag (setAssoc name value attrs)) d))
  | _ => throw TypeError
  end.

(** [element.removeAttribute(name)]: an attribute the element does not have
    is not removed, and observers see nothing. *)
Definition removeAttribute (r : NodeRef) (name : JSString) : M unit :=
  let* n := read r in
  match payload n with
  | Element tag attrs =>
      match getAssoc name attrs with
      | Some _ =>
          modify (fun d => emit (AttributeRemoved r name)
                             (setPayload r (Element tag (removeAssoc name attrs)) d))
      | None => ret tt
      end
  | _ => throw TypeError
  end.

(** [element.getAttribute(name)] *)
Definition getAttribute (d : Dom) (r : NodeRef) (name : JSString) : option JSString :=
  match node d r with
  | Some (mkNode (Element _ attrs) _ _) => getAssoc name attrs
  | _ => None
  end.

(** *** Deep clone: [document.importNode(node, true)] *)

Fixpoint mapM {A B} (f : A -> M B) (l : list A) : M (list B) :=
  match l with
  | [] => ret []
  | x :: l' => let* y := f x in let* ys := mapM f l' in ret (y :: ys)
  end.

(** The copy of [r] and of everything below it, appended to [parent] when
    there is one.  Copies are new nodes: no observer sees them being built. *)
Fixpoint cloneFuel (fuel : nat) (parent : option NodeRef) (r : NodeRef) : M NodeRef :=
  match fuel with
  | 0 => outOfFuel
  | S fuel' =>
      let* n := read r in
      let* copy := alloc (payload n) in
      match parent with
      | Some p => modify (link copy p None)
      | None => ret tt
      end ;;
      mapM (cloneFuel fuel' (Some copy)) (childNodes n) ;;
      ret copy
  end.

Definition importNode (r : NodeRef) : M NodeRef :=
  let* d := get in cloneFuel (S (size (heap d))) None r.

(** *** [NodeIterator] showing elements and text *)

Record NodeIterator := mkIterator {
  iteratorRoot : NodeRef;
  referenceNode : NodeRef;
  pointerBeforeReference : bool;
}.

Definition createNodeIterator (root : NodeRef) : NodeIterator :=
  mkIterator root root true.

Fixpoint followingSibling (fuel : nat) (d : Dom) (root n : NodeRef) : option NodeRef :=
  if decide (n = root) then None
  else match nextSibling d n with
       | Some s => Some s
       | None =>
           match fuel, parentOf d n with
           | S fuel', Some p => followingSibling fuel' d root p
           | _, _ => None
           end
       end.

(** The node after [n] in tree order, inside [root]. *)
Definition following (d : Dom) (root n : NodeRef) : option NodeRef :=
  match firstChild d n with
  | Some c => Some c
  | None => followingSibling (size (heap d)) d root n
  end.

Definition shown (d : Dom) (r : NodeRef) : bool :=
  match node d r with
  | Some (mkNode (Element _ _) _ _) | Some (mkNode (Text _) _ _) => true
  | _ => false
  end.

Fixpoint traverseNext (fuel : nat) (d : Dom) (root n : NodeRef) (beforeNode : bool)
  : option NodeRef :=
  let candidate := if beforeNode then Some n else following d root n in
  match candidate with
  | None => None
  | Some c =>
      if shown d c then Some c
      else match fuel with
           | 0 => None
           | S fuel' => traverseNext fuel' d root c false
           end
  end.

(** [it.nextNode()] *)
Definition nextNode (it : NodeIterator) : M (option NodeRef * NodeIterator) :=
  let* d := get in
  match traverseNext (size (heap d)) d (iteratorRoot it) (referenceNode it)
          (pointerBeforeReference it) with
  | Some n => ret (Some n, mkIterator (iteratorRoot it) n false)
  | None => ret (None, it)
  end.

(** *** The structural parser and [innerHTML] *)

Inductive Markup :=
| MElement (tagName : JSString) (attributes : list (JSString * JSString))
    (children : list Markup)
| MText (data : JSString)
| MComment (data : JSString).

(** Induction on markup, with the hypothesis for every child. *)
Fixpoint Markup_nested_ind (P : Markup -> Prop)
    (HElement : forall tag attrs kids, Forall P kids -> P (MElement tag attrs kids))
    (HText : forall s, P (MText s)) (HComment : forall s, P (MComment s))
    (m : Markup) : P m :=
  match m with
  | MElement tag attrs kids =>
      HElement tag attrs kids
        ((fix all (l : list Markup) : Forall P l :=
            match l with
            | [] => List.Forall_nil P
            | k :: l' =>
                List.Forall_cons P k l'
                  (Markup_nested_ind P HElement HText HComment k) (all l')
            end) kids)
  | MText s => HText s
  | MComment s => HComment s
  end.

(** The host document: its HTML fragment parser. *)
Record Document := mkDocument {
  parseFragment : JSString -> list Markup;
}.

(** The parser appends each node it creates to the node it is working in. *)
Fixpoint build (parent : NodeRef) (m : Markup) : M unit :=
  match m with
  | MElement tag attrs kids =>
      let* r := alloc (Element tag attrs) in
      modify (link r parent None) ;;
      (fix buildAll (l : list Markup) : M unit :=
         match l with
         | [] => ret tt
         | k :: l' => build r k ;; buildAll l'
         end) kids
  | MText s =>
      let* r := alloc (Text s) in
      modify (link r parent None)
  | MComment s =>
      let* r := alloc (Comment s) in
      modify (link r parent None)
  end.

Fixpoint buildAll (parent : NodeRef) (l : list Markup) : M unit :=
  match l with
  | [] => ret tt
  | m :: l' => build parent m ;; buildAll parent l'
  end.

(** [element.innerHTML = html] on a fresh template element: its content
    fragment receives the parsed nodes. *)
Definition setInnerHTML (document : Document) (content : NodeRef) (html : JSString)
  : M unit :=
  buildAll content (parseFragment document html).

(** ** template.ts *)

(** The placeholder character U+26A1. *)
Definition replacement : JSString := [9889%N].

Inductive TemplateSlot :=
| TemplateNodeSlot (path : NodePath)
| TemplateAttrValueSlot (path : NodePath) (name : JSString).

Record Template := mkTemplate {
  element : NodeRef;
  content : NodeRef;
  slots : list TemplateSlot;
}.

Inductive TemplateArgument :=
| ArgString (s : JSString)
| ArgNode (r : NodeRef)
| ArgFalse
| ArgNull
| ArgUndefined.

Definition liftResult {A} (r : Result A) : M A :=
  fun d => match r with
           | Ok a => Ok (a, d)
           | Throw e => Throw e
           | OutOfFuel => OutOfFuel
           end.

(** The [while] loop of the [TEXT_NODE] case. *)
Fixpoint splitMarkers (fuel : nat) (content text : NodeRef) (slots : list TemplateSlot)
  : M (list TemplateSlot) :=
  let* data := getData text in
  let dataIndex := indexOf data replacement in
  if (0 <=? dataIndex)%Z then
    match fuel with
    | 0 => outOfFuel
    | S fuel' =>
        let before := text in
        let* text := splitText text (Z.to_nat (dataIndex + 1)) in
        let* split := if (dataIndex =? 0)%Z then ret before
                      else splitText before (Z.to_nat dataIndex) in
        let* d := get in
        let* path := liftResult (pathToNode fuel d content split) in
        let slot := TemplateNodeSlot path in
        splitMarkers fuel' content text (slots ++ [slot])
    end
  else ret slots.

(** The [for] loop of the [ELEMENT_NODE] case. *)
Fixpoint attributeSlots (fuel : nat) (content element : NodeRef)
    (attrs : list (JSString * JSString)) (slots : list TemplateSlot)
  : M (list TemplateSlot) :=
  match attrs with
  | [] => ret slots
  | (name, value) :: attrs' =>
      if decide (value = replacement) then
        let* d := get in
        let* path := liftResult (pathToNode fuel d content element) in
        attributeSlots fuel content element attrs'
          (slots ++ [TemplateAttrValueSlot path name])
      else attributeSlots fuel content element attrs' slots
  end.

Definition visit (fuel : nat) (content n : NodeRef) (slots : list TemplateSlot)
  : M (list TemplateSlot) :=
  let* x := read n in
  match payload x with
  | Text _ => splitMarkers fuel content n slots
  | Element _ attrs => attributeSlots fuel content n attrs slots
  | _ => ret slots
  end.

(** The outer [while (node)] loop. *)
Fixpoint walk (fuel : nat) (content : NodeRef) (it : NodeIterator)
    (n : option NodeRef) (slots : list TemplateSlot) : M (list TemplateSlot) :=
  match n with
  | None => ret slots
  | Some n =>
      match fuel with
      | 0 => outOfFuel
      | S fuel' =>
          let* (next, it) := nextNode it in
          let* slots := visit fuel content n slots in
          walk fuel' content it next slots
      end
  end.

(** [createTemplate] up to the end of its tree walk. *)
Definition discoverSlots (fuel : nat) (document : Document) (strings : list JSString)
  : M Template :=
  let* element := alloc (Element (str "template") []) in
  let* content := alloc DocumentFragment in
  setInnerHTML document content (join replacement strings) ;;
  let it := createNodeIterator content in
  let* (n, it) := nextNode it in
  let* slots := walk fuel content it n [] in
  ret (mkTemplate element content slots).

Definition createTemplate (fuel : nat) (document : Document) (strings : list JSString)
  : M Template :=
  let* template := discoverSlots fuel document strings in
  if decide (Z.of_nat (length (slots template))
             <> (Z.of_nat (length strings) - 1)%Z) then
    throw (Error (str "Could not find all replacements in template: "
                    ++ join replacement strings))
  else ret template.

Record NodeSlot := mkNodeSlot {
  startAfter : option NodeRef;
  endBefore : option NodeRef;
}.

Record AttrValueSlot := mkAttrValueSlot {
  slotElement : option NodeRef;
  slotName : JSString;
}.

Inductive TemplateInstanceSlot :=
| InstanceNodeSlot (s : NodeSlot)
| InstanceAttrValueSlot (s : AttrValueSlot).

Record TemplateInstance := mkTemplateInstance {
  fragment : NodeRef;
  instanceSlots : list TemplateInstanceSlot;
  nodeSlots : list NodeSlot;
  attrValueSlots : list AttrValueSlot;
}.

(** The loop of the [startAfter] branch of [collectChildNodes]. *)
Fixpoint collectForward (fuel : nat) (d : Dom) (n : NodeRef) (endBefore : option NodeRef)
    (nodes : list NodeRef) : Result (list NodeRef) :=
  match nextSibling d n with
  | None => Ok nodes
  | Some n' =>
      if decide (Some n' = endBefore) then Ok nodes
      else match fuel with
           | 0 => OutOfFuel
           | S fuel' => collectForward fuel' d n' endBefore (nodes ++ [n'])
           end
  end.

(** The loop of its other branch. *)
Fixpoint collectBackward (fuel : nat) (d : Dom) (n : NodeRef) (nodes : list NodeRef)
  : Result (list NodeRef) :=
  match previousSibling d n with
  | None => Ok nodes
  | Some n' =>
      match fuel with
      | 0 => OutOfFuel
      | S fuel' => collectBackward fuel' d n' (n' :: nodes)
      end
  end.

Definition collectChildNodes (fuel : nat) (startAfter endBefore : option NodeRef)
  : M (list NodeRef) :=
  let* d := get in
  match startAfter with
  | Some s => read s ;; liftResult (collectForward fuel d s endBefore [])
  | None =>
      match endBefore with
      | Some e => read e ;; liftResult (collectBackward fuel d e [])
      | None => throw TypeError
      end
  end.

Definition isText (d : Dom) (r : NodeRef) : bool :=
  match node d r with
  | Some (mkNode (Text _) _ _) => true
  | _ => false
  end.

(** [for (const node of current) if (node !== keep) node.remove();] *)
Fixpoint removeOthers (current : list NodeRef) (keep : option NodeRef) : M unit :=
  match current with
  | [] => ret tt
  | n :: rest =>
      (if decide (Some n = keep) then ret tt else remove n) ;;
      removeOthers rest keep
  end.

(** [slot.endBefore.before(node)] *)
Definition insertBeforeEnd (slot : NodeSlot) (r : NodeRef) : M unit :=
  match endBefore slot with
  | Some e => before e r
  | None => throw TypeError
  end.

Definition updateNodeSlot (fuel : nat) (slot : NodeSlot) (arg : TemplateArgument)
  : M unit :=
  let* current := collectChildNodes fuel (startAfter slot) (endBefore slot) in
  match arg with
  | ArgString s =>
      let* d := get in
      match List.find (isText d) current with
      | Some textNode =>
          setData textNode s ;;
          removeOthers current (Some textNode)
      | None =>
          let* textNode := createTextNode s in
          insertBeforeEnd slot textNode ;;
          removeOthers current (Some textNode)
      end
  | ArgNode r =>
      (if decide (r ∈ current) then ret tt else insertBeforeEnd slot r) ;;
      removeOthers current (Some r)
  | ArgFalse | ArgNull | ArgUndefined =>
      removeOthers current None
  end.

Definition warnFormat : JSString :=
  str "Cannot assign non-string value to attribute slot %O: %O".

Definition withElement (slot : AttrValueSlot) (f : NodeRef -> M unit) : M unit :=
  match slotElement slot with
  | Some e => f e
  | None => throw TypeError
  end.

Definition updateAttrValueSlot (slot : AttrValueSlot) (arg : TemplateArgument)
  : M unit :=
  match arg with
  | ArgString s =>
      withElement slot (fun e => setAttribute e (slotName slot) s)
  | ArgNode r =>
      (* the free identifier [name] is the global [window.name] *)
      modify (fun d => emit (ConsoleWarn warnFormat (windowName d) r) d) ;;
      withElement slot (fun e => removeAttribute e (slotName slot))
  | ArgFalse | ArgNull | ArgUndefined =>
      withElement slot (fun e => removeAttribute e (slotName slot))
  end.

Definition updateSlot (fuel : nat) (slot : TemplateInstanceSlot) (arg : TemplateArgument)
  : M unit :=
  match slot with
  | InstanceNodeSlot s => updateNodeSlot fuel s arg
  | InstanceAttrValueSlot s => updateAttrValueSlot s arg
  end.

(** One turn of the first loop of [createTemplateInstance]. *)
Definition resolveSlot (d : Dom) (fragment : NodeRef) (templateSlot : TemplateSlot)
  : Result TemplateInstanceSlot :=
  match templateSlot with
  | TemplateNodeSlot path =>
      match nodeFromPath d (Some fragment) path with
      | Ok (Some n) =>
          Ok (InstanceNodeSlot (mkNodeSlot (previousSibling d n) (nextSibling d n)))
      | Ok None => Throw TypeError
      | Throw e => Throw e
      | OutOfFuel => OutOfFuel
      end
  | TemplateAttrValueSlot path name =>
      match nodeFromPath d (Some fragment) path with
      | Ok n => Ok (InstanceAttrValueSlot (mkAttrValueSlot n name))
      | Throw e => Throw e
      | OutOfFuel => OutOfFuel
      end
  end.

(** "First, collect new slots..." *)
Fixpoint collectSlots (fragment : NodeRef) (templateSlots : list TemplateSlot)
    (slots : list TemplateInstanceSlot) : M (list TemplateInstanceSlot) :=
  match templateSlots with
  | [] => ret slots
  | templateSlot :: rest =>
      let* d := get in
      let* slot := liftResult (resolveSlot d fragment templateSlot) in
      collectSlots fragment rest (slots ++ [slot])
  end.

Definition argAt (args : list TemplateArgument) (i : nat) : TemplateArgument :=
  default ArgUndefined (args !! i).

(** "... then update slots, in case it messes up traversal" *)
Fixpoint updateSlots (fuel : nat) (slots : list TemplateInstanceSlot)
    (args : list TemplateArgument) (i count : nat) : M unit :=
  match count with
  | 0 => ret tt
  | S count' =>
      match slots !! i with
      | Some slot => updateSlot fuel slot (argAt args i)
      | None => throw TypeError
      end ;;
      updateSlots fuel slots args (S i) count'
  end.

Definition onlyNodeSlots (slots : list TemplateInstanceSlot) : list NodeSlot :=
  omap (fun s => match s with InstanceNodeSlot n => Some n | _ => None end) slots.

Definition onlyAttrValueSlots (slots : list TemplateInstanceSlot) : list AttrValueSlot :=
  omap (fun s => match s with InstanceAttrValueSlot a => Some a | _ => None end) slots.

Definition createTemplateInstance (fuel : nat) (template : Template)
    (args : list TemplateArgument) : M TemplateInstance :=
  let templateSlots := slots template in
  let* fragment := importNode (content template) in
  let* slots := collectSlots fragment templateSlots [] in
  updateSlots fuel slots args 0 (length templateSlots) ;;
  ret (mkTemplateInstance fragment slots (onlyNodeSlots slots)
         (onlyAttrValueSlots slots)).

(** ** A host document for concrete runs

    A parser for well-nested markup (tags with attributes, unquoted or in
    double or single quotes, text, comments; no void elements, no entities),
    on which HTML parsers agree. *)

Module Host.

Inductive Token :=
| TOpen (tagName : JSString) (attributes : list (JSString * JSString))
| TClose (tagName : JSString)
| TText (data : JSString)
| TComment (data : JSString).

Fixpoint span (p : N -> bool) (l : JSString) : JSString * JSString :=
  match l with
  | [] => ([], [])
  | c :: l' => if p c then let (a, b) := span p l' in (c :: a, b) else ([], l)
  end.

Definition isSpace (c : N) : bool := (c =? 32)%N || (c =? 10)%N || (c =? 9)%N.

Fixpoint untilCommentEnd (l : JSString) : JSString * JSString :=
  match l with
  | [] => ([], [])
  | c :: l' =>
      if startsWith (str "-->") l then ([], List.skipn 3 l)
      else let (a, b) := untilCommentEnd l' in (c :: a, b)
  end.

Fixpoint attributesOf (fuel : nat) (l : JSString) : list (JSString * JSString) :=
  match fuel with
  | 0 => []
  | S fuel' =>
      let l := snd (span isSpace l) in
      let (name, rest) := span (fun c => negb (isSpace c || (c =? 61)%N)) l in
      match name, rest with
      | [], _ => []
      | _, 61%N :: 34%N :: rest' =>
          let (value, rest'') := span (fun c => negb (c =? 34)%N) rest' in
          (name, value) :: attributesOf fuel' (List.skipn 1 rest'')
      | _, 61%N :: 39%N :: rest' =>
          let (value, rest'') := span (fun c => negb (c =? 39)%N) rest' in
          (name, value) :: attributesOf fuel' (List.skipn 1 rest'')
      | _, 61%N :: rest' =>
          let (value, rest'') := span (fun c => negb (isSpace c)) rest' in
          (name, value) :: attributesOf fuel' rest''
      | _, _ => (name, []) :: attributesOf fuel' rest
      end
  end.

Fixpoint tokenize (fuel : nat) (l : JSString) : list Token :=
  match fuel with
  | 0 => []
  | S fuel' =>
      match l with
      | [] => []
      | 60%N :: 47%N :: rest =>
          let (name, rest') := span (fun c => negb (c =? 62)%N) rest in
          TClose name :: tokenize fuel' (List.skipn 1 rest')
      | 60%N :: 33%N :: 45%N :: 45%N :: rest =>
          let (data, rest') := untilCommentEnd rest in
          TComment data :: tokenize fuel' rest'
      | 60%N :: rest =>
          let (body, rest') := span (fun c => negb (c =? 62)%N) rest in
          let (name, attrs) := span (fun c => negb (isSpace c)) body in
          TOpen name (attributesOf (length attrs) attrs)
            :: tokenize fuel' (List.skipn 1 rest')
      | _ =>
          let (data, rest) := span (fun c => negb (c =? 60)%N) l in
          TText data :: tokenize fuel' rest
      end
  end.

(** Children up to the matching close tag, and the tokens after it. *)
Fixpoint nest (fuel : nat) (ts : list Token) : list Markup * list Token :=
  match fuel with
  | 0 => ([], [])
  | S fuel' =>
      match ts with
      | [] => ([], [])
      | TClose _ :: rest => ([], rest)
      | TText s :: rest =>
          let (ms, rest') := nest fuel' rest in (MText s :: ms, rest')
      | TComment s :: rest =>
          let (ms, rest') := nest fuel' rest in (MComment s :: ms, rest')
      | TOpen tag attrs :: rest =>
          let (kids, rest') := nest fuel' rest in
          let (ms, rest'') := nest fuel' rest' in
          (MElement tag attrs kids :: ms, rest'')
      end
  end.

Definition parse (html : JSString) : list Markup :=
  let ts := tokenize (S (length html)) html in
  fst (nest (S (length ts)) ts).

Definition document : Document := mkDocument parse.

(** An empty page. *)
Definition emptyDom : Dom := mkDom ∅ 0 [] [].

End Host.

(** ** Well-formed trees and valid anchors *)

Definition payloadOf (d : Dom) (r : NodeRef) : option NodeData :=
  payload <$> node d r.

Definition isFragment (d : Dom) (r : NodeRef) : Prop :=
  payloadOf d r = Some DocumentFragment.

(** The tree invariants every host maintains. *)
Record wf (d : Dom) : Prop := mkWf {
  wf_parent : forall r p, parentOf d r = Some p -> r ∈ childrenOf d p;
  wf_child : forall p c, c ∈ childrenOf d p -> parentOf d c = Some p;
  wf_nodup : forall p, NoDup (childrenOf d p);
  wf_fresh : forall r, is_Some (node d r) -> r < nextRef d;
  wf_leaf : forall p c x, c ∈ childrenOf d p -> payloadOf d p = Some x ->
                          canHaveChildren x = true;
  wf_fragment : forall r, isFragment d r -> parentOf d r = None;
}.

(** The live region of a node slot: the siblings strictly between its two
    boundaries (from the first sibling when there is no "before" boundary). *)
Definition anchoredAt (d : Dom) (slot : NodeSlot) (region : list NodeRef)
    (e p : NodeRef) (pre post : list NodeRef) : Prop :=
  endBefore slot = Some e /\
  childrenOf d p = pre ++ region ++ e :: post /\
  match startAfter slot with
  | Some s => exists pre', pre = pre' ++ [s]
  | None => pre = []
  end.

Definition anchored (d : Dom) (slot : NodeSlot) (region : list NodeRef) : Prop :=
  exists e p pre post, anchoredAt d slot region e p pre post.

(** Whether [r] names a node. *)
Definition live (d : Dom) (r : NodeRef) : bool :=
  if node d r is Some _ then true else false.

(** The insertions and removals recorded in a trace, as (parent, node). *)
Definition additions (evs : list Event) : list (NodeRef * NodeRef) :=
  omap (fun ev => match ev with ChildAdded q x => Some (q, x) | _ => None end) evs.

Definition removals (evs : list Event) : list (NodeRef * NodeRef) :=
  omap (fun ev => match ev with ChildRemoved q x => Some (q, x) | _ => None end) evs.

(** Arguments the update rule accepts at a slot held in parent [p]. *)
Definition insertable (d : Dom) (slot : NodeSlot) (p r : NodeRef) : Prop :=
  live d r = true /\ Some r <> startAfter slot /\ Some r <> endBefore slot /\
  isInclusiveAncestor d r p = false.

Definition validArg (d : Dom) (slot : NodeSlot) (p : NodeRef) (arg : TemplateArgument)
  : Prop :=
  match arg with
  | ArgNode r => insertable d slot p r
  | _ => True
  end.

(** The nodes the host moves when [r] is inserted. *)
Definition insertedNodes (d : Dom) (r : NodeRef) : list NodeRef :=
  match payloadOf d r with
  | Some DocumentFragment => childrenOf d r
  | _ => [r]
  end.

(** What the region must hold after [arg] has been applied in [d], giving [d']. *)
Definition keeps (d d' : Dom) (arg : TemplateArgument) (kept : list NodeRef) : Prop :=
  match arg with
  | ArgString s => exists t, kept = [t] /\ payloadOf d' t = Some (Text s)
  | ArgNode r => kept = insertedNodes d r
  | ArgFalse | ArgNull | ArgUndefined => kept = []
  end.

(** The instantiation engine as the design describes it: clone, resolve every
    address against the untouched clone, then apply the values in slot order. *)
Fixpoint resolveAll (d : Dom) (fragment : NodeRef) (templateSlots : list TemplateSlot)
  : Result (list TemplateInstanceSlot) :=
  match templateSlots with
  | [] => Ok []
  | templateSlot :: rest =>
      match resolveSlot d fragment templateSlot with
      | Ok slot =>
          match resolveAll d fragment rest with
          | Ok slots => Ok (slot :: slots)
          | Throw e => Throw e
          | OutOfFuel => OutOfFuel
          end
      | Throw e => Throw e
      | OutOfFuel => OutOfFuel
      end
  end.

Fixpoint applyAll (fuel : nat) (pairs : list (TemplateInstanceSlot * TemplateArgument))
  : M unit :=
  match pairs with
  | [] => ret tt
  | (slot, arg) :: rest => updateSlot fuel slot arg ;; applyAll fuel rest
  end.

Definition resolveThenApply (fuel : nat) (template : Template)
    (args : list TemplateArgument) : M TemplateInstance :=
  let* fragment := importNode (content template) in
  let* clone := get in
  let* anchors := liftResult (resolveAll clone fragment (slots template)) in
  applyAll fuel (zip anchors (map (argAt args) (seq 0 (length anchors)))) ;;
  ret (mkTemplateInstance fragment anchors (onlyNodeSlots anchors)
         (onlyAttrValueSlots anchors)).

Definition detachAll (l : list NodeRef) (d : Dom) : Dom :=
  foldl (fun d x => detach x d) d l.

(** [x] taken from wherever it is and put right before [e] under [p]. *)
Definition moveBefore (x p e : NodeRef) (d : Dom) : Dom :=
  attach x p (Some e) (detach x d).

(** [nodes] taken from wherever they are, then put right before [e] under
    [p], in their order. *)
Definition moveAllBefore (nodes : list NodeRef) (p e : NodeRef) (d : Dom) : Dom :=
  foldl (fun d x => attach x p (Some e) d) (detachAll nodes d) nodes.

(** The state after [nodes] went in before [e] and [region] was removed. *)
Definition applied (nodes region : list NodeRef) (p e : NodeRef) (d : Dom) : Dom :=
  detachAll region (moveAllBefore nodes p e d).

(** The state after an existing text node [t] of the region took the string. *)
Definition textReused (t : NodeRef) (s : JSString) (region : list NodeRef) (d : Dom)
  : Dom :=
  detachAll (filter (fun n => Some n <> Some t) region)
    (emit (CharacterData t s) (setPayload t (Text s) d)).

(** Scenario: the template "<p>", "</p>" instantiated with "hello" on an
    empty page. *)
Definition paragraph (fuel : nat) (document : Document)
  : Result (TemplateInstance * Dom) :=
  (let* template := createTemplate fuel document [str "<p>"; str "</p>"] in
   createTemplateInstance fuel template [ArgString (str "hello")]) Host.emptyDom.

(** ** Addresses and document order *)

(** [path] leads from [root] to [n]. *)
Definition resolves (d : Dom) (root : NodeRef) (path : NodePath) (n : NodeRef) : Prop :=
  nodeFromPath d (Some root) path = Ok (Some n).

(** Document order on addresses: an ancestor comes before its descendants, an
    earlier sibling and all below it before a later sibling. *)
Inductive precedes : NodePath -> NodePath -> Prop :=
| precedes_ancestor i rest : precedes [] (i :: rest)
| precedes_sibling i j rest rest' : i < j -> precedes (i :: rest) (j :: rest')
| precedes_below i rest rest' : precedes rest rest' -> precedes (i :: rest) (i :: rest').

(** What an address becomes when a node is inserted under the node at [at_]
    right after its child number [j]. *)
Fixpoint bump (at_ : NodePath) (j : nat) (path : NodePath) : NodePath :=
  match at_, path with
  | [], k :: rest => if decide (j < k) then S k :: rest else path
  | a :: at', b :: rest => if decide (a = b) then b :: bump at' j rest else path
  | _, [] => path
  end.

(** How many children the node at [path] has, when there is one. *)
Definition arity (d : Dom) (root : NodeRef) (path : NodePath) : option nat :=
  match nodeFromPath d (Some root) path with
  | Ok (Some n) => Some (length (childrenOf d n))
  | _ => None
  end.

(** Nodes below the watermark [old] only have children below it. *)
Definition oldClosed (d : Dom) (old : nat) : Prop :=
  forall q c, q < old -> c ∈ childrenOf d q -> c < old.

(** What a call of [cloneFuel] made in [d] establishes: the copy is a new
    tree of the same shape, and nothing else has changed but the child list of
    the node the copy was appended to. *)
Definition cloned (parent : option NodeRef) (r : NodeRef) (d : Dom)
    (copy : NodeRef) (d' : Dom) : Prop :=
  wf d' /\ copy = nextRef d /\ nextRef d < nextRef d' /\
  (forall q, q < nextRef d -> Some q <> parent -> node d' q = node d q) /\
  (forall p, parent = Some p ->
     childrenOf d' p = childrenOf d p ++ [copy] /\
     payloadOf d' p = payloadOf d p) /\
  (forall path n', resolves d' copy path n' -> nextRef d <= n' < nextRef d') /\
  (forall path, arity d' copy path = arity d r path).

(** The state in which [cloneFuel] turns to the children. *)
Definition cloneStart (parent : option NodeRef) (y : NodeData) (d : Dom) : Dom :=
  match parent with
  | Some p => link (nextRef d) p None (allocated y d)
  | None => allocated y d
  end.

(** The node slots recorded so far point at nodes that have a next sibling
    and lie before the address [bound] in document order. *)
Definition slotsBefore (d : Dom) (root : NodeRef) (slots : list TemplateSlot)
    (bound : NodePath) : Prop :=
  forall path, TemplateNodeSlot path ∈ slots ->
    exists n, resolves d root path n /\ nextSibling d n <> None /\
              precedes path bound.

(** The node slots of a template all point at a node with a next sibling. *)
Definition slotsHaveNext (d : Dom) (root : NodeRef) (slots : list TemplateSlot) : Prop :=
  forall path, TemplateNodeSlot path ∈ slots ->
    exists n, resolves d root path n /\ nextSibling d n <> None.

(** The state after [r.splitText(offset)], where [r] holds the text [s]. *)
Definition splitOff (r : NodeRef) (offset : nat) (s : JSString) (d : Dom) : Dom :=
  let d1 := allocated (Text (drop offset s)) d in
  let d2 := match parentOf d r with
            | Some p => attach (nextRef d) p (nextSibling d1 r) d1
            | None => d1
            end in
  emit (CharacterData r (take offset s)) (setPayload r (Text (take offset s)) d2).

(** ** A small page for concrete runs

    Node 0 is a fragment holding the paragraph 1, whose children are the text
    nodes 2 ("a") and 3 (empty); node 4 is an element in no tree. *)
Module Sample.

Definition page : Dom :=
  let d := allocated DocumentFragment Host.emptyDom in
  let d := allocated (Element (str "p") [(str "class", str "x")]) d in
  let d := attach 1 0 None d in
  let d := allocated (Text (str "a")) d in
  let d := attach 2 1 None d in
  let d := allocated (Text []) d in
  let d := attach 3 1 None d in
  allocated (Element (str "b") []) d.

(** The slot spanning node 2: no "before" boundary, node 3 after it. *)
Definition slot : NodeSlot := mkNodeSlot None (Some 3).

(** The slot on the paragraph's [class] attribute. *)
Definition classSlot : AttrValueSlot := mkAttrValueSlot (Some 1) (str "class").

Definition outcome {A} (r : Result (A * Dom)) : Dom :=
  match r with Ok (_, d) => d | _ => Host.emptyDom end.

End Sample.

(** ** html.ts *)

(** A template strings array: one object per call site of a tagged template,
    holding the cooked strings. *)
Record TemplateStringsArray := mkStrings {
  callSite : nat;
  cooked : list JSString;
}.

(** The page: the host tree and the module's [templates] map, keyed by the
    identity of the strings array. *)
Record Page := mkPage {
  tree : Dom;
  templates : gmap nat Template;
}.

(** Computations of html.ts: on the tree and the map. *)
Definition HtmlM (A : Type) := Page -> Result (A * Page).

(** Running a computation on the tree; the map stays as it is. *)
Definition onDom {A} (m : M A) : HtmlM A :=
  fun page => match m (tree page) with
              | Ok (a, d) => Ok (a, mkPage d (templates page))
              | Throw e => Throw e
              | OutOfFuel => OutOfFuel
              end.

(** One statement after another; an exception ends the run. *)
Definition andThen {A B} (m : HtmlM A) (k : A -> HtmlM B) : HtmlM B :=
  fun page => match m page with
              | Ok (a, page') => k a page'
              | Throw e => Throw e
              | OutOfFuel => OutOfFuel
              end.

(** [templates.get(strings)], compiling and storing the template when the
    map has none. *)
Definition getTemplate (fuel : nat) (document : Document)
    (strings : TemplateStringsArray) : HtmlM Template :=
  fun page =>
    match templates page !! callSite strings with
    | Some template => Ok (template, page)
    | None =>
        andThen (onDom (createTemplate fuel document (cooked strings)))
          (fun template page' =>
             Ok (template,
                 mkPage (tree page')
                   (<[callSite strings := template]> (templates page'))))
          page
    end.

(** [html`...`]: the content as a new fragment. *)
Definition html (fuel : nat) (document : Document) (strings : TemplateStringsArray)
    (args : list TemplateArgument) : HtmlM NodeRef :=
  andThen (getTemplate fuel document strings) (fun template =>
  andThen (onDom (createTemplateInstance fuel template args)) (fun instance page =>
  Ok (fragment instance, page))).

(** [node.nodeType === Node.ELEMENT_NODE] *)
Definition isElement (d : Dom) (r : NodeRef) : bool :=
  match payloadOf d r with
  | Some (Element _ _) => true
  | _ => false
  end.

(** [parent.childElementCount] *)
Definition childElementCount (d : Dom) (r : NodeRef) : nat :=
  length (List.filter (isElement d) (childrenOf d r)).

(** [parent.firstElementChild] *)
Definition firstElementChild (d : Dom) (r : NodeRef) : option NodeRef :=
  List.find (isElement d) (childrenOf d r).

(** [html.element`...`]: the single top-level element. *)
Definition htmlElement (fuel : nat) (document : Document)
    (strings : TemplateStringsArray) (args : list TemplateArgument)
  : HtmlM (option NodeRef) :=
  andThen (getTemplate fuel document strings) (fun template page =>
    if decide (childElementCount (tree page) (content template) <> 1) then
      Throw (Error
               (str "html.element template should have a single top-level element: "
                  ++ join replacement (cooked strings)))
    else
      andThen (onDom (createTemplateInstance fuel template args))
        (fun instance page' =>
           Ok (firstElementChild (tree page') (fragment instance), page'))
        page).

(** What [html.instance] hands out.  The methods of a child slot are closures
    over the slot; [nodes] and [append] are the functions [childSlotNodes]
    and [childSlotAppend] below, applied to the slot. *)
Record Instance := mkInstance {
  instanceFragment : NodeRef;
  instanceNode : option NodeRef;
  instanceElement : option NodeRef;
  instanceUpdaters : list TemplateInstanceSlot;
  attrSlots : list AttrValueSlot;
  childSlots : list NodeSlot;
}.

(** [html.instance`...`] *)
Definition htmlInstance (fuel : nat) (document : Document)
    (strings : TemplateStringsArray) (args : list TemplateArgument) : HtmlM Instance :=
  andThen (getTemplate fuel document strings) (fun template =>
  andThen (onDom (createTemplateInstance fuel template args)) (fun instance page =>
  Ok (mkInstance (fragment instance)
        (firstChild (tree page) (fragment instance))
        (firstElementChild (tree page) (fragment instance))
        (instanceSlots instance) (attrValueSlots instance) (nodeSlots instance),
      page))).

(** [childSlots[i].nodes()] *)
Definition childSlotNodes (fuel : nat) (slot : NodeSlot) : M (list NodeRef) :=
  collectChildNodes fuel (startAfter slot) (endBefore slot).

(** An argument of the variadic DOM methods. *)
Inductive Item :=
| ItemString (s : JSString)
| ItemNode (r : NodeRef).

#[global] Instance Item_eq_dec : EqDecision Item.
Proof. solve_decision. Defined.

(** The standard's "converting nodes into a node". *)
Fixpoint appendAll (nodes : list NodeRef) (parent : NodeRef) : M unit :=
  match nodes with
  | [] => ret tt
  | n :: rest => preInsert n parent None ;; appendAll rest parent
  end.

Definition convertNodesIntoNode (items : list Item) : M NodeRef :=
  let* nodes := mapM (fun item => match item with
                                  | ItemString s => createTextNode s
                                  | ItemNode r => ret r
                                  end) items in
  match nodes with
  | [n] => ret n
  | _ =>
      let* n := alloc DocumentFragment in
      appendAll nodes n ;;
      ret n
  end.

(** [this.before(...items)] *)
Definition beforeItems (this : NodeRef) (items : list Item) : M unit :=
  let* d := get in
  match siblingIndex d this with
  | None => read this ;; ret tt
  | Some (p, i) =>
      let viablePreviousSibling :=
        last (filter (fun x => ItemNode x ∉ items) (take i (childrenOf d p))) in
      let* n := convertNodesIntoNode items in
      let* d := get in
      let child := match viablePreviousSibling with
                   | None => firstChild d p
                   | Some v => nextSibling d v
                   end in
      preInsert n p child
  end.

(** [childSlots[i].append(...items)] *)
Definition childSlotAppend (slot : NodeSlot) (items : list Item) : M unit :=
  match endBefore slot with
  | Some e => beforeItems e items
  | None => throw TypeError
  end.

(** ** Further notions for the statements *)

(** [n] is not [root], and neither is any of its ancestors. *)
Inductive outside (d : Dom) (root : NodeRef) : NodeRef -> Prop :=
| outside_top n : n <> root -> parentOf d n = None -> outside d root n
| outside_child n p :
    n <> root -> parentOf d n = Some p -> outside d root p -> outside d root n.

(** The names of the attributes whose whole value is the marker. *)
Definition markedNames (attrs : list (JSString * JSString)) : list JSString :=
  (filter (fun kv => kv.2 = replacement) attrs).*1.

(** Where the markers of a text end up.  The text node sits at child index
    [j]; [pending] tells whether text has been read since the last marker.
    A marker with text before it lands one index further, after that text. *)
Fixpoint markerIndexes (j : nat) (pending : bool) (s : JSString) : list nat :=
  match s with
  | [] => []
  | c :: s' =>
      if decide ([c] = replacement) then
        if pending then S j :: markerIndexes (S (S j)) false s'
        else j :: markerIndexes (S j) false s'
      else markerIndexes j true s'
  end.

(** Whether a piece of parsed markup is an element. *)
Definition isMElement (m : Markup) : bool :=
  match m with
  | MElement _ _ _ => true
  | _ => false
  end.

(** The values that empty a slot: [false], [null], [undefined]. *)
Definition emptyArg (arg : TemplateArgument) : Prop :=
  match arg with
  | ArgString _ | ArgNode _ => False
  | ArgFalse | ArgNull | ArgUndefined => True
  end.

(** An instance slot matches a template slot: the same kind and, for an
    attribute, the same name. *)
Definition sameKind (templateSlot : TemplateSlot) (slot : TemplateInstanceSlot) : Prop :=
  match templateSlot, slot with
  | TemplateNodeSlot _, InstanceNodeSlot _ => True
  | TemplateAttrValueSlot _ name, InstanceAttrValueSlot s => slotName s = name
  | _, _ => False
  end.

(** [d] is a well-formed state in which every node below the watermark
    [old] is as in [d0]. *)
Definition extends (d0 : Dom) (old : nat) (d : Dom) : Prop :=
  wf d /\ old <= nextRef d /\ forall q, q < old -> node d q = node d0 q.

(** The boundaries of a slot were created at or above the watermark. *)
Definition slotAbove (old : nat) (slot : TemplateInstanceSlot) : Prop :=
  match slot with
  | InstanceNodeSlot s =>
      (forall a, startAfter s = Some a -> old <= a) /\
      (forall e, endBefore s = Some e -> old <= e)
  | InstanceAttrValueSlot s => forall el, slotElement s = Some el -> old <= el
  end.

(** ** More pages for concrete runs *)
Module Fixture.

(** A fragment 0 holding the text node 1, whose text has two markers. *)
Definition textPage : Dom :=
  Sample.outcome
    (buildAll 0 [MText (str "a" ++ replacement ++ str "bc" ++ replacement)]
       (allocated DocumentFragment Host.emptyDom)).

(** A fragment 0 holding the element 1, two of whose three attributes have
    the marker as their value. *)
Definition attrPage : Dom :=
  Sample.outcome
    (buildAll 0
       [MElement (str "p")
          [(str "class", replacement); (str "id", str "x"); (str "title", replacement)]
          []]
       (allocated DocumentFragment Host.emptyDom)).

(** [Sample.page] and a fragment 5 that holds the element 4. *)
Definition fragmentPage : Dom :=
  attach 4 5 None (allocated DocumentFragment Sample.page).

(** The tree compiled from a paragraph with two interpolations and nothing
    between them: the paragraph 2 holds the two marker nodes 3 and 4 and the
    empty text node 5. *)
Definition adjacentPage : Dom :=
  Sample.outcome (createTemplate 6 Host.document [str "<p>"; []; str "</p>"]
                    Host.emptyDom).

(** A page with no node and no template. *)
Definition emptyPage : Page := mkPage Host.emptyDom ∅.

(** The page a successful run leaves. *)
Definition after {A} (r : Result (A * Page)) : Page :=
  match r with Ok (_, page) => page | _ => emptyPage end.

End Fixture.

(** * Properties *)

(** ** The monad *)

Lemma bind_Ok {A B} (m : M A) (k : A -> M B) d a d' :
  m d = Ok (a, d') -> bind m k d = k a d'.
Proof. unfold bind. intros ->. reflexivity. Qed.

Lemma bind_inv {A B} (m : M A) (k : A -> M B) d b d'' :
  bind m k d = Ok (b, d'') ->
  exists a d', m d = Ok (a, d') /\ k a d' = Ok (b, d'').
Proof.
  unfold bind. destruct (m d) as [[a d']| |]; try discriminate.
  intros H. exists a, d'. split; [reflexivity | exact H].
Qed.

Lemma bind_ext {A B} (m : M A) (k1 k2 : A -> M B) d :
  (forall a d', k1 a d' = k2 a d') -> bind m k1 d = bind m k2 d.
Proof. intros H. unfold bind. destruct (m d) as [[a d']| |]; auto. Qed.

Lemma bind_get {B} (k : Dom -> M B) d : bind get k d = k d d.
Proof. reflexivity. Qed.

(** ** Reading the store after a primitive update *)

Section Projections.
Context (d : Dom).

Lemma node_setPayload r x q :
  node (setPayload r x d) q
  = if decide (r = q)
    then (fun n => mkNode x (parentNode n) (childNodes n)) <$> node d q
    else node d q.
Proof.
  unfold node, setPayload; simpl. rewrite lookup_alter.
  by case_decide; subst.
Qed.

Lemma node_setParent r p q :
  node (setParent r p d) q
  = if decide (r = q)
    then (fun n => mkNode (payload n) p (childNodes n)) <$> node d q
    else node d q.
Proof.
  unfold node, setParent; simpl. rewrite lookup_alter.
  by case_decide; subst.
Qed.

Lemma node_setChildren r cs q :
  node (setChildren r cs d) q
  = if decide (r = q)
    then (fun n => mkNode (payload n) (parentNode n) cs) <$> node d q
    else node d q.
Proof.
  unfold node, setChildren; simpl. rewrite lookup_alter.
  by case_decide; subst.
Qed.

Lemma node_emit e q : node (emit e d) q = node d q.
Proof. reflexivity. Qed.
End Projections.

Ltac case_node d q :=
  let E := fresh "E" in destruct (node d q) as [[? ? ?]|] eqn:E; simpl.

Ltac by_node_cases lem d q :=
  rewrite lem; case_decide; [|done]; by case_node d q.

Section ProjectionsOf.
Context (d : Dom).

Lemma payloadOf_setPayload r x q :
  payloadOf (setPayload r x d) q
  = if decide (r = q) then (if live d q then Some x else None) else payloadOf d q.
Proof. unfold payloadOf, live. by_node_cases node_setPayload d q. Qed.

Lemma parentOf_setPayload r x q : parentOf (setPayload r x d) q = parentOf d q.
Proof. unfold parentOf. by_node_cases node_setPayload d q. Qed.

Lemma childrenOf_setPayload r x q : childrenOf (setPayload r x d) q = childrenOf d q.
Proof. unfold childrenOf. by_node_cases node_setPayload d q. Qed.

Lemma live_setPayload r x q : live (setPayload r x d) q = live d q.
Proof. unfold live. by_node_cases node_setPayload d q. Qed.

Lemma payloadOf_setParent r p q : payloadOf (setParent r p d) q = payloadOf d q.
Proof. unfold payloadOf. by_node_cases node_setParent d q. Qed.

Lemma parentOf_setParent r p q :
  parentOf (setParent r p d) q
  = if decide (r = q) then (if live d q then p else None) else parentOf d q.
Proof. unfold parentOf, live. by_node_cases node_setParent d q. Qed.

Lemma childrenOf_setParent r p q : childrenOf (setParent r p d) q = childrenOf d q.
Proof. unfold childrenOf. by_node_cases node_setParent d q. Qed.

Lemma live_setParent r p q : live (setParent r p d) q = live d q.
Proof. unfold live. by_node_cases node_setParent d q. Qed.

Lemma payloadOf_setChildren r cs q : payloadOf (setChildren r cs d) q = payloadOf d q.
Proof. unfold payloadOf. by_node_cases node_setChildren d q. Qed.

Lemma parentOf_setChildren r cs q : parentOf (setChildren r cs d) q = parentOf d q.
Proof. unfold parentOf. by_node_cases node_setChildren d q. Qed.

Lemma childrenOf_setChildren r cs q :
  childrenOf (setChildren r cs d) q
  = if decide (r = q) then (if live d q then cs else []) else childrenOf d q.
Proof. unfold childrenOf, live. by_node_cases node_setChildren d q. Qed.

Lemma live_setChildren r cs q : live (setChildren r cs d) q = live d q.
Proof. unfold live. by_node_cases node_setChildren d q. Qed.

Lemma payloadOf_emit e q : payloadOf (emit e d) q = payloadOf d q.
Proof. reflexivity. Qed.
Lemma parentOf_emit e q : parentOf (emit e d) q = parentOf d q.
Proof. reflexivity. Qed.
Lemma childrenOf_emit e q : childrenOf (emit e d) q = childrenOf d q.
Proof. reflexivity. Qed.
Lemma live_emit e q : live (emit e d) q = live d q.
Proof. reflexivity. Qed.
Lemma nextRef_emit e : nextRef (emit e d) = nextRef d.
Proof. reflexivity. Qed.
Lemma nextRef_setPayload r x : nextRef (setPayload r x d) = nextRef d.
Proof. reflexivity. Qed.
Lemma nextRef_setParent r x : nextRef (setParent r x d) = nextRef d.
Proof. reflexivity. Qed.
Lemma nextRef_setChildren r x : nextRef (setChildren r x d) = nextRef d.
Proof. reflexivity. Qed.
End ProjectionsOf.

Create Rewrite HintDb dom.
#[global] Hint Rewrite payloadOf_setPayload parentOf_setPayload childrenOf_setPayload
  payloadOf_setParent parentOf_setParent childrenOf_setParent
  payloadOf_setChildren parentOf_setChildren childrenOf_setChildren
  payloadOf_emit parentOf_emit childrenOf_emit
  live_setPayload live_setParent live_setChildren live_emit
  nextRef_emit nextRef_setPayload nextRef_setParent nextRef_setChildren : dom.

Ltac dom_simpl := autorewrite with dom in *.

Lemma live_is_Some d r : live d r = true <-> is_Some (node d r).
Proof. unfold live. destruct (node d r); split; (eauto || done || by intros []). Qed.

Lemma live_parentOf d r p : parentOf d r = Some p -> live d r = true.
Proof. unfold parentOf, live. by destruct (node d r). Qed.

Lemma live_childrenOf d p c : c ∈ childrenOf d p -> live d p = true.
Proof.
  unfold childrenOf, live. destruct (node d p); [done|]. by intros ?%elem_of_nil.
Qed.

Lemma live_payloadOf d r x : payloadOf d r = Some x -> live d r = true.
Proof. unfold payloadOf, live. by destruct (node d r). Qed.

Lemma payloadOf_live d r : live d r = true -> is_Some (payloadOf d r).
Proof. unfold payloadOf, live. destruct (node d r); [eauto | done]. Qed.

Lemma not_live d r :
  live d r = false ->
  payloadOf d r = None /\ parentOf d r = None /\ childrenOf d r = [].
Proof. unfold payloadOf, parentOf, childrenOf, live. by destruct (node d r). Qed.

Lemma wf_child_live d p c : wf d -> c ∈ childrenOf d p -> live d c = true.
Proof. intros Hwf Hc. eapply live_parentOf, wf_child; eauto. Qed.

(** ** Detaching and attaching *)

Section Detach.
Context (d : Dom).

Lemma parentOf_detach r q :
  parentOf (detach r d) q = if decide (r = q) then None else parentOf d q.
Proof.
  unfold detach. destruct (parentOf d r) as [p|] eqn:E.
  - dom_simpl. case_decide; [|done]. by destruct (live d q).
  - case_decide; by subst.
Qed.

Lemma childrenOf_detach r q :
  childrenOf (detach r d) q
  = if decide (parentOf d r = Some q)
    then filter (fun x => x <> r) (childrenOf d q) else childrenOf d q.
Proof.
  unfold detach. destruct (parentOf d r) as [p|] eqn:E.
  - dom_simpl. repeat case_decide; simplify_eq; try done.
    destruct (live d q) eqn:L; [done|].
    apply not_live in L as (_ & _ & ->). done.
  - by case_decide.
Qed.

Lemma payloadOf_detach r q : payloadOf (detach r d) q = payloadOf d q.
Proof. unfold detach. destruct (parentOf d r); by dom_simpl. Qed.

Lemma live_detach r q : live (detach r d) q = live d q.
Proof. unfold detach. destruct (parentOf d r); by dom_simpl. Qed.

Lemma nextRef_detach r : nextRef (detach r d) = nextRef d.
Proof. unfold detach. by destruct (parentOf d r). Qed.

Lemma parentOf_link r p child q :
  parentOf (link r p child d) q
  = if decide (r = q) then (if live d q then Some p else None) else parentOf d q.
Proof. unfold link. by dom_simpl. Qed.

Lemma childrenOf_link r p child q :
  childrenOf (link r p child d) q
  = if decide (p = q)
    then (if live d q then insertAt r child (childrenOf d q) else [])
    else childrenOf d q.
Proof. unfold link. dom_simpl. by case_decide; subst. Qed.

Lemma payloadOf_link r p child q : payloadOf (link r p child d) q = payloadOf d q.
Proof. unfold link. by dom_simpl. Qed.

Lemma live_link r p child q : live (link r p child d) q = live d q.
Proof. unfold link. by dom_simpl. Qed.

Lemma nextRef_link r p child : nextRef (link r p child d) = nextRef d.
Proof. reflexivity. Qed.

Lemma trace_link r p child : trace (link r p child d) = trace d.
Proof. reflexivity. Qed.

Lemma parentOf_attach r p child q :
  parentOf (attach r p child d) q
  = if decide (r = q) then (if live d q then Some p else None) else parentOf d q.
Proof. unfold attach. rewrite parentOf_emit. apply parentOf_link. Qed.

Lemma childrenOf_attach r p child q :
  childrenOf (attach r p child d) q
  = if decide (p = q)
    then (if live d q then insertAt r child (childrenOf d q) else [])
    else childrenOf d q.
Proof. unfold attach. rewrite childrenOf_emit. apply childrenOf_link. Qed.

Lemma payloadOf_attach r p child q : payloadOf (attach r p child d) q = payloadOf d q.
Proof. unfold attach. by rewrite payloadOf_emit, payloadOf_link. Qed.

Lemma live_attach r p child q : live (attach r p child d) q = live d q.
Proof. unfold attach. by rewrite live_emit, live_link. Qed.

Lemma nextRef_attach r p child : nextRef (attach r p child d) = nextRef d.
Proof. reflexivity. Qed.
End Detach.

#[global] Hint Rewrite parentOf_detach childrenOf_detach payloadOf_detach live_detach
  nextRef_detach parentOf_attach childrenOf_attach payloadOf_attach live_attach
  nextRef_attach parentOf_link childrenOf_link payloadOf_link live_link
  nextRef_link trace_link : dom.

Lemma wf_detach d r : wf d -> wf (detach r d).
Proof.
  intros Hwf. split.
  - intros q p. dom_simpl. case_decide; [done|]. intros Hp.
    case_decide as Hr.
    + apply list_elem_of_filter. split; [congruence|]. by apply wf_parent.
    + by apply wf_parent.
  - intros p c. dom_simpl. case_decide as Hr.
    + intros [Hne Hc]%list_elem_of_filter. case_decide; [congruence|].
      by apply wf_child.
    + intros Hc. case_decide; [|by apply wf_child].
      subst. apply (wf_child d Hwf) in Hc. congruence.
  - intros p. dom_simpl. case_decide; [apply NoDup_filter|]; by apply wf_nodup.
  - intros q. rewrite <- !live_is_Some. dom_simpl. rewrite live_is_Some.
    by apply wf_fresh.
  - intros p c x. dom_simpl. case_decide.
    + intros [_ Hc]%list_elem_of_filter. by eapply wf_leaf.
    + by eapply wf_leaf.
  - intros q. unfold isFragment. dom_simpl. intros Hq.
    case_decide; [done|]. by apply wf_fragment.
Qed.

(** ** Siblings *)

Lemma position_Some r l i : position r l = Some i -> l !! i = Some r.
Proof.
  revert i. induction l as [|x l IH]; intros i; simpl; [done|].
  case_decide; [intros [= <-]; by subst|].
  destruct (position r l) as [j|]; simpl; [|done].
  intros [= <-]. by apply IH.
Qed.

Lemma position_app r l1 l2 : r ∉ l1 -> position r (l1 ++ r :: l2) = Some (length l1).
Proof.
  induction l1 as [|x l1 IH]; simpl; intros Hnot.
  - by rewrite decide_True.
  - apply not_elem_of_cons in Hnot as [Hne Hnot].
    rewrite decide_False by done. by rewrite IH.
Qed.

Lemma position_None r l : r ∉ l -> position r l = None.
Proof.
  induction l as [|x l IH]; simpl; [done|]. intros [Hne Hnot]%not_elem_of_cons.
  rewrite decide_False by done. by rewrite IH.
Qed.

Lemma NoDup_app_cons_l (r : NodeRef) l1 l2 : NoDup (l1 ++ r :: l2) -> r ∉ l1.
Proof.
  intros [_ [H _]]%NoDup_app Hin. apply (H r Hin). by left.
Qed.

Lemma NoDup_app_cons_r (r : NodeRef) l1 l2 : NoDup (l1 ++ r :: l2) -> r ∉ l2.
Proof. intros [_ [_ [H _]%NoDup_cons]]%NoDup_app. done. Qed.

Section Siblings.
Context (d : Dom) (Hwf : wf d).
Context (p r : NodeRef) (l1 l2 : list NodeRef).
Context (Hcs : childrenOf d p = l1 ++ r :: l2).

Lemma sibling_parentOf : parentOf d r = Some p.
Proof using Hwf Hcs.
  apply wf_child; [done|]. rewrite Hcs. apply elem_of_app. right. by left.
Qed.

Lemma sibling_index : siblingIndex d r = Some (p, length l1).
Proof using Hwf Hcs.
  unfold siblingIndex. rewrite sibling_parentOf. simpl.
  rewrite Hcs, position_app; [done|].
  eapply NoDup_app_cons_l. rewrite <- Hcs. by apply wf_nodup.
Qed.

Lemma sibling_previous : previousSibling d r = last l1.
Proof using Hwf Hcs.
  unfold previousSibling. rewrite sibling_index. simpl.
  destruct l1 as [|x l1' _] using rev_ind; [done|].
  rewrite length_app, last_snoc. simpl.
  replace (length l1' + 1) with (S (length l1')) by lia.
  rewrite Hcs, <- app_assoc. simpl. by apply list_lookup_middle.
Qed.

Lemma sibling_next : nextSibling d r = head l2.
Proof using Hwf Hcs.
  unfold nextSibling. rewrite sibling_index. simpl.
  rewrite Hcs. rewrite (lookup_app_r l1) by lia.
  replace (S (length l1) - length l1) with 1 by lia. by destruct l2.
Qed.
End Siblings.

Lemma countPreviousSiblings_spec d p r l1 l2 fuel index :
  wf d -> childrenOf d p = l1 ++ r :: l2 -> length l1 <= fuel ->
  countPreviousSiblings fuel d r index = Ok (index + length l1).
Proof.
  intros Hwf. revert r l2 fuel index.
  induction l1 as [|x l1 IH] using rev_ind; intros r l2 fuel index Hcs Hfuel.
  - destruct fuel; simpl; rewrite (sibling_previous d Hwf p r [] l2 Hcs);
      simpl; f_equal; lia.
  - rewrite length_app in *. simpl in *.
    destruct fuel as [|fuel]; [lia|]. simpl.
    rewrite (sibling_previous d Hwf p r _ l2 Hcs), last_snoc.
    rewrite <- app_assoc in Hcs. simpl in Hcs.
    rewrite (IH x (r :: l2) fuel (S index) Hcs) by lia. f_equal. lia.
Qed.

(** ** Addresses *)

(** [n] is [root] or lies below it. *)
Inductive inclusiveDescendant (d : Dom) (root : NodeRef) : NodeRef -> Prop :=
| descendant_root : inclusiveDescendant d root root
| descendant_child n p :
    parentOf d n = Some p -> inclusiveDescendant d root p ->
    inclusiveDescendant d root n.

Lemma nodeFromPath_app d root p1 p2 n :
  nodeFromPath d root p1 = Ok (Some n) ->
  nodeFromPath d root (p1 ++ p2) = nodeFromPath d (Some n) p2.
Proof.
  revert root. induction p1 as [|i p1 IH]; intros root; simpl.
  - by intros [= ->].
  - destruct root; [|done]. apply IH.
Qed.

Lemma pathToNodeLoop_spec d root n :
  wf d -> inclusiveDescendant d root n ->
  exists prefix bound,
    nodeFromPath d (Some root) prefix = Ok (Some n) /\
    forall fuel result, bound <= fuel ->
      pathToNodeLoop fuel d root (Some n) result = Ok (prefix ++ result).
Proof.
  intros Hwf. induction 1 as [|n p Hp Hdesc (prefix & bound & Hres & Hloop)].
  - exists [], 0. split; [done|]. intros [|fuel] result _; simpl;
      by rewrite decide_True.
  - destruct (decide (n = root)) as [->|Hne].
    { exists [], 0. split; [done|]. intros [|fuel] result _; simpl;
        by rewrite decide_True. }
    pose proof (wf_parent d Hwf n p Hp) as Hin.
    apply list_elem_of_split in Hin as (l1 & l2 & Hcs).
    exists (prefix ++ [length l1]), (S (bound + length l1)). split.
    + rewrite (nodeFromPath_app _ _ _ _ _ Hres). simpl.
      rewrite Hcs. by rewrite list_lookup_middle.
    + intros fuel result Hfuel. destruct fuel as [|fuel]; [lia|].
      simpl. rewrite decide_False by congruence.
      pose proof (countPreviousSiblings_spec d p n l1 l2 (S fuel) 0 Hwf Hcs) as Hc.
      simpl in Hc. rewrite Hc by lia. rewrite Hp.
      rewrite Hloop by lia. by rewrite <- app_assoc.
Qed.

(** C8: the path computed for a node of the tree leads back to that node. *)
Theorem pathToNode_nodeFromPath d root target :
  wf d -> inclusiveDescendant d root target ->
  exists path bound,
    (forall fuel, bound <= fuel -> pathToNode fuel d root target = Ok path) /\
    nodeFromPath d (Some root) path = Ok (Some target).
Proof.
  intros Hwf Hdesc.
  destruct (pathToNodeLoop_spec d root target Hwf Hdesc)
    as (prefix & bound & Hres & Hloop).
  exists prefix, bound. split; [|done].
  intros fuel Hfuel. unfold pathToNode. rewrite Hloop by done.
  by rewrite app_nil_r.
Qed.

(** ** Allocation *)

Section Allocated.
Context (d : Dom) (x : NodeData).

Lemma node_allocated q :
  node (allocated x d) q
  = if decide (nextRef d = q) then Some (mkNode x None []) else node d q.
Proof.
  unfold node, allocated; simpl. rewrite lookup_insert. by case_decide.
Qed.

Lemma payloadOf_allocated q :
  payloadOf (allocated x d) q
  = if decide (nextRef d = q) then Some x else payloadOf d q.
Proof. unfold payloadOf. rewrite node_allocated. by case_decide. Qed.

Lemma live_allocated q :
  live (allocated x d) q = if decide (nextRef d = q) then true else live d q.
Proof. unfold live. rewrite node_allocated. by case_decide. Qed.

Lemma nextRef_allocated : nextRef (allocated x d) = S (nextRef d).
Proof. reflexivity. Qed.

Lemma trace_allocated : trace (allocated x d) = trace d.
Proof. reflexivity. Qed.

Context (Hwf : wf d).

Lemma fresh_not_live : live d (nextRef d) = false.
Proof using Hwf.
  destruct (live d (nextRef d)) eqn:L; [|done].
  apply live_is_Some, (wf_fresh d Hwf) in L. lia.
Qed.

Lemma parentOf_allocated q : parentOf (allocated x d) q = parentOf d q.
Proof using Hwf.
  unfold parentOf. rewrite node_allocated. case_decide; [|done]. subst.
  pose proof fresh_not_live as L. unfold live in L.
  by destruct (node d (nextRef d)).
Qed.

Lemma childrenOf_allocated q : childrenOf (allocated x d) q = childrenOf d q.
Proof using Hwf.
  unfold childrenOf. rewrite node_allocated. case_decide; [|done]. subst.
  pose proof fresh_not_live as L. unfold live in L.
  by destruct (node d (nextRef d)).
Qed.

Lemma wf_allocated : wf (allocated x d).
Proof using Hwf.
  split.
  - intros r p. rewrite parentOf_allocated, childrenOf_allocated. by apply wf_parent.
  - intros p c. rewrite parentOf_allocated, childrenOf_allocated. by apply wf_child.
  - intros p. rewrite childrenOf_allocated. by apply wf_nodup.
  - intros r. rewrite <- live_is_Some, live_allocated, nextRef_allocated.
    case_decide; [lia|]. rewrite live_is_Some. intros ?%(wf_fresh d Hwf). lia.
  - intros p c y. rewrite childrenOf_allocated, payloadOf_allocated.
    intros Hc. case_decide; [|by eapply wf_leaf]. subst.
    apply live_childrenOf in Hc. by rewrite fresh_not_live in Hc.
  - intros r. unfold isFragment. rewrite parentOf_allocated, payloadOf_allocated.
    case_decide; [|by apply wf_fragment]. subst. intros _.
    pose proof fresh_not_live as L. by apply not_live in L as (_ & -> & _).
Qed.
End Allocated.

Lemma insertAt_Permutation r child cs : insertAt r child cs ≡ₚ r :: cs.
Proof. unfold insertAt. by rewrite <- Permutation_middle, take_drop. Qed.

Lemma elem_of_insertAt r child cs q : q ∈ insertAt r child cs <-> q = r \/ q ∈ cs.
Proof. by rewrite insertAt_Permutation, elem_of_cons. Qed.

Lemma insertAt_before r e l1 l2 :
  e ∉ l1 -> insertAt r (Some e) (l1 ++ e :: l2) = l1 ++ r :: e :: l2.
Proof.
  intros Hnot. unfold insertAt. rewrite position_app by done. simpl.
  rewrite take_app_length, drop_app_length. done.
Qed.

Lemma wf_link d r p child x :
  wf d -> parentOf d r = None -> live d r = true -> ~ isFragment d r ->
  payloadOf d p = Some x -> canHaveChildren x = true ->
  wf (link r p child d).
Proof.
  intros Hwf Hnone Hr Hfrag Hp Hcan.
  pose proof (live_payloadOf _ _ _ Hp) as Hlp.
  assert (r ∉ childrenOf d p) as Hnotin.
  { intros Hin. apply (wf_child d Hwf) in Hin. congruence. }
  split.
  - intros q p'. dom_simpl. case_decide as E1.
    + subst q. rewrite Hr. intros [= <-]. rewrite decide_True by done.
      rewrite Hlp. apply elem_of_insertAt. by left.
    + intros Hq. apply (wf_parent d Hwf) in Hq as Hin.
      case_decide; [|done]. subst p'. rewrite Hlp. apply elem_of_insertAt. by right.
  - intros p' c. dom_simpl. case_decide as E1.
    + subst p'. rewrite Hlp. intros [->|Hin]%elem_of_insertAt.
      * rewrite decide_True by done. by rewrite Hr.
      * case_decide; [by subst|]. by apply wf_child.
    + intros Hin. case_decide; [|by apply wf_child].
      subst c. apply (wf_child d Hwf) in Hin. congruence.
  - intros p'. dom_simpl. case_decide; [|by apply wf_nodup].
    subst p'. rewrite Hlp, insertAt_Permutation.
    apply NoDup_cons. split; [done|]. by apply wf_nodup.
  - intros q. rewrite <- live_is_Some. dom_simpl. rewrite live_is_Some.
    by apply wf_fresh.
  - intros p' c y. dom_simpl. case_decide.
    + subst p'. intros _. rewrite Hp. by intros [= <-].
    + by eapply wf_leaf.
  - intros q. unfold isFragment. dom_simpl. intros Hq.
    case_decide; [by subst|]. by apply wf_fragment.
Qed.

Lemma wf_attach d r p child x :
  wf d -> parentOf d r = None -> live d r = true -> ~ isFragment d r ->
  payloadOf d p = Some x -> canHaveChildren x = true ->
  wf (attach r p child d).
Proof.
  intros. unfold attach. destruct (wf_link d r p child x) as [? ? ? ? ? ?]; try done.
Qed.


(** ** The region of a node slot *)

Lemma read_Ok d r : live d r = true -> exists n, node d r = Some n /\ read r d = Ok (n, d).
Proof.
  intros [n Hn]%live_is_Some. exists n. split; [done|]. unfold read. by rewrite Hn.
Qed.

Lemma collectForward_spec d p A n R e post fuel nodes :
  wf d -> childrenOf d p = A ++ n :: R ++ e :: post -> length R <= fuel ->
  collectForward fuel d n (Some e) nodes = Ok (nodes ++ R).
Proof.
  intros Hwf. revert A n fuel nodes.
  induction R as [|x R IH]; intros A n fuel nodes Hcs Hfuel.
  - rewrite app_nil_r. pose proof (sibling_next d Hwf p n A _ Hcs) as Hn.
    simpl in Hn. destruct fuel; simpl; rewrite Hn; by rewrite decide_True.
  - simpl in Hfuel. destruct fuel as [|fuel]; [lia|]. simpl.
    rewrite (sibling_next d Hwf p n A _ Hcs). simpl.
    assert (x <> e) as Hne.
    { pose proof (wf_nodup d Hwf p) as Hnd. rewrite Hcs in Hnd.
      apply NoDup_app in Hnd as (_ & _ & Hnd).
      apply NoDup_cons in Hnd as (_ & Hnd). simpl in Hnd.
      apply NoDup_cons in Hnd as (Hnd & _). intros ->. apply Hnd.
      apply elem_of_app. right. by left. }
    rewrite decide_False by congruence.
    rewrite (IH (A ++ [n]) x fuel (nodes ++ [x])); [by rewrite <- app_assoc| |lia].
    by rewrite <- app_assoc.
Qed.

Lemma collectBackward_spec d p R n rest fuel nodes :
  wf d -> childrenOf d p = R ++ n :: rest -> length R <= fuel ->
  collectBackward fuel d n nodes = Ok (R ++ nodes).
Proof.
  intros Hwf. revert n rest fuel nodes.
  induction R as [|x R IH] using rev_ind; intros n rest fuel nodes Hcs Hfuel.
  - pose proof (sibling_previous d Hwf p n [] _ Hcs) as Hn. simpl in Hn.
    destruct fuel; simpl; by rewrite Hn.
  - rewrite length_app in Hfuel. simpl in Hfuel.
    destruct fuel as [|fuel]; [lia|]. simpl.
    rewrite (sibling_previous d Hwf p n _ _ Hcs), last_snoc.
    rewrite <- app_assoc in Hcs. simpl in Hcs.
    rewrite (IH x (n :: rest) fuel (x :: nodes) Hcs) by lia.
    by rewrite <- app_assoc.
Qed.

Lemma collectChildNodes_spec d slot region fuel :
  wf d -> anchored d slot region -> length region <= fuel ->
  collectChildNodes fuel (startAfter slot) (endBefore slot) d = Ok (region, d).
Proof.
  intros Hwf (e & p & pre & post & He & Hcs & Hpre) Hfuel.
  unfold collectChildNodes. rewrite He.
  destruct (startAfter slot) as [s|].
  - destruct Hpre as [pre' ->]. rewrite <- app_assoc in Hcs. simpl in Hcs.
    assert (live d s = true) as Hs.
    { eapply wf_child_live; [done|]. rewrite Hcs. apply elem_of_app. right. by left. }
    apply read_Ok in Hs as (n & _ & Hread).
    unfold bind, get. rewrite Hread.
    by rewrite (collectForward_spec d p pre' s region e post fuel [] Hwf Hcs Hfuel).
  - subst pre. simpl in Hcs.
    assert (live d e = true) as Hs.
    { eapply wf_child_live; [done|]. rewrite Hcs. apply elem_of_app. right. by left. }
    apply read_Ok in Hs as (n & _ & Hread).
    unfold bind, get. rewrite Hread.
    rewrite (collectBackward_spec d p region e post fuel [] Hwf Hcs Hfuel).
    by rewrite app_nil_r.
Qed.

(** ** Removing the stale nodes *)

Lemma live_detachAll l d q : live (detachAll l d) q = live d q.
Proof.
  revert d. induction l as [|x l IH]; intros d; simpl; [done|].
  unfold detachAll in *. simpl. rewrite IH. by dom_simpl.
Qed.

Lemma wf_detachAll l d : wf d -> wf (detachAll l d).
Proof.
  revert d. induction l as [|x l IH]; intros d Hwf; simpl; [done|].
  apply IH. by apply wf_detach.
Qed.

Lemma payloadOf_detachAll l d q : payloadOf (detachAll l d) q = payloadOf d q.
Proof.
  revert d. induction l as [|x l IH]; intros d; simpl; [done|].
  unfold detachAll in *. simpl. rewrite IH. by dom_simpl.
Qed.

Lemma parentOf_detachAll l d q :
  parentOf (detachAll l d) q = if decide (q ∈ l) then None else parentOf d q.
Proof.
  revert d. induction l as [|x l IH]; intros d.
  - rewrite decide_False; [done|]. apply not_elem_of_nil.
  - unfold detachAll in *. simpl. rewrite IH. dom_simpl.
    repeat case_decide; try done; exfalso;
      repeat match goal with H : _ ∈ _ :: _ |- _ => apply elem_of_cons in H end;
      repeat match goal with H : ¬ _ ∈ _ :: _ |- _ => apply not_elem_of_cons in H end;
      naive_solver.
Qed.

Lemma removeOthers_spec current keep d :
  (forall n, n ∈ current -> live d n = true) ->
  removeOthers current keep d
  = Ok (tt, detachAll (filter (fun n => Some n <> keep) current) d).
Proof.
  revert d. induction current as [|n current IH]; intros d Hlive; simpl; [done|].
  assert (forall m, m ∈ current -> live (detach n d) m = true) as Hlive'.
  { intros m Hm. dom_simpl. apply Hlive. by right. }
  unfold bind at 1. case_decide as Hk.
  - simpl. rewrite filter_cons_False by (intros ?; congruence).
    apply IH. intros m Hm. apply Hlive. by right.
  - rewrite filter_cons_True by done. unfold remove, bind, modify.
    destruct (read_Ok d n) as (x & _ & ->); [apply Hlive; by left|].
    simpl. by apply IH.
Qed.

Lemma filter_id_not_elem (x : NodeRef) (l : list NodeRef) :
  x ∉ l -> filter (fun y => y <> x) l = l.
Proof.
  induction l as [|y l IH]; [done|]. intros [Hne Hnot]%not_elem_of_cons.
  rewrite filter_cons_True by done. by rewrite IH.
Qed.

Lemma childrenOf_detach_wf d x q :
  wf d -> childrenOf (detach x d) q = filter (fun y => y <> x) (childrenOf d q).
Proof.
  intros Hwf. dom_simpl. case_decide as Hp; [done|].
  rewrite filter_id_not_elem; [done|].
  intros Hin. by apply (wf_child d Hwf) in Hin.
Qed.

Lemma childrenOf_detachAll d l q :
  wf d -> childrenOf (detachAll l d) q = filter (fun y => y ∉ l) (childrenOf d q).
Proof.
  revert d. induction l as [|x l IH]; intros d Hwf.
  - simpl. induction (childrenOf d q) as [|y cs IHcs]; [done|].
    rewrite filter_cons_True by apply not_elem_of_nil. by rewrite <- IHcs.
  - unfold detachAll in *. simpl. rewrite IH by by apply wf_detach.
    rewrite childrenOf_detach_wf by done.
    induction (childrenOf d q) as [|y cs IHcs]; [done|].
    destruct (decide (y = x)) as [->|Hne].
    + rewrite filter_cons_False by (intros ?; congruence).
      rewrite (filter_cons_False _ x) by (intros H; apply H; by left). done.
    + rewrite (filter_cons_True (fun y => y <> x)) by done.
      destruct (decide (y ∈ l)).
      * rewrite !filter_cons_False; [done| |]; intros H; apply H; [by right|done].
      * rewrite !filter_cons_True; [by rewrite IHcs| |done].
        by intros [?|?]%elem_of_cons.
Qed.

Lemma trace_detach d x p :
  parentOf d x = Some p -> trace (detach x d) = trace d ++ [ChildRemoved p x].
Proof. intros Hp. unfold detach. by rewrite Hp. Qed.

Lemma trace_detachAll d l p :
  NoDup l -> (forall x, x ∈ l -> parentOf d x = Some p) ->
  trace (detachAll l d) = trace d ++ map (ChildRemoved p) l.
Proof.
  revert d. induction l as [|x l IH]; intros d Hnd Hp; simpl.
  - by rewrite app_nil_r.
  - apply NoDup_cons in Hnd as [Hx Hnd]. unfold detachAll in *. simpl.
    rewrite IH; [|done|].
    + rewrite (trace_detach d x p) by (apply Hp; by left).
      by rewrite <- app_assoc.
    + intros y Hy. dom_simpl. case_decide; [by subst|]. apply Hp. by right.
Qed.

(** ** Moving a node in front of the "after" boundary *)

Section MoveBefore.
Context (d : Dom) (Hwf : wf d).
Context (x p e : NodeRef) (A B : list NodeRef).
Context (Hcs : childrenOf d p = A ++ e :: B).
Context (Hne : x <> e) (Hlive : live d x = true) (Hfrag : ~ isFragment d x).

Lemma moveBefore_parent_payload :
  exists y, payloadOf d p = Some y /\ canHaveChildren y = true.
Proof using Hwf Hcs.
  assert (e ∈ childrenOf d p) as Hin.
  { rewrite Hcs. apply elem_of_app. right. by left. }
  destruct (payloadOf_live d p) as [y Hy]; [by eapply live_childrenOf|].
  exists y. split; [done|]. by eapply wf_leaf.
Qed.

Lemma wf_moveBefore : wf (moveBefore x p e d).
Proof using All.
  destruct moveBefore_parent_payload as (y & Hy & Hcan).
  unfold moveBefore. eapply wf_attach; dom_simpl; eauto.
  - by apply wf_detach.
  - by rewrite decide_True.
  - unfold isFragment. by dom_simpl.
Qed.

Lemma childrenOf_moveBefore :
  childrenOf (moveBefore x p e d) p
  = filter (fun y => y <> x) A ++ x :: e :: filter (fun y => y <> x) B.
Proof using All.
  unfold moveBefore. rewrite childrenOf_attach, decide_True by done.
  rewrite live_detach, (live_childrenOf d p e)
    by (rewrite Hcs; apply elem_of_app; right; by left).
  rewrite childrenOf_detach_wf, Hcs by done.
  rewrite filter_app, filter_cons_True by done.
  apply insertAt_before.
  intros [_ Hin]%list_elem_of_filter.
  eapply NoDup_app_cons_l; [|exact Hin]. rewrite <- Hcs. by apply wf_nodup.
Qed.

Lemma childrenOf_moveBefore_ne q :
  q <> p -> childrenOf (moveBefore x p e d) q
            = filter (fun y => y <> x) (childrenOf d q).
Proof using Hwf.
  intros Hq. unfold moveBefore. rewrite childrenOf_attach, decide_False by done.
  by apply childrenOf_detach_wf.
Qed.

Lemma parentOf_moveBefore q :
  parentOf (moveBefore x p e d) q = if decide (x = q) then Some p else parentOf d q.
Proof using Hlive.
  unfold moveBefore. rewrite parentOf_attach, parentOf_detach, live_detach.
  case_decide as E; [|done]. rewrite <- E. by rewrite Hlive.
Qed.

Lemma payloadOf_moveBefore q : payloadOf (moveBefore x p e d) q = payloadOf d q.
Proof using Type. unfold moveBefore. by rewrite payloadOf_attach, payloadOf_detach. Qed.

Lemma live_moveBefore q : live (moveBefore x p e d) q = live d q.
Proof using Type. unfold moveBefore. by rewrite live_attach, live_detach. Qed.
End MoveBefore.

(** ** [before] *)

Lemma viable_child d p A e B r :
  wf d -> childrenOf d p = A ++ e :: B -> last A <> Some r ->
  match last (filter (fun x => x <> r) A) with
  | None => firstChild d p
  | Some v => nextSibling d v
  end = Some e.
Proof.
  intros Hwf Hcs Hlast. destruct A as [|m A _] using rev_ind.
  - simpl. unfold firstChild. by rewrite Hcs.
  - rewrite last_snoc in Hlast.
    rewrite filter_app, filter_cons_True, filter_nil, last_snoc by congruence.
    rewrite <- app_assoc in Hcs. simpl in Hcs.
    by rewrite (sibling_next d Hwf p m A _ Hcs).
Qed.

Lemma before_spec d p A e B r :
  wf d -> childrenOf d p = A ++ e :: B -> r <> e -> last A <> Some r ->
  live d r = true -> isInclusiveAncestor d r p = false ->
  before e r d = Ok (tt, moveAllBefore (insertedNodes d r) p e d).
Proof.
  intros Hwf Hcs Hne Hlast Hlive Hanc.
  unfold before, bind at 1, get.
  rewrite (sibling_index d Hwf p e A B Hcs). cbv beta iota.
  replace (take (length A) (childrenOf d p)) with A
    by (by rewrite Hcs, take_app_length).
  rewrite (viable_child d p A e B r Hwf Hcs Hlast).
  destruct (moveBefore_parent_payload d Hwf p e A B Hcs) as (y & Hy & Hcan).
  unfold preInsert, bind at 1.
  destruct (read_Ok d p) as (pn & Hpn & ->); [by eapply live_payloadOf|].
  unfold bind at 1, get.
  assert (payload pn = y) as ->.
  { unfold payloadOf in Hy. rewrite Hpn in Hy. by injection Hy. }
  rewrite Hcan, Hanc. simpl. rewrite decide_False by congruence.
  unfold insert, bind.
  destruct (read_Ok d r) as (rn & Hrn & ->); [done|].
  unfold modify, insertedNodes, payloadOf, childrenOf. rewrite Hrn. simpl.
  by destruct (payload rn).
Qed.

Lemma isInclusiveAncestorFuel_childless d a n fuel :
  wf d -> childrenOf d a = [] -> a <> n ->
  isInclusiveAncestorFuel fuel d a n = false.
Proof.
  intros Hwf Ha. revert n. induction fuel as [|fuel IH]; intros n Hne; simpl;
    rewrite decide_False by done; [done|].
  destruct (parentOf d n) as [p|] eqn:Hp; [|done].
  apply IH. intros ->. apply (wf_parent d Hwf) in Hp. rewrite Ha in Hp.
  by apply elem_of_nil in Hp.
Qed.

(** ** Keeping part of a region *)

Lemma filter_all {A} (P : A -> Prop) `{!forall x, Decision (P x)} (l : list A) :
  (forall y, y ∈ l -> P y) -> filter P l = l.
Proof.
  induction l as [|y l IH]; intros Hl; [done|].
  rewrite filter_cons_True by (apply Hl; by left).
  rewrite IH; [done|]. intros z Hz. apply Hl. by right.
Qed.

Lemma filter_none {A} (P : A -> Prop) `{!forall x, Decision (P x)} (l : list A) :
  (forall y, y ∈ l -> ~ P y) -> filter P l = [].
Proof.
  induction l as [|y l IH]; intros Hl; [done|].
  rewrite filter_cons_False by (apply Hl; by left).
  apply IH. intros z Hz. apply Hl. by right.
Qed.

Lemma filter_out_region (pre region post removed : list NodeRef) e :
  NoDup (pre ++ region ++ e :: post) ->
  (forall x, x ∈ removed -> x ∈ region) ->
  filter (fun y => y ∉ removed) (pre ++ region ++ e :: post)
  = pre ++ filter (fun y => y ∉ removed) region ++ e :: post.
Proof.
  intros Hnd Hsub.
  apply NoDup_app in Hnd as (_ & Hpre & Hnd).
  apply NoDup_app in Hnd as (_ & Hrest & _).
  rewrite !filter_app. f_equal; [|f_equal].
  - apply filter_all. intros y Hy Hin. apply (Hpre y Hy).
    apply elem_of_app. left. by apply Hsub.
  - apply filter_all. intros y Hy Hin. apply (Hrest y); [by apply Hsub|done].
Qed.

Lemma filter_keep_one (region : list NodeRef) t :
  NoDup region -> t ∈ region ->
  filter (fun y => y ∉ filter (fun n => Some n <> Some t) region) region = [t].
Proof.
  intros Hnd Hin. apply list_elem_of_split in Hin as (l1 & l2 & ->).
  pose proof (NoDup_app_cons_l _ _ _ Hnd) as H1.
  pose proof (NoDup_app_cons_r _ _ _ Hnd) as H2.
  assert (filter (fun n => Some n <> Some t) (l1 ++ t :: l2) = l1 ++ l2) as ->.
  { rewrite filter_app, filter_cons_False by (intros H; by apply H).
    rewrite !filter_all; [done| |]; intros y Hy [= ->]; done. }
  rewrite filter_app, filter_cons_True.
  - rewrite !filter_none; [done| |]; intros y Hy Hn; apply Hn;
      apply elem_of_app; [by right|by left].
  - by intros [?|?]%elem_of_app.
Qed.

Lemma filter_keep_appended (region nodes : list NodeRef) :
  (forall x, x ∈ nodes -> x ∉ region) ->
  filter (fun y => y ∉ region) (region ++ nodes) = nodes.
Proof.
  intros Hdis. rewrite filter_app, filter_none, filter_all; [done| |].
  - intros y Hy. by apply Hdis.
  - intros y Hy Hn. by apply Hn.
Qed.

Lemma anchoredAt_detachAll d slot region e p pre post removed :
  wf d -> anchoredAt d slot region e p pre post ->
  (forall x, x ∈ removed -> x ∈ region) ->
  anchoredAt (detachAll removed d) slot
    (filter (fun y => y ∉ removed) region) e p pre post.
Proof.
  intros Hwf (He & Hcs & Hpre) Hsub. split; [done|]. split; [|done].
  rewrite childrenOf_detachAll, Hcs by done.
  apply filter_out_region; [|done]. rewrite <- Hcs. by apply wf_nodup.
Qed.

Section Anchored.
Context (d : Dom) (Hwf : wf d) (slot : NodeSlot) (region : list NodeRef).
Context (Hanch : anchored d slot region).

Lemma anchored_live n : n ∈ region -> live d n = true.
Proof using Hwf Hanch.
  destruct Hanch as (e & p & pre & post & He & Hcs & Hpre). intros Hn.
  eapply wf_child_live; [done|]. rewrite Hcs.
  apply elem_of_app. right. apply elem_of_app. by left.
Qed.

Lemma anchored_NoDup : NoDup region.
Proof using Hwf Hanch.
  destruct Hanch as (e & p & pre & post & He & Hcs & Hpre).
  pose proof (wf_nodup d Hwf p) as Hnd. rewrite Hcs in Hnd.
  apply NoDup_app in Hnd as (_ & _ & Hnd). by apply NoDup_app in Hnd as (? & _).
Qed.

Lemma anchored_detachAll removed :
  (forall x, x ∈ removed -> x ∈ region) ->
  anchored (detachAll removed d) slot (filter (fun y => y ∉ removed) region).
Proof using Hwf Hanch.
  destruct Hanch as (e & p & pre & post & Hat). intros Hsub.
  exists e, p, pre, post. by apply anchoredAt_detachAll.
Qed.
End Anchored.

Lemma wf_emit d ev : wf d -> wf (emit ev d).
Proof. intros [? ? ? ? ? ?]. by split. Qed.

Lemma wf_setPayload d r x x0 :
  wf d -> payloadOf d r = Some x0 ->
  canHaveChildren x0 = canHaveChildren x ->
  (x = DocumentFragment -> x0 = DocumentFragment) ->
  wf (setPayload r x d).
Proof.
  intros Hwf Hr Hcan Hfrag. split.
  - intros q p. dom_simpl. by apply wf_parent.
  - intros p c. dom_simpl. by apply wf_child.
  - intros p. dom_simpl. by apply wf_nodup.
  - intros q. rewrite <- live_is_Some. dom_simpl. rewrite live_is_Some.
    by apply wf_fresh.
  - intros p c y. dom_simpl. intros Hc. case_decide; [|by eapply wf_leaf].
    subst. rewrite (live_payloadOf _ _ _ Hr). intros [= <-]. rewrite <- Hcan.
    by eapply wf_leaf.
  - intros q. unfold isFragment. dom_simpl. case_decide; [|by apply wf_fragment].
    subst. rewrite (live_payloadOf _ _ _ Hr). intros [= Hx].
    apply Hfrag in Hx. subst. by apply wf_fragment.
Qed.

Lemma anchored_ext d d' slot region :
  (forall q, childrenOf d' q = childrenOf d q) ->
  anchored d slot region -> anchored d' slot region.
Proof.
  intros Hext (e & p & pre & post & He & Hcs & Hpre).
  exists e, p, pre, post. unfold anchoredAt. by rewrite Hext.
Qed.

Lemma isText_payloadOf d t : isText d t = true -> exists s, payloadOf d t = Some (Text s).
Proof.
  unfold isText, payloadOf. destruct (node d t) as [[[] ? ?]|]; try done.
  intros _. by eexists.
Qed.

Lemma setData_Text d t s0 s :
  payloadOf d t = Some (Text s0) ->
  setData t s d = Ok (tt, emit (CharacterData t s) (setPayload t (Text s) d)).
Proof.
  intros Hp. unfold setData, bind.
  destruct (read_Ok d t) as (n & Hn & ->); [by eapply live_payloadOf|].
  unfold payloadOf in Hp. rewrite Hn in Hp. injection Hp as ->. done.
Qed.

(** ** The update rule on a node slot: strings *)

Lemma find_isText_Some d region t :
  List.find (isText d) region = Some t ->
  t ∈ region /\ exists s0, payloadOf d t = Some (Text s0).
Proof.
  intros [Hin Ht]%List.find_some. split; [by apply list_elem_of_In|].
  by apply isText_payloadOf.
Qed.

Section UpdateString.
Context (fuel : nat) (d : Dom) (slot : NodeSlot) (region : list NodeRef).
Context (s : JSString).
Context (Hwf : wf d) (Hanch : anchored d slot region).
Context (Hfuel : length region <= fuel).

Lemma updateNodeSlot_reuse t :
  List.find (isText d) region = Some t ->
  updateNodeSlot fuel slot (ArgString s) d = Ok (tt, textReused t s region d).
Proof using All.
  intros Hfind. destruct (find_isText_Some _ _ _ Hfind) as (Hin & s0 & Ht).
  unfold updateNodeSlot.
  rewrite (bind_Ok _ _ _ _ _ (collectChildNodes_spec d slot region fuel Hwf Hanch Hfuel)).
  unfold bind at 1, get. rewrite Hfind.
  rewrite (bind_Ok _ _ _ _ _ (setData_Text d t s0 s Ht)).
  apply removeOthers_spec. intros n Hn. dom_simpl. by eapply anchored_live.
Qed.

Lemma wf_textReused t s0 :
  payloadOf d t = Some (Text s0) -> wf (textReused t s region d).
Proof using Hwf.
  intros Ht. apply wf_detachAll, wf_emit. by eapply wf_setPayload.
Qed.

Lemma anchored_textReused t s0 :
  t ∈ region -> payloadOf d t = Some (Text s0) ->
  anchored (textReused t s region d) slot [t].
Proof using Hwf Hanch.
  intros Hin Ht. unfold textReused.
  rewrite <- (filter_keep_one region t); [|by eapply anchored_NoDup|done].
  apply anchored_detachAll.
  - apply wf_emit. by eapply wf_setPayload.
  - eapply anchored_ext; [|exact Hanch]. intros q. by dom_simpl.
  - by intros x [_ ?]%list_elem_of_filter.
Qed.

Lemma payloadOf_textReused t s0 :
  payloadOf d t = Some (Text s0) ->
  payloadOf (textReused t s region d) t = Some (Text s).
Proof using Type.
  intros Ht. unfold textReused. rewrite payloadOf_detachAll. dom_simpl.
  rewrite decide_True by done. by rewrite (live_payloadOf _ _ _ Ht).
Qed.
End UpdateString.

(** ** Moving several nodes in front of the boundary *)

Lemma additions_app l1 l2 : additions (l1 ++ l2) = additions l1 ++ additions l2.
Proof. apply omap_app. Qed.

Lemma removals_app l1 l2 : removals (l1 ++ l2) = removals l1 ++ removals l2.
Proof. apply omap_app. Qed.

Lemma additions_detach d x : additions (trace (detach x d)) = additions (trace d).
Proof.
  unfold detach. destruct (parentOf d x); [|done]. simpl.
  rewrite additions_app. simpl. by rewrite app_nil_r.
Qed.

Lemma additions_detachAll d l : additions (trace (detachAll l d)) = additions (trace d).
Proof.
  revert d. induction l as [|x l IH]; intros d; [done|].
  unfold detachAll in *. simpl. by rewrite IH, additions_detach.
Qed.

Lemma additions_moveBefore d x p e :
  additions (trace (moveBefore x p e d)) = additions (trace d) ++ [(p, x)].
Proof.
  unfold moveBefore, attach. simpl. rewrite additions_app, additions_detach. done.
Qed.

Lemma anchoredAt_moveBefore d slot region e p pre post x :
  wf d -> anchoredAt d slot region e p pre post ->
  x <> e -> live d x = true -> ~ isFragment d x -> x ∉ region ->
  Some x <> startAfter slot ->
  anchoredAt (moveBefore x p e d) slot (region ++ [x]) e p
    (filter (fun y => y <> x) pre) (filter (fun y => y <> x) post).
Proof.
  intros Hwf (He & Hcs & Hpre) Hne Hlive Hfrag Hreg Hs.
  split; [done|]. split.
  - rewrite app_assoc in Hcs.
    rewrite (childrenOf_moveBefore d Hwf x p e _ _ Hcs Hne Hlive Hfrag).
    rewrite filter_app, (filter_all _ region); [by rewrite <- !app_assoc|].
    intros y Hy ->. done.
  - destruct (startAfter slot) as [s|]; [|by subst].
    destruct Hpre as [pre' ->]. exists (filter (fun y => y <> x) pre').
    rewrite filter_app, filter_cons_True, filter_nil; [done|congruence].
Qed.

Lemma moveEach_spec slot e p nodes :
  forall d region pre post,
    wf d -> anchoredAt d slot region e p pre post -> NoDup nodes ->
    (forall x, x ∈ nodes ->
       x <> e /\ live d x = true /\ ~ isFragment d x /\ (x ∉ region) /\
       Some x <> startAfter slot) ->
    let d' := foldl (fun d x => moveBefore x p e d) d nodes in
    (wf d' /\
     (exists pre' post', anchoredAt d' slot (region ++ nodes) e p pre' post') /\
     (forall q, payloadOf d' q = payloadOf d q) /\
     (forall q, live d' q = live d q) /\
     (forall q, parentOf d' q
                = if decide (q ∈ nodes) then Some p else parentOf d q) /\
     additions (trace d') = additions (trace d) ++ map (pair p) nodes).
Proof.
  induction nodes as [|x nodes IH]; intros d region pre post Hwf Hat Hnd Hall.
  - cbn [foldl map]. rewrite !app_nil_r.
    split_and!; eauto.
  - cbn zeta. apply NoDup_cons in Hnd as [Hx Hnd].
    destruct (Hall x) as (Hne & Hlive & Hfrag & Hreg & Hs); [by left|].
    pose proof Hat as (He & Hcs & Hpre). rewrite app_assoc in Hcs.
    pose proof (wf_moveBefore d Hwf x p e _ _ Hcs Hne Hlive Hfrag) as Hwf1.
    pose proof (anchoredAt_moveBefore d slot region e p pre post x
                  Hwf Hat Hne Hlive Hfrag Hreg Hs) as Hat1.
    destruct (IH (moveBefore x p e d) (region ++ [x]) _ _ Hwf1 Hat1 Hnd)
      as (Hwf' & (pre' & post' & Hat') & Hpay & Hlv & Hpar & Hadd).
    { intros y Hy. destruct (Hall y) as (? & ? & ? & ? & ?); [by right|].
      unfold isFragment. rewrite payloadOf_moveBefore, live_moveBefore.
      split_and!; try done.
      intros [?|Hyx]%elem_of_app; [done|].
      apply list_elem_of_singleton in Hyx. by subst. }
    simpl. split_and!.
    + done.
    + exists pre', post'. by rewrite <- app_assoc in Hat'.
    + intros q. by rewrite Hpay, payloadOf_moveBefore.
    + intros q. by rewrite Hlv, live_moveBefore.
    + intros q. rewrite Hpar, (parentOf_moveBefore d x p e Hlive).
      repeat case_decide; try done; subst; exfalso;
        repeat match goal with
               | H : _ ∈ _ :: _ |- _ => apply elem_of_cons in H
               | H : ¬ _ ∈ _ :: _ |- _ => apply not_elem_of_cons in H
               end; naive_solver.
    + rewrite Hadd, additions_moveBefore, <- app_assoc. done.
Qed.

Lemma detach_parentless d x : parentOf d x = None -> detach x d = d.
Proof. intros H. unfold detach. by rewrite H. Qed.

(** Nodes that are in no tree go in as if each were moved in turn. *)
Lemma attachAll_parentless p e nodes :
  forall d, NoDup nodes -> (forall x, x ∈ nodes -> parentOf d x = None) ->
    foldl (fun d x => attach x p (Some e) d) d nodes
    = foldl (fun d x => moveBefore x p e d) d nodes.
Proof.
  induction nodes as [|x nodes IH]; intros d Hnd Hnone; [done|].
  apply NoDup_cons in Hnd as [Hx Hnd]. cbn [foldl]. unfold moveBefore at 2.
  rewrite (detach_parentless d x) by (apply Hnone; by left).
  apply IH; [done|]. intros y Hy. rewrite parentOf_attach.
  rewrite decide_False by (intros ->; done). apply Hnone. by right.
Qed.

Lemma anchoredAt_detached d slot region e p pre post nodes :
  wf d -> anchoredAt d slot region e p pre post ->
  (forall x, x ∈ nodes -> x <> e /\ (x ∉ region) /\ Some x <> startAfter slot) ->
  anchoredAt (detachAll nodes d) slot region e p
    (filter (fun y => y ∉ nodes) pre) (filter (fun y => y ∉ nodes) post).
Proof.
  intros Hwf (He & Hcs & Hpre) Hall. split; [done|]. split.
  - rewrite childrenOf_detachAll, Hcs by done.
    rewrite !filter_app, filter_cons_True by (intros Hin; by destruct (Hall e Hin)).
    rewrite (filter_all _ region); [done|].
    intros y Hy Hin. by destruct (Hall y Hin) as (_ & ? & _).
  - destruct (startAfter slot) as [s|]; [|by subst].
    destruct Hpre as [pre' ->]. exists (filter (fun y => y ∉ nodes) pre').
    rewrite filter_app, filter_cons_True, filter_nil; [done|].
    intros Hin. by destruct (Hall s Hin) as (_ & _ & ?).
Qed.

Lemma moveAllBefore_spec slot e p nodes :
  forall d region pre post,
    wf d -> anchoredAt d slot region e p pre post -> NoDup nodes ->
    (forall x, x ∈ nodes ->
       x <> e /\ live d x = true /\ ~ isFragment d x /\ (x ∉ region) /\
       Some x <> startAfter slot) ->
    let d' := moveAllBefore nodes p e d in
    (wf d' /\
     (exists pre' post', anchoredAt d' slot (region ++ nodes) e p pre' post') /\
     (forall q, payloadOf d' q = payloadOf d q) /\
     (forall q, live d' q = live d q) /\
     (forall q, parentOf d' q
                = if decide (q ∈ nodes) then Some p else parentOf d q) /\
     additions (trace d') = additions (trace d) ++ map (pair p) nodes).
Proof.
  intros d region pre post Hwf Hat Hnd Hall. cbn zeta.
  pose proof (wf_detachAll nodes d Hwf) as Hwf0.
  assert (anchoredAt (detachAll nodes d) slot region e p
            (filter (fun y => y ∉ nodes) pre) (filter (fun y => y ∉ nodes) post))
    as Hat0.
  { apply anchoredAt_detached; [done|done|].
    intros x Hx. by destruct (Hall x Hx) as (? & _ & _ & ? & ?). }
  unfold moveAllBefore. rewrite attachAll_parentless; [|done|].
  2:{ intros x Hx. rewrite parentOf_detachAll. by rewrite decide_True. }
  destruct (moveEach_spec slot e p nodes (detachAll nodes d) region _ _
              Hwf0 Hat0 Hnd)
    as (Hwf' & Hat' & Hpay & Hlv & Hpar & Hadd).
  { intros x Hx. destruct (Hall x Hx) as (? & ? & ? & ? & ?).
    unfold isFragment. rewrite live_detachAll, payloadOf_detachAll. done. }
  split_and!.
  - done.
  - done.
  - intros q. by rewrite Hpay, payloadOf_detachAll.
  - intros q. by rewrite Hlv, live_detachAll.
  - intros q. rewrite Hpar, parentOf_detachAll. by repeat case_decide.
  - by rewrite Hadd, additions_detachAll.
Qed.

(** What observers see of nodes that come from one parent: all of them
    leave it, then all of them go in. *)
Lemma trace_moveAllBefore d nodes p e from :
  NoDup nodes -> (forall x, x ∈ nodes -> parentOf d x = Some from) ->
  trace (moveAllBefore nodes p e d)
  = trace d ++ map (ChildRemoved from) nodes ++ map (ChildAdded p) nodes.
Proof.
  intros Hnd Hfrom. unfold moveAllBefore.
  rewrite app_assoc, <- (trace_detachAll d nodes from Hnd Hfrom).
  generalize (detachAll nodes d). clear. induction nodes as [|x nodes IH];
    intros d0; cbn [foldl map]; [by rewrite app_nil_r|].
  rewrite IH. unfold attach. simpl. by rewrite <- app_assoc.
Qed.

(** ** Inserting at a node slot, then dropping what was there *)

Lemma isInclusiveAncestor_ne d a n : isInclusiveAncestor d a n = false -> a <> n.
Proof.
  unfold isInclusiveAncestor. destruct (size (heap d)); simpl;
    by case_decide.
Qed.

Section InsertAtSlot.
Context (d : Dom) (slot : NodeSlot) (region pre post : list NodeRef) (e p : NodeRef).
Context (Hwf : wf d) (Hat : anchoredAt d slot region e p pre post).
Context (r : NodeRef) (Hins : insertable d slot p r) (Hreg : r ∉ region).

Lemma insertBeforeEnd_spec :
  insertBeforeEnd slot r d = Ok (tt, moveAllBefore (insertedNodes d r) p e d).
Proof using All.
  destruct Hat as (He & Hcs & Hpre). destruct Hins as (Hlive & Hs & Hne & Hanc).
  unfold insertBeforeEnd. rewrite He in *. rewrite app_assoc in Hcs.
  apply (before_spec d p _ e post r Hwf Hcs); [congruence| |done|done].
  destruct region as [|x region' _] using rev_ind.
  - rewrite app_nil_r. destruct (startAfter slot) as [s|].
    + destruct Hpre as [pre' ->]. rewrite last_snoc. congruence.
    + by subst pre.
  - rewrite app_assoc, last_snoc. intros [= ->]. apply Hreg.
    apply elem_of_app. right. by left.
Qed.

Lemma insertedNodes_ok x :
  x ∈ insertedNodes d r ->
  x <> e /\ live d x = true /\ ~ isFragment d x /\ (x ∉ region) /\
  Some x <> startAfter slot.
Proof using All.
  destruct Hat as (He & Hcs & Hpre). destruct Hins as (Hlive & Hs & Hne & Hanc).
  rewrite He in Hne. unfold insertedNodes.
  assert (forall y, y ∈ pre ++ region ++ e :: post -> parentOf d y = Some p)
    as Hsib.
  { intros y Hy. apply (wf_child d Hwf). by rewrite Hcs. }
  assert (forall y, y ∈ childrenOf d r -> y ∉ pre ++ region ++ e :: post)
    as Hkids.
  { intros y Hy Hin. apply Hsib in Hin. apply (wf_child d Hwf) in Hy.
    apply isInclusiveAncestor_ne in Hanc. congruence. }
  assert (forall y, y ∈ childrenOf d r ->
            y <> e /\ live d y = true /\ ~ isFragment d y /\ (y ∉ region) /\
            Some y <> startAfter slot) as Hfragcase.
  { intros y Hy. pose proof (Hkids y Hy) as Hout. split_and!.
    - intros ->. apply Hout. apply elem_of_app. right. apply elem_of_app.
      right. by left.
    - by eapply wf_child_live.
    - intros Hf%(wf_fragment d Hwf). apply (wf_child d Hwf) in Hy. congruence.
    - intros Hin. apply Hout. apply elem_of_app. right. apply elem_of_app. by left.
    - destruct (startAfter slot) as [s|]; [|done]. destruct Hpre as [pre' ->].
      intros [= ->]. apply Hout. apply elem_of_app. left. apply elem_of_app.
      right. by left. }
  destruct (payloadOf d r) as [[]|] eqn:Hpay; try apply Hfragcase;
    intros ->%list_elem_of_singleton; split_and!; try done;
    try congruence; unfold isFragment; congruence.
Qed.

Lemma NoDup_insertedNodes : NoDup (insertedNodes d r).
Proof using Hwf.
  unfold insertedNodes.
  destruct (payloadOf d r) as [[]|]; try apply NoDup_singleton.
  by apply wf_nodup.
Qed.

Lemma applied_spec :
  let nodes := insertedNodes d r in
  let d' := applied nodes region p e d in
  (wf d' /\ (exists pre' post', anchoredAt d' slot nodes e p pre' post') /\
   (forall q, payloadOf d' q = payloadOf d q) /\
   (forall q, live d' q = live d q) /\
   (forall q, parentOf d' q
              = if decide (q ∈ region) then None
                else if decide (q ∈ nodes) then Some p else parentOf d q) /\
   additions (trace d') = additions (trace d) ++ map (pair p) nodes).
Proof using All.
  cbn zeta.
  destruct (moveAllBefore_spec slot e p (insertedNodes d r) d region pre post
              Hwf Hat NoDup_insertedNodes insertedNodes_ok)
    as (Hwf' & (pre' & post' & Hat') & Hpay & Hlv & Hpar & Hadd).
  unfold applied. split_and!.
  - by apply wf_detachAll.
  - exists pre', post'.
    pose proof (anchoredAt_detachAll _ slot _ e p pre' post' region Hwf' Hat')
      as Hdet.
    rewrite filter_keep_appended in Hdet.
    + apply Hdet. intros x Hx. apply elem_of_app. by left.
    + intros x Hx. by apply insertedNodes_ok.
  - intros q. by rewrite payloadOf_detachAll.
  - intros q. by rewrite live_detachAll.
  - intros q. by rewrite parentOf_detachAll, Hpar.
  - by rewrite additions_detachAll.
Qed.
End InsertAtSlot.

(** ** The update rule on a node slot *)

Lemma find_isText_None d region :
  List.find (isText d) region = None ->
  forall n, n ∈ region -> isText d n = false.
Proof.
  intros Hfind n Hn. apply list_elem_of_In in Hn.
  by apply (List.find_none _ _ Hfind).
Qed.

Lemma insertedNodes_Text d r s : payloadOf d r = Some (Text s) -> insertedNodes d r = [r].
Proof. unfold insertedNodes. by intros ->. Qed.

Section UpdateNodeSlot.
Context (fuel : nat) (d : Dom) (slot : NodeSlot).
Context (region pre post : list NodeRef) (e p : NodeRef).
Context (Hwf : wf d) (Hat : anchoredAt d slot region e p pre post).
Context (Hfuel : length region <= fuel).

Let Hanch : anchored d slot region.
Proof. by exists e, p, pre, post. Qed.

Lemma updateNodeSlot_absent arg :
  arg = ArgFalse \/ arg = ArgNull \/ arg = ArgUndefined ->
  updateNodeSlot fuel slot arg d = Ok (tt, detachAll region d).
Proof using All.
  intros Harg. unfold updateNodeSlot.
  rewrite (bind_Ok _ _ _ _ _ (collectChildNodes_spec d slot region fuel Hwf Hanch Hfuel)).
  assert (removeOthers region None d = Ok (tt, detachAll region d)) as Hrm.
  { rewrite removeOthers_spec by (by eapply anchored_live).
    by rewrite (filter_all (fun n => Some n <> None)). }
  by destruct Harg as [->|[->| ->]].
Qed.

Lemma updateNodeSlot_present r :
  r ∈ region ->
  updateNodeSlot fuel slot (ArgNode r) d
  = Ok (tt, detachAll (filter (fun n => Some n <> Some r) region) d).
Proof using All.
  intros Hr. unfold updateNodeSlot.
  rewrite (bind_Ok _ _ _ _ _ (collectChildNodes_spec d slot region fuel Hwf Hanch Hfuel)).
  rewrite decide_True by done. unfold bind at 1, ret.
  apply removeOthers_spec. by eapply anchored_live.
Qed.

Lemma updateNodeSlot_inserted r :
  r ∉ region -> insertable d slot p r ->
  updateNodeSlot fuel slot (ArgNode r) d
  = Ok (tt, applied (insertedNodes d r) region p e d).
Proof using All.
  intros Hr Hins. unfold updateNodeSlot.
  rewrite (bind_Ok _ _ _ _ _ (collectChildNodes_spec d slot region fuel Hwf Hanch Hfuel)).
  rewrite decide_False by done.
  rewrite (bind_Ok _ _ _ _ _
             (insertBeforeEnd_spec d slot region pre post e p Hwf Hat r Hins Hr)).
  destruct (moveAllBefore_spec slot e p (insertedNodes d r) d region pre post
              Hwf Hat (NoDup_insertedNodes d Hwf r)
              (insertedNodes_ok d slot region pre post e p Hwf Hat r Hins Hr))
    as (_ & _ & _ & Hlv & _).
  rewrite removeOthers_spec.
  - rewrite (filter_all (fun n => Some n <> Some r)); [done|].
    by intros y Hy [= ->].
  - intros n Hn. rewrite Hlv. by eapply anchored_live.
Qed.

Lemma insertable_fresh x :
  insertable (allocated x d) slot p (nextRef d) /\ nextRef d ∉ region.
Proof using Hwf Hat.
  pose proof (fresh_not_live d Hwf) as Hfresh.
  destruct Hat as (He & Hcs & Hpre).
  assert (forall y, y ∈ pre ++ region ++ e :: post -> y <> nextRef d) as Hsib.
  { intros y Hy ->. rewrite <- Hcs in Hy.
    apply (wf_child_live d _ _ Hwf) in Hy. congruence. }
  split; [split_and!|].
  - rewrite live_allocated. by rewrite decide_True.
  - destruct (startAfter slot) as [s|]; [|done]. destruct Hpre as [pre' ->].
    intros [= <-]. eapply Hsib; [|done]. apply elem_of_app. left.
    apply elem_of_app. right. by left.
  - rewrite He. intros [= <-]. eapply Hsib; [|done]. apply elem_of_app. right.
    apply elem_of_app. right. by left.
  - apply isInclusiveAncestorFuel_childless.
    + by apply wf_allocated.
    + rewrite childrenOf_allocated by done.
      by apply not_live in Hfresh as (_ & _ & ->).
    + intros <-. assert (live d (nextRef d) = true); [|congruence].
      eapply live_childrenOf. rewrite Hcs. apply elem_of_app. right.
      apply elem_of_app. right. by left.
  - intros Hin. eapply Hsib; [|done]. apply elem_of_app. right.
    apply elem_of_app. by left.
Qed.

Lemma anchoredAt_allocated x : anchoredAt (allocated x d) slot region e p pre post.
Proof using Hwf Hat.
  destruct Hat as (He & Hcs & Hpre). split; [done|]. split; [|done].
  by rewrite childrenOf_allocated.
Qed.

Lemma updateNodeSlot_create s :
  List.find (isText d) region = None ->
  updateNodeSlot fuel slot (ArgString s) d
  = Ok (tt, applied [nextRef d] region p e (allocated (Text s) d)).
Proof using All.
  intros Hfind. unfold updateNodeSlot.
  rewrite (bind_Ok _ _ _ _ _ (collectChildNodes_spec d slot region fuel Hwf Hanch Hfuel)).
  unfold bind at 1, get. rewrite Hfind.
  unfold bind at 1, createTextNode, alloc.
  destruct (insertable_fresh (Text s)) as [Hins Hreg].
  pose proof (wf_allocated d (Text s) Hwf) as Hwf1.
  pose proof (anchoredAt_allocated (Text s)) as Hat1.
  rewrite (bind_Ok _ _ _ _ _
             (insertBeforeEnd_spec _ slot region pre post e p Hwf1 Hat1 _ Hins Hreg)).
  assert (insertedNodes (allocated (Text s) d) (nextRef d) = [nextRef d]) as Hnodes.
  { apply (insertedNodes_Text _ _ s). rewrite payloadOf_allocated.
    by rewrite decide_True. }
  rewrite Hnodes.
  destruct (moveAllBefore_spec slot e p [nextRef d] _ region pre post
              Hwf1 Hat1) as (_ & _ & _ & Hlv & _).
  { apply NoDup_singleton. }
  { rewrite <- Hnodes.
    by apply (insertedNodes_ok _ slot region pre post e p Hwf1 Hat1 _ Hins Hreg). }
  rewrite removeOthers_spec.
  - rewrite (filter_all (fun n => Some n <> Some (nextRef d))); [done|].
    by intros y Hy [= ->].
  - intros n Hn. rewrite Hlv, live_allocated. case_decide; [done|].
    by eapply anchored_live.
Qed.
End UpdateNodeSlot.

Lemma insertedNodes_child d r p :
  wf d -> parentOf d r = Some p -> insertedNodes d r = [r].
Proof.
  intros Hwf Hp. unfold insertedNodes.
  destruct (payloadOf d r) as [[]|] eqn:E; try done.
  apply (wf_fragment d Hwf) in E. congruence.
Qed.

Lemma updateNodeSlot_spec fuel d slot region pre post e p arg :
  wf d -> anchoredAt d slot region e p pre post -> length region <= fuel ->
  validArg d slot p arg ->
  exists d' kept pre' post',
    updateNodeSlot fuel slot arg d = Ok (tt, d') /\ wf d' /\
    anchoredAt d' slot kept e p pre' post' /\ keeps d d' arg kept /\
    (forall n, n ∈ region -> n ∉ kept -> parentOf d' n = None) /\
    (forall q, live d q = true -> live d' q = true).
Proof.
  intros Hwf Hat Hfuel Hvalid.
  assert (anchored d slot region) as Hanch by (by exists e, p, pre, post).
  pose proof (anchored_NoDup d Hwf slot region Hanch) as Hnd.
  assert ((exists d', updateNodeSlot fuel slot arg d = Ok (tt, d') /\
                      d' = detachAll region d /\
                      (arg = ArgFalse \/ arg = ArgNull \/ arg = ArgUndefined)) ->
          exists d' kept pre' post',
            updateNodeSlot fuel slot arg d = Ok (tt, d') /\ wf d' /\
            anchoredAt d' slot kept e p pre' post' /\ keeps d d' arg kept /\
            (forall n, n ∈ region -> n ∉ kept -> parentOf d' n = None) /\
            (forall q, live d q = true -> live d' q = true)) as Habsent.
  { intros (d' & Hrun & -> & Harg). exists (detachAll region d), [], pre, post.
    split_and!; [done|by apply wf_detachAll| | | |].
    - rewrite <- (filter_none (fun y => y ∉ region) region) by (intros y Hy H; done).
      by apply anchoredAt_detachAll.
    - by destruct Harg as [->|[->| ->]].
    - intros n Hn _. rewrite parentOf_detachAll. by rewrite decide_True.
    - intros q. by rewrite live_detachAll. }
  destruct arg as [s|r| | |];
    [| |apply Habsent; eexists; split_and!;
        [eapply updateNodeSlot_absent; eauto|done|eauto]..].
  - (* a string *)
    destruct (List.find (isText d) region) as [t|] eqn:Hfind.
    + destruct (find_isText_Some _ _ _ Hfind) as (Hin & s0 & Ht).
      exists (textReused t s region d), [t], pre, post. split_and!.
      * by eapply updateNodeSlot_reuse.
      * by eapply wf_textReused.
      * unfold textReused.
        rewrite <- (filter_keep_one region t) by done.
        apply anchoredAt_detachAll.
        -- apply wf_emit. by eapply wf_setPayload.
        -- destruct Hat as (He & Hcs & Hpre). split_and!; try done.
           by dom_simpl.
        -- by intros x [_ ?]%list_elem_of_filter.
      * exists t. split; [done|]. by eapply payloadOf_textReused.
      * intros n Hn Hnt. unfold textReused. rewrite parentOf_detachAll.
        rewrite decide_True; [done|]. apply list_elem_of_filter. split; [|done].
        intros [= ->]. apply Hnt. by left.
      * intros q. unfold textReused. rewrite live_detachAll. by dom_simpl.
    + destruct (insertable_fresh d slot region pre post e p Hwf Hat (Text s))
        as [Hins Hreg].
      pose proof (wf_allocated d (Text s) Hwf) as Hwf1.
      pose proof (anchoredAt_allocated d slot region pre post e p Hwf Hat (Text s))
        as Hat1.
      assert (insertedNodes (allocated (Text s) d) (nextRef d) = [nextRef d])
        as Hnodes.
      { apply (insertedNodes_Text _ _ s). rewrite payloadOf_allocated.
        by rewrite decide_True. }
      destruct (applied_spec _ slot region pre post e p Hwf1 Hat1 _ Hins Hreg)
        as (Hwf' & (pre' & post' & Hat') & Hpay & Hlv & Hpar & _).
      rewrite Hnodes in *.
      exists (applied [nextRef d] region p e (allocated (Text s) d)),
        [nextRef d], pre', post'. split_and!; try done.
      * by eapply updateNodeSlot_create.
      * exists (nextRef d). split; [done|]. rewrite Hpay, payloadOf_allocated.
        by rewrite decide_True.
      * intros n Hn _. rewrite Hpar. by rewrite decide_True.
      * intros q Hq. rewrite Hlv, live_allocated. by case_decide.
  - (* a node *)
    simpl in Hvalid. destruct (decide (r ∈ region)) as [Hin|Hout].
    + assert (parentOf d r = Some p) as Hpr.
      { apply (wf_child d Hwf). destruct Hat as (_ & -> & _).
        apply elem_of_app. right. apply elem_of_app. by left. }
      exists (detachAll (filter (fun n => Some n <> Some r) region) d),
        [r], pre, post. split_and!.
      * by eapply updateNodeSlot_present.
      * by apply wf_detachAll.
      * rewrite <- (filter_keep_one region r) by done.
        apply anchoredAt_detachAll; [done|done|].
        by intros x [_ ?]%list_elem_of_filter.
      * simpl. symmetry. by eapply insertedNodes_child.
      * intros n Hn Hnr. rewrite parentOf_detachAll.
        rewrite decide_True; [done|]. apply list_elem_of_filter. split; [|done].
        intros [= ->]. apply Hnr. by left.
      * intros q. by rewrite live_detachAll.
    + destruct (applied_spec d slot region pre post e p Hwf Hat r Hvalid Hout)
        as (Hwf' & (pre' & post' & Hat') & Hpay & Hlv & Hpar & _).
      exists (applied (insertedNodes d r) region p e d), (insertedNodes d r),
        pre', post'. split_and!; try done.
      * by eapply updateNodeSlot_inserted.
      * intros n Hn _. rewrite Hpar. by rewrite decide_True.
      * intros q. by rewrite Hlv.
Qed.

(** C5: applying the same string twice leaves one text node holding the
    string between the boundaries after each call; the second call rewrites
    the data of that same node and neither inserts nor removes anything. *)
Theorem updateNodeSlot_string_twice fuel d slot region s :
  wf d -> anchored d slot region -> length region <= fuel -> 1 <= fuel ->
  exists d1 d2 t,
    updateNodeSlot fuel slot (ArgString s) d = Ok (tt, d1) /\
    anchored d1 slot [t] /\ payloadOf d1 t = Some (Text s) /\
    updateNodeSlot fuel slot (ArgString s) d1 = Ok (tt, d2) /\
    anchored d2 slot [t] /\ payloadOf d2 t = Some (Text s) /\
    trace d2 = trace d1 ++ [CharacterData t s] /\
    (forall q, parentOf d2 q = parentOf d1 q /\ childrenOf d2 q = childrenOf d1 q).
Proof.
  intros Hwf (e & p & pre & post & Hat) Hfuel Hone.
  destruct (updateNodeSlot_spec fuel d slot region pre post e p (ArgString s)
              Hwf Hat Hfuel I)
    as (d1 & kept & pre' & post' & Hrun1 & Hwf1 & Hat1 & (t & -> & Ht) & _ & _).
  assert (anchored d1 slot [t]) as Hanch1 by (by exists e, p, pre', post').
  assert (List.find (isText d1) [t] = Some t) as Hfind.
  { simpl. unfold isText, payloadOf in *.
    by destruct (node d1 t) as [[[] ? ?]|]. }
  pose proof (updateNodeSlot_reuse fuel d1 slot [t] s Hwf1 Hanch1 Hone t Hfind)
    as Hrun2.
  assert (textReused t s [t] d1 = emit (CharacterData t s) (setPayload t (Text s) d1))
    as Hd2.
  { unfold textReused. by rewrite filter_cons_False by (intros H; by apply H). }
  rewrite Hd2 in Hrun2.
  exists d1, (emit (CharacterData t s) (setPayload t (Text s) d1)), t.
  split_and!; try done.
  - eapply anchored_ext; [|exact Hanch1]. intros q. by dom_simpl.
  - dom_simpl. rewrite decide_True by done. by rewrite (live_payloadOf _ _ _ Ht).
  - intros q. by dom_simpl.
Qed.

(** C6: applying a node that may be inserted at the slot puts it right before
    the "after" boundary exactly when it is not already in the region; every
    other node of the region leaves the tree, and the region then holds the
    node, or the children a fragment gave up. *)
Theorem updateNodeSlot_node fuel d slot region pre post e p r :
  wf d -> anchoredAt d slot region e p pre post -> length region <= fuel ->
  insertable d slot p r ->
  exists d',
    updateNodeSlot fuel slot (ArgNode r) d = Ok (tt, d') /\
    anchored d' slot (insertedNodes d r) /\
    (forall n, n ∈ region -> n <> r -> parentOf d' n = None) /\
    additions (trace d')
    = additions (trace d)
      ++ (if decide (r ∈ region) then [] else map (pair p) (insertedNodes d r)).
Proof.
  intros Hwf Hat Hfuel Hins.
  assert (anchored d slot region) as Hanch by (by exists e, p, pre, post).
  destruct (decide (r ∈ region)) as [Hin|Hout].
  - assert (parentOf d r = Some p) as Hpr.
    { apply (wf_child d Hwf). destruct Hat as (_ & -> & _).
      apply elem_of_app. right. apply elem_of_app. by left. }
    exists (detachAll (filter (fun n => Some n <> Some r) region) d). split_and!.
    + by eapply updateNodeSlot_present.
    + rewrite (insertedNodes_child d r p Hwf Hpr).
      rewrite <- (filter_keep_one region r); [|by eapply anchored_NoDup|done].
      apply anchored_detachAll; [done|done|].
      by intros x [_ ?]%list_elem_of_filter.
    + intros n Hn Hnr. rewrite parentOf_detachAll.
      rewrite decide_True; [done|]. apply list_elem_of_filter. split; [|done].
      by intros [= ->].
    + by rewrite additions_detachAll, app_nil_r.
  - destruct (applied_spec d slot region pre post e p Hwf Hat r Hins Hout)
      as (Hwf' & (pre' & post' & Hat') & Hpay & Hlv & Hpar & Hadd).
    exists (applied (insertedNodes d r) region p e d). split_and!.
    + by eapply updateNodeSlot_inserted.
    + by exists e, p, pre', post'.
    + intros n Hn _. rewrite Hpar. by rewrite decide_True.
    + done.
Qed.

(** Other code calling [y.before(x)] on a node [y] of the region, or on the
    "after" boundary, puts [x] into the region. *)
Lemma external_before d slot region pre post e p x y :
  wf d -> anchoredAt d slot region e p pre post ->
  y ∈ region ++ [e] -> insertable d slot p x -> x ∉ region -> ~ isFragment d x ->
  before y x d = Ok (tt, moveBefore x p y d) /\ wf (moveBefore x p y d) /\
  exists region2 pre2 post2,
    anchoredAt (moveBefore x p y d) slot region2 e p pre2 post2 /\
    region2 ≡ₚ x :: region.
Proof.
  intros Hwf (He & Hcs & Hpre) Hy (Hlive & Hs & Hne & Hanc) Hreg Hfrag.
  rewrite He in Hne.
  assert (forall z, z ∈ region ++ [e] -> z <> x) as Hzx.
  { intros z [Hz|Hz]%elem_of_app ->; [done|].
    apply list_elem_of_singleton in Hz. congruence. }
  apply list_elem_of_split in Hy as (R1 & R2 & HR).
  assert (childrenOf d p = (pre ++ R1) ++ y :: (R2 ++ post)) as Hcs'.
  { rewrite Hcs. replace (region ++ e :: post) with ((region ++ [e]) ++ post)
      by (by rewrite <- app_assoc).
    rewrite HR. by rewrite <- !app_assoc. }
  assert (x <> y) as Hxy.
  { intros ->. apply (Hzx y); [|done]. rewrite HR. apply elem_of_app. right. by left. }
  assert (insertedNodes d x = [x]) as Hnodes.
  { unfold insertedNodes. unfold isFragment in Hfrag.
    by destruct (payloadOf d x) as [[]|]. }
  split_and!.
  - rewrite (before_spec d p _ y _ x Hwf Hcs'); try done; [by rewrite Hnodes|].
    destruct R1 as [|z R1' _] using rev_ind.
    + rewrite app_nil_r. destruct (startAfter slot) as [s|].
      * destruct Hpre as [pre' ->]. rewrite last_snoc. congruence.
      * by subst pre.
    + rewrite app_assoc, last_snoc. intros [= ->]. apply (Hzx x); [|done].
      rewrite HR. apply elem_of_app. left. apply elem_of_app. right. by left.
  - by eapply wf_moveBefore.
  - assert (filter (fun z => z <> x) (pre ++ R1) = filter (fun z => z <> x) pre ++ R1)
      as HA.
    { rewrite filter_app. f_equal. apply filter_all. intros z Hz. apply Hzx.
      rewrite HR. apply elem_of_app. by left. }
    assert (filter (fun z => z <> x) (R2 ++ post) = R2 ++ filter (fun z => z <> x) post)
      as HB.
    { rewrite filter_app. f_equal. apply filter_all. intros z Hz. apply Hzx.
      rewrite HR. apply elem_of_app. right. by right. }
    assert (match startAfter slot with
            | Some s => exists pre', filter (fun z => z <> x) pre = pre' ++ [s]
            | None => filter (fun z => z <> x) pre = []
            end) as Hpre2.
    { destruct (startAfter slot) as [s|]; [|by subst].
      destruct Hpre as [pre' ->]. exists (filter (fun z => z <> x) pre').
      rewrite filter_app, filter_cons_True, filter_nil; [done|congruence]. }
    pose proof (childrenOf_moveBefore d Hwf x p y _ _ Hcs' Hxy Hlive Hfrag) as Hcs2.
    rewrite HA, HB in Hcs2.
    destruct R2 as [|e' R2' _] using rev_ind.
    + apply app_inj_tail in HR as [-> <-].
      exists (R1 ++ [x]), (filter (fun z => z <> x) pre),
        (filter (fun z => z <> x) post). split.
      * split_and!; [done| |done]. rewrite Hcs2. by rewrite <- !app_assoc.
      * by rewrite <- Permutation_cons_append.
    + rewrite app_comm_cons, app_assoc in HR.
      apply app_inj_tail in HR as [-> <-].
      exists (R1 ++ x :: y :: R2'), (filter (fun z => z <> x) pre),
        (filter (fun z => z <> x) post). split.
      * split_and!; [done| |done]. rewrite Hcs2. by rewrite <- !app_assoc.
      * by rewrite <- Permutation_middle.
Qed.

(** C7: the region is read from the tree at every call.  After an update,
    let other code insert a node [x] into the region; the next update still
    takes everything found between the boundaries out of the tree ([x] as
    well as what the first update left there), except the node being set. *)
Theorem updateNodeSlot_rescans fuel d slot region pre post e p arg :
  wf d -> anchoredAt d slot region e p pre post -> length region <= fuel ->
  validArg d slot p arg ->
  exists d1 kept1,
    updateNodeSlot fuel slot arg d = Ok (tt, d1) /\ anchored d1 slot kept1 /\
    forall x y,
      y ∈ kept1 ++ [e] -> insertable d1 slot p x -> x ∉ kept1 ->
      ~ isFragment d1 x ->
      exists d2,
        before y x d1 = Ok (tt, d2) /\
        forall arg2 fuel2,
          validArg d2 slot p arg2 -> length kept1 < fuel2 ->
          exists d3 kept2,
            updateNodeSlot fuel2 slot arg2 d2 = Ok (tt, d3) /\
            anchored d3 slot kept2 /\ keeps d2 d3 arg2 kept2 /\
            (forall n, n ∈ x :: kept1 -> n ∉ kept2 -> parentOf d3 n = None).
Proof.
  intros Hwf Hat Hfuel Hvalid.
  destruct (updateNodeSlot_spec fuel d slot region pre post e p arg
              Hwf Hat Hfuel Hvalid)
    as (d1 & kept1 & pre1 & post1 & Hrun & Hwf1 & Hat1 & _ & _ & _).
  exists d1, kept1. split_and!; [done|by exists e, p, pre1, post1|].
  intros x y Hy Hins Hx Hfrag.
  destruct (external_before d1 slot kept1 pre1 post1 e p x y
              Hwf1 Hat1 Hy Hins Hx Hfrag)
    as (Hext & Hwf2 & region2 & pre2 & post2 & Hat2 & Hperm).
  exists (moveBefore x p y d1). split; [done|].
  intros arg2 fuel2 Hvalid2 Hfuel2.
  destruct (updateNodeSlot_spec fuel2 _ slot region2 pre2 post2 e p arg2
              Hwf2 Hat2)
    as (d3 & kept2 & pre3 & post3 & Hrun3 & _ & Hat3 & Hkeeps & Hgone & _);
    [rewrite Hperm; simpl; lia|done|].
  exists d3, kept2. split_and!; try done; [by exists e, p, pre3, post3|].
  intros n Hn. apply Hgone. by rewrite Hperm.
Qed.

(** ** The update rule on an attribute slot *)

Lemma getAssoc_setAssoc_ne name value a l :
  a <> name -> getAssoc a (setAssoc name value l) = getAssoc a l.
Proof.
  intros Hne. induction l as [|[k v] l IH]; simpl.
  - by rewrite decide_False.
  - destruct (decide (k = name)) as [->|]; simpl.
    + by rewrite !decide_False by done.
    + by rewrite IH.
Qed.

Lemma getAssoc_removeAssoc_ne name a l :
  a <> name -> getAssoc a (removeAssoc name l) = getAssoc a l.
Proof.
  intros Hne. induction l as [|[k v] l IH]; simpl; [done|].
  destruct (decide (k = name)) as [->|]; simpl.
  - by rewrite decide_False by done.
  - by rewrite IH.
Qed.

Lemma others_setAssoc name value l :
  filter (fun kv => kv.1 <> name) (setAssoc name value l)
  = filter (fun kv => kv.1 <> name) l.
Proof.
  induction l as [|[k v] l IH]; simpl.
  - by rewrite filter_cons_False by (intros H; by apply H).
  - destruct (decide (k = name)) as [->|].
    + by rewrite !filter_cons_False by (intros H; by apply H).
    + rewrite !filter_cons_True by done. by rewrite IH.
Qed.

Lemma others_removeAssoc name l :
  filter (fun kv => kv.1 <> name) (removeAssoc name l)
  = filter (fun kv => kv.1 <> name) l.
Proof.
  induction l as [|[k v] l IH]; simpl; [done|].
  destruct (decide (k = name)) as [->|].
  - by rewrite filter_cons_False by (intros H; by apply H).
  - rewrite !filter_cons_True by done. by rewrite IH.
Qed.

Lemma getAssoc_removeAssoc name l :
  NoDup l.*1 -> getAssoc name (removeAssoc name l) = None.
Proof.
  induction l as [|[k v] l IH]; simpl; [done|]. intros [Hk Hnd]%NoDup_cons.
  destruct (decide (k = name)) as [->|]; simpl.
  - clear IH Hnd. induction l as [|[k' v'] l IH]; simpl; [done|].
    apply not_elem_of_cons in Hk as [Hne Hk]. simpl in Hne.
    rewrite decide_False by done. by apply IH.
  - rewrite decide_False by done. by apply IH.
Qed.

Lemma payloadOf_node d r x :
  payloadOf d r = Some x -> exists n, node d r = Some n /\ payload n = x.
Proof.
  unfold payloadOf. destruct (node d r) as [n|]; [|done]. intros [= <-]. eauto.
Qed.

Lemma removeAttribute_Element d el tag attrs name :
  payloadOf d el = Some (Element tag attrs) ->
  removeAttribute el name d
  = Ok (tt, match getAssoc name attrs with
            | Some _ =>
                emit (AttributeRemoved el name)
                  (setPayload el (Element tag (removeAssoc name attrs)) d)
            | None => d
            end).
Proof.
  intros (n & Hn & Hp)%payloadOf_node. unfold removeAttribute, bind, read.
  rewrite Hn, Hp. by destruct (getAssoc name attrs).
Qed.

Lemma getAttribute_Element d el tag attrs name :
  payloadOf d el = Some (Element tag attrs) ->
  getAttribute d el name = getAssoc name attrs.
Proof.
  intros (n & Hn & Hp)%payloadOf_node. unfold getAttribute. rewrite Hn.
  destruct n as [x ? ?]. simpl in Hp. by subst x.
Qed.

Lemma removeAssoc_absent name (l : list (JSString * JSString)) :
  getAssoc name l = None -> removeAssoc name l = l.
Proof.
  induction l as [|[k v] l IH]; simpl; [done|].
  destruct (decide (k = name)); [done|]. intros H. f_equal. by apply IH.
Qed.

Lemma setPayload_same d r n :
  node d r = Some n -> setPayload r (payload n) d = d.
Proof.
  intros Hn. unfold setPayload, setHeap. destruct d as [h nr tr w]. simpl in *.
  f_equal. apply alter_id. unfold node in Hn. simpl in Hn.
  intros x Hx. rewrite Hx in Hn. injection Hn as ->. by destruct n.
Qed.

(** Removing an attribute: the element is left with [removeAssoc], and
    observers see a record only when the attribute was there. *)
Lemma removeAttribute_spec d el tag attrs name :
  payloadOf d el = Some (Element tag attrs) ->
  exists evs,
    evs = match getAssoc name attrs with
          | Some _ => [AttributeRemoved el name]
          | None => []
          end /\
    removeAttribute el name d
    = Ok (tt, mkDom (heap (setPayload el (Element tag (removeAssoc name attrs)) d))
                (nextRef d) (trace d ++ evs) (windowName d)).
Proof.
  intros Hp. rewrite (removeAttribute_Element d el tag attrs name Hp).
  destruct (getAssoc name attrs) as [v|] eqn:Hget.
  - by eexists.
  - exists []. split; [done|]. rewrite removeAssoc_absent by done.
    apply payloadOf_node in Hp as (n & Hn & Hpn). rewrite <- Hpn.
    rewrite (setPayload_same d el n Hn), app_nil_r. by destruct d.
Qed.

Lemma setAttribute_Element d el tag attrs name value :
  payloadOf d el = Some (Element tag attrs) ->
  setAttribute el name value d
  = Ok (tt, emit (AttributeSet el name value)
              (setPayload el (Element tag (setAssoc name value attrs)) d)).
Proof.
  intros (n & Hn & Hp)%payloadOf_node. unfold setAttribute, bind, read.
  by rewrite Hn, Hp.
Qed.

(** C9: a node given to an attribute slot is answered with a console warning
    and the removal of the attribute; nothing is thrown, and the second loop
    of [createTemplateInstance] goes on with the next slot.  Observers see
    the removal when the element had the attribute, and nothing when it had
    not; either way the attribute is absent afterwards. *)
Theorem updateAttrValueSlot_node fuel d slot el tag attrs r slots args i count :
  slotElement slot = Some el ->
  payloadOf d el = Some (Element tag attrs) -> NoDup attrs.*1 ->
  slots !! i = Some (InstanceAttrValueSlot slot) -> argAt args i = ArgNode r ->
  exists d',
    updateAttrValueSlot slot (ArgNode r) d = Ok (tt, d') /\
    trace d' = trace d
               ++ ConsoleWarn warnFormat (windowName d) r
                  :: match getAttribute d el (slotName slot) with
                     | Some _ => [AttributeRemoved el (slotName slot)]
                     | None => []
                     end /\
    getAttribute d' el (slotName slot) = None /\
    updateSlots fuel slots args i (S count) d
    = updateSlots fuel slots args (S i) count d'.
Proof.
  intros Hel Hp Hnd Hslot Harg.
  set (d1 := emit (ConsoleWarn warnFormat (windowName d) r) d).
  assert (payloadOf d1 el = Some (Element tag attrs)) as Hp1 by done.
  destruct (removeAttribute_spec d1 el tag attrs (slotName slot) Hp1)
    as (evs & Hevs & Hrm).
  set (d' := mkDom
               (heap (setPayload el
                        (Element tag (removeAssoc (slotName slot) attrs)) d1))
               (nextRef d1) (trace d1 ++ evs) (windowName d1)) in *.
  assert (updateAttrValueSlot slot (ArgNode r) d = Ok (tt, d')) as Hrun.
  { unfold updateAttrValueSlot, withElement. rewrite Hel. exact Hrm. }
  exists d'. split_and!.
  - done.
  - rewrite (getAttribute_Element d el tag attrs _ Hp), <- Hevs.
    subst d' d1. simpl. by rewrite <- app_assoc.
  - assert (payloadOf d' el
            = Some (Element tag (removeAssoc (slotName slot) attrs))) as Hp'.
    { change (payloadOf d' el)
        with (payloadOf (setPayload el
                (Element tag (removeAssoc (slotName slot) attrs)) d1) el).
      rewrite payloadOf_setPayload, decide_True by done.
      by rewrite (live_payloadOf _ _ _ Hp1). }
    rewrite (getAttribute_Element d' el tag _ _ Hp').
    by apply getAssoc_removeAssoc.
  - cbn [updateSlots]. rewrite Hslot, Harg. cbn [updateSlot].
    unfold bind at 1. by rewrite Hrun.
Qed.

(** C10: an update of an attribute slot touches one attribute of one element.
    Every other node is as it was; the element keeps its parent, its children,
    its tag and its other attributes; no node is created. *)
Theorem updateAttrValueSlot_frame d d' slot el tag attrs arg :
  slotElement slot = Some el ->
  payloadOf d el = Some (Element tag attrs) ->
  updateAttrValueSlot slot arg d = Ok (tt, d') ->
  (forall q, q <> el -> node d' q = node d q) /\
  parentOf d' el = parentOf d el /\
  childrenOf d' el = childrenOf d el /\
  nextRef d' = nextRef d /\
  exists attrs',
    payloadOf d' el = Some (Element tag attrs') /\
    filter (fun kv => kv.1 <> slotName slot) attrs'
    = filter (fun kv => kv.1 <> slotName slot) attrs /\
    forall a, a <> slotName slot -> getAttribute d' el a = getAttribute d el a.
Proof.
  intros Hel Hp Hrun.
  assert (exists attrs' evs,
            d' = mkDom (heap (setPayload el (Element tag attrs') d)) (nextRef d)
                   (trace d ++ evs) (windowName d) /\
            filter (fun kv => kv.1 <> slotName slot) attrs'
            = filter (fun kv => kv.1 <> slotName slot) attrs /\
            forall a, a <> slotName slot -> getAssoc a attrs' = getAssoc a attrs)
    as (attrs' & evs & -> & Hothers & Hget).
  { unfold updateAttrValueSlot, withElement in Hrun. rewrite Hel in Hrun.
    destruct arg as [s|r| | |].
    - rewrite (setAttribute_Element d el tag attrs _ s Hp) in Hrun.
      injection Hrun as <-. eexists _, _. split_and!; [done|..].
      + apply others_setAssoc.
      + intros a Ha. by apply getAssoc_setAssoc_ne.
    - unfold bind at 1, modify in Hrun.
      set (d1 := emit (ConsoleWarn warnFormat (windowName d) r) d) in Hrun.
      destruct (removeAttribute_spec d1 el tag attrs (slotName slot))
        as (evs & _ & Hrm); [done|].
      rewrite Hrm in Hrun.
      injection Hrun as <-. eexists _, _. split_and!.
      + subst d1. unfold emit, setPayload, setHeap. simpl.
        by rewrite <- app_assoc.
      + apply others_removeAssoc.
      + intros a Ha. by apply getAssoc_removeAssoc_ne.
    - destruct (removeAttribute_spec d el tag attrs (slotName slot) Hp)
        as (evs & _ & Hrm).
      rewrite Hrm in Hrun.
      injection Hrun as <-. eexists _, _. split_and!; [done|..].
      + apply others_removeAssoc.
      + intros a Ha. by apply getAssoc_removeAssoc_ne.
    - destruct (removeAttribute_spec d el tag attrs (slotName slot) Hp)
        as (evs & _ & Hrm).
      rewrite Hrm in Hrun.
      injection Hrun as <-. eexists _, _. split_and!; [done|..].
      + apply others_removeAssoc.
      + intros a Ha. by apply getAssoc_removeAssoc_ne.
    - destruct (removeAttribute_spec d el tag attrs (slotName slot) Hp)
        as (evs & _ & Hrm).
      rewrite Hrm in Hrun.
      injection Hrun as <-. eexists _, _. split_and!; [done|..].
      + apply others_removeAssoc.
      + intros a Ha. by apply getAssoc_removeAssoc_ne. }
  pose proof (payloadOf_node _ _ _ Hp) as (n & Hn & Hpn).
  assert (forall q, node (mkDom (heap (setPayload el (Element tag attrs') d))
                       (nextRef d) (trace d ++ evs) (windowName d)) q
                    = node (setPayload el (Element tag attrs') d) q) as Hnode by done.
  split_and!.
  - intros q Hq. rewrite Hnode, node_setPayload. by rewrite decide_False.
  - unfold parentOf. rewrite Hnode, node_setPayload, decide_True by done.
    by rewrite Hn.
  - unfold childrenOf. rewrite Hnode, node_setPayload, decide_True by done.
    by rewrite Hn.
  - done.
  - exists attrs'. split_and!; [|done|].
    + unfold payloadOf. rewrite Hnode, node_setPayload, decide_True by done.
      by rewrite Hn.
    + intros a Ha. unfold getAttribute.
      rewrite Hnode, node_setPayload, decide_True by done.
      rewrite Hn. simpl. destruct n as [x ? ?]. simpl in Hpn. subst x.
      by apply Hget.
Qed.

(** ** The template compiler: the slot-count check *)

(** C2: after the walk, a slot count other than the number of interpolations
    makes [createTemplate] throw an error whose message ends with the template
    text, and no template is returned; with the right count the template is
    returned, holding exactly the discovered slots. *)
Theorem createTemplate_slot_count fuel document strings N d template d' :
  length strings = S N ->
  discoverSlots fuel document strings d = Ok (template, d') ->
  (length (slots template) <> N ->
   createTemplate fuel document strings d
   = Throw (Error (str "Could not find all replacements in template: "
                     ++ join replacement strings))) /\
  (length (slots template) = N ->
   createTemplate fuel document strings d = Ok (template, d')).
Proof.
  intros Hlen Hwalk. unfold createTemplate. rewrite (bind_Ok _ _ _ _ _ Hwalk).
  rewrite Hlen. split; intros HN; case_decide as Hcount; try done; lia.
Qed.

(** ** The instantiation engine: resolve everything, then update in order *)

Lemma collectSlots_resolveAll fragment templateSlots slots d :
  collectSlots fragment templateSlots slots d
  = match resolveAll d fragment templateSlots with
    | Ok resolved => Ok (slots ++ resolved, d)
    | Throw e => Throw e
    | OutOfFuel => OutOfFuel
    end.
Proof.
  revert slots. induction templateSlots as [|ts rest IH]; intros slots; simpl.
  - by rewrite app_nil_r.
  - unfold bind, get, liftResult.
    destruct (resolveSlot d fragment ts) as [slot| |]; [|done..].
    rewrite IH. destruct (resolveAll d fragment rest); [|done..].
    by rewrite <- app_assoc.
Qed.

Lemma resolveAll_length d fragment templateSlots resolved :
  resolveAll d fragment templateSlots = Ok resolved ->
  length resolved = length templateSlots.
Proof.
  revert resolved. induction templateSlots as [|ts rest IH]; intros resolved; simpl.
  - by intros [= <-].
  - destruct (resolveSlot d fragment ts); [|done..].
    destruct (resolveAll d fragment rest) as [l| |]; [|done..].
    intros [= <-]. simpl. f_equal. by apply IH.
Qed.

Lemma updateSlots_applyAll fuel slots args count :
  forall i d, i + count = length slots ->
    updateSlots fuel slots args i count d
    = applyAll fuel (zip (drop i slots) (map (argAt args) (seq i count))) d.
Proof.
  induction count as [|count IH]; intros i d Hlen; simpl.
  - by destruct (drop i slots).
  - destruct (slots !! i) as [slot|] eqn:Hslot.
    + rewrite (drop_S _ _ _ Hslot). simpl. unfold bind.
      destruct (updateSlot fuel slot (argAt args i) d) as [[[] d1]| |]; [|done..].
      apply IH. lia.
    + apply lookup_ge_None in Hslot. lia.
Qed.

(** C3: [createTemplateInstance] is the clone, then the resolution of every
    slot address in the state the clone left (nothing is written while
    addresses are resolved), then the updates, one per slot, in slot order. *)
Theorem createTemplateInstance_resolves_then_applies fuel template args d :
  createTemplateInstance fuel template args d
  = resolveThenApply fuel template args d.
Proof.
  unfold createTemplateInstance, resolveThenApply. cbn zeta.
  apply bind_ext. intros fragment d1. rewrite bind_get.
  unfold bind at 1. unfold bind at 2. unfold liftResult.
  rewrite collectSlots_resolveAll.
  destruct (resolveAll d1 fragment (slots template)) as [resolved| |] eqn:Hres;
    [|done..].
  simpl. apply resolveAll_length in Hres. unfold bind.
  rewrite updateSlots_applyAll by (by rewrite Hres).
  by rewrite Hres.
Qed.

(** ** End to end: a paragraph with one interpolated string *)

Lemma paragraph_run k document :
  parseFragment document (join replacement [str "<p>"; str "</p>"])
  = [MElement (str "p") [] [MText replacement]] ->
  exists d,
    paragraph (S (S (S (S k)))) document
    = Ok (mkTemplateInstance 5 [InstanceNodeSlot (mkNodeSlot None (Some 8))]
            [mkNodeSlot None (Some 8)] [], d) /\
    childrenOf d 5 = [6] /\
    node d 6 = Some (mkNode (Element (str "p") []) (Some 5) [7; 8]) /\
    node d 7 = Some (mkNode (Text (str "hello")) (Some 6) []) /\
    node d 8 = Some (mkNode (Text []) (Some 6) []).
Proof.
  intros Hparse. unfold paragraph, createTemplate, discoverSlots, setInnerHTML.
  rewrite Hparse. eexists. split; [vm_compute; reflexivity|].
  split_and!; vm_compute; reflexivity.
Qed.

(** C1 (as the code behaves): for the fragments "<p>", "</p>" and the value
    "hello" the instance root holds one paragraph element; the paragraph has
    two children, a text node with data "hello" followed by the empty text node
    that the compiler split off as the slot's "after" boundary. *)
Theorem paragraph_children fuel document :
  4 <= fuel ->
  parseFragment document (join replacement [str "<p>"; str "</p>"])
  = [MElement (str "p") [] [MText replacement]] ->
  exists inst d p hello boundary,
    paragraph fuel document = Ok (inst, d) /\
    childrenOf d (fragment inst) = [p] /\
    payloadOf d p = Some (Element (str "p") []) /\
    childrenOf d p = [hello; boundary] /\
    payloadOf d hello = Some (Text (str "hello")) /\
    payloadOf d boundary = Some (Text []) /\
    nodeSlots inst = [mkNodeSlot None (Some boundary)].
Proof.
  intros Hfuel Hparse.
  do 4 (destruct fuel as [|fuel]; [lia|]).
  destruct (paragraph_run fuel document Hparse)
    as (d & Hrun & Hroot & Hp & Hhello & Hboundary).
  eexists _, d, 6, 7, 8. split; [exact Hrun|].
  unfold payloadOf, childrenOf in *. simpl.
  rewrite Hp, Hhello, Hboundary. simpl.
  destruct (node d 5); by split_and!.
Qed.

Lemma paragraph_children_witness :
  4 <= 4 /\
  parseFragment Host.document (join replacement [str "<p>"; str "</p>"])
  = [MElement (str "p") [] [MText replacement]] /\
  exists inst d p hello boundary,
    paragraph 4 Host.document = Ok (inst, d) /\
    childrenOf d (fragment inst) = [p] /\
    payloadOf d p = Some (Element (str "p") []) /\
    childrenOf d p = [hello; boundary] /\
    payloadOf d hello = Some (Text (str "hello")) /\
    payloadOf d boundary = Some (Text []) /\
    nodeSlots inst = [mkNodeSlot None (Some boundary)].
Proof.
  split; [lia|]. split; [vm_compute; reflexivity|].
  apply (paragraph_children 4 Host.document); [lia|vm_compute; reflexivity].
Defined.

(** C1 as stated fails: after instantiation the paragraph's text node is not
    its only child. *)
Lemma paragraph_child_not_alone :
  ~ exists inst d p t,
      paragraph 4 Host.document = Ok (inst, d) /\
      childrenOf d (fragment inst) = [p] /\
      payloadOf d p = Some (Element (str "p") []) /\
      childrenOf d p = [t] /\
      payloadOf d t = Some (Text (str "hello")).
Proof.
  intros (inst & d & p & t & Hrun & Hroot & _ & Hkids & _).
  destruct (paragraph_run 0 Host.document) as (d0 & Hrun0 & Hroot0 & Hp0 & _);
    [vm_compute; reflexivity|].
  rewrite Hrun0 in Hrun. injection Hrun as <- <-. simpl in Hroot.
  rewrite Hroot0 in Hroot. injection Hroot as <-.
  unfold childrenOf in Hkids. rewrite Hp0 in Hkids. discriminate.
Qed.

(** ** Concrete runs *)

Lemma wf_emptyDom : wf Host.emptyDom.
Proof.
  split; try done.
  - intros p c Hc. by apply elem_of_nil in Hc.
  - intros p. apply NoDup_nil_2.
  - intros r [n Hn]. done.
Qed.

Lemma wf_page : wf Sample.page.
Proof.
  unfold Sample.page. cbn zeta.
  repeat (first [ apply wf_allocated
                | eapply wf_attach;
                  [|vm_compute; reflexivity|vm_compute; reflexivity
                   |vm_compute; discriminate|vm_compute; reflexivity
                   |reflexivity]
                | apply wf_emptyDom ]).
Qed.

Lemma anchoredAt_page : anchoredAt Sample.page Sample.slot [2] 3 1 [] [].
Proof. split_and!; vm_compute; reflexivity. Qed.

Lemma insertable_page : insertable Sample.page Sample.slot 1 4.
Proof. split_and!; vm_compute; (reflexivity || discriminate). Qed.

Lemma pathToNode_nodeFromPath_witness :
  wf Sample.page /\ inclusiveDescendant Sample.page 0 2 /\
  exists path bound,
    (forall fuel, bound <= fuel -> pathToNode fuel Sample.page 0 2 = Ok path) /\
    nodeFromPath Sample.page (Some 0) path = Ok (Some 2).
Proof.
  assert (inclusiveDescendant Sample.page 0 2) as Hdesc.
  { apply (descendant_child _ _ 2 1); [vm_compute; reflexivity|].
    apply (descendant_child _ _ 1 0); [vm_compute; reflexivity|].
    apply descendant_root. }
  split; [exact wf_page|]. split; [exact Hdesc|].
  exact (pathToNode_nodeFromPath Sample.page 0 2 wf_page Hdesc).
Defined.

Lemma updateNodeSlot_string_twice_witness :
  wf Sample.page /\ anchored Sample.page Sample.slot [2] /\
  length [2] <= 1 /\ 1 <= 1 /\
  exists d1 d2 t,
    updateNodeSlot 1 Sample.slot (ArgString (str "b")) Sample.page = Ok (tt, d1) /\
    anchored d1 Sample.slot [t] /\ payloadOf d1 t = Some (Text (str "b")) /\
    updateNodeSlot 1 Sample.slot (ArgString (str "b")) d1 = Ok (tt, d2) /\
    anchored d2 Sample.slot [t] /\ payloadOf d2 t = Some (Text (str "b")) /\
    trace d2 = trace d1 ++ [CharacterData t (str "b")] /\
    (forall q, parentOf d2 q = parentOf d1 q /\ childrenOf d2 q = childrenOf d1 q).
Proof.
  assert (anchored Sample.page Sample.slot [2]) as Hanch.
  { exists 3, 1, [], []. exact anchoredAt_page. }
  split; [exact wf_page|]. split; [exact Hanch|].
  split; [simpl; lia|]. split; [lia|].
  apply (updateNodeSlot_string_twice 1 Sample.page Sample.slot [2] (str "b")
           wf_page Hanch); simpl; lia.
Defined.

Lemma updateNodeSlot_node_witness :
  wf Sample.page /\ anchoredAt Sample.page Sample.slot [2] 3 1 [] [] /\
  length [2] <= 1 /\ insertable Sample.page Sample.slot 1 4 /\
  exists d',
    updateNodeSlot 1 Sample.slot (ArgNode 4) Sample.page = Ok (tt, d') /\
    anchored d' Sample.slot (insertedNodes Sample.page 4) /\
    (forall n, n ∈ [2] -> n <> 4 -> parentOf d' n = None) /\
    additions (trace d')
    = additions (trace Sample.page)
      ++ (if decide (4 ∈ [2]) then [] else map (pair 1) (insertedNodes Sample.page 4)).
Proof.
  split; [exact wf_page|]. split; [exact anchoredAt_page|].
  split; [simpl; lia|]. split; [exact insertable_page|].
  apply (updateNodeSlot_node 1 Sample.page Sample.slot [2] [] [] 3 1 4
           wf_page anchoredAt_page); [simpl; lia|exact insertable_page].
Defined.

Lemma updateNodeSlot_rescans_witness :
  wf Sample.page /\ anchoredAt Sample.page Sample.slot [2] 3 1 [] [] /\
  length [2] <= 1 /\ validArg Sample.page Sample.slot 1 (ArgString (str "b")) /\
  exists d1 kept1,
    updateNodeSlot 1 Sample.slot (ArgString (str "b")) Sample.page = Ok (tt, d1) /\
    anchored d1 Sample.slot kept1 /\
    forall x y,
      y ∈ kept1 ++ [3] -> insertable d1 Sample.slot 1 x -> x ∉ kept1 ->
      ~ isFragment d1 x ->
      exists d2,
        before y x d1 = Ok (tt, d2) /\
        forall arg2 fuel2,
          validArg d2 Sample.slot 1 arg2 -> length kept1 < fuel2 ->
          exists d3 kept2,
            updateNodeSlot fuel2 Sample.slot arg2 d2 = Ok (tt, d3) /\
            anchored d3 Sample.slot kept2 /\ keeps d2 d3 arg2 kept2 /\
            (forall n, n ∈ x :: kept1 -> n ∉ kept2 -> parentOf d3 n = None).
Proof.
  split; [exact wf_page|]. split; [exact anchoredAt_page|].
  split; [simpl; lia|]. split; [exact I|].
  apply (updateNodeSlot_rescans 1 Sample.page Sample.slot [2] [] [] 3 1
           (ArgString (str "b")) wf_page anchoredAt_page); [simpl; lia|exact I].
Defined.

Lemma createTemplate_slot_count_witness :
  let strings := [str "<p>"; str "</p>"] in
  let template := mkTemplate 0 1 [TemplateNodeSlot [0; 0]] in
  let d' := Sample.outcome (discoverSlots 4 Host.document strings Host.emptyDom) in
  length strings = 2 /\
  discoverSlots 4 Host.document strings Host.emptyDom = Ok (template, d') /\
  (length (slots template) <> 1 ->
   createTemplate 4 Host.document strings Host.emptyDom
   = Throw (Error (str "Could not find all replacements in template: "
                     ++ join replacement strings))) /\
  (length (slots template) = 1 ->
   createTemplate 4 Host.document strings Host.emptyDom = Ok (template, d')).
Proof.
  cbn zeta. split; [reflexivity|]. split; [vm_compute; reflexivity|].
  apply (createTemplate_slot_count 4 Host.document [str "<p>"; str "</p>"] 1
           Host.emptyDom); [reflexivity|vm_compute; reflexivity].
Defined.

(** A marker inside a longer attribute value is no slot: the count check
    fails and the error carries the template text. *)
Example createTemplate_partial_attribute :
  createTemplate 4 Host.document [str "<i class=x-"; str "></i>"] Host.emptyDom
  = Throw (Error (str "Could not find all replacements in template: "
                    ++ str "<i class=x-" ++ replacement ++ str "></i>")).
Proof. vm_compute. reflexivity. Qed.

(** A marker between single quotes is the whole value of the attribute, and
    a slot. *)
Example createTemplate_quoted_attribute :
  match createTemplate 4 Host.document [str "<i class='"; str "'></i>"]
          Host.emptyDom with
  | Ok (template, _) => slots template = [TemplateAttrValueSlot [0] (str "class")]
  | _ => False
  end.
Proof. vm_compute. reflexivity. Qed.

(** A node given to an attribute slot that [null] has cleared before: the
    element has no such attribute any more, and observers see the warning
    only. *)
Example updateAttrValueSlot_node_after_null :
  let d1 := Sample.outcome
              (updateAttrValueSlot Sample.classSlot ArgNull Sample.page) in
  let d2 := Sample.outcome (updateAttrValueSlot Sample.classSlot (ArgNode 4) d1) in
  trace d1 = trace Sample.page ++ [AttributeRemoved 1 (str "class")] /\
  trace d2 = trace d1 ++ [ConsoleWarn warnFormat [] 4] /\
  getAttribute d2 1 (str "class") = None.
Proof. vm_compute. done. Qed.

Lemma updateAttrValueSlot_node_witness :
  let slots := [InstanceAttrValueSlot Sample.classSlot] in
  slotElement Sample.classSlot = Some 1 /\
  payloadOf Sample.page 1 = Some (Element (str "p") [(str "class", str "x")]) /\
  NoDup [(str "class", str "x")].*1 /\
  slots !! 0 = Some (InstanceAttrValueSlot Sample.classSlot) /\
  argAt [ArgNode 4] 0 = ArgNode 4 /\
  exists d',
    updateAttrValueSlot Sample.classSlot (ArgNode 4) Sample.page = Ok (tt, d') /\
    trace d' = trace Sample.page
               ++ ConsoleWarn warnFormat (windowName Sample.page) 4
                  :: match getAttribute Sample.page 1 (slotName Sample.classSlot) with
                     | Some _ => [AttributeRemoved 1 (slotName Sample.classSlot)]
                     | None => []
                     end /\
    getAttribute d' 1 (slotName Sample.classSlot) = None /\
    updateSlots 1 slots [ArgNode 4] 0 1 Sample.page
    = updateSlots 1 slots [ArgNode 4] 1 0 d'.
Proof.
  cbn zeta.
  assert (NoDup [(str "class", str "x")].*1) as Hnd.
  { apply NoDup_singleton. }
  split; [reflexivity|]. split; [vm_compute; reflexivity|]. split; [exact Hnd|].
  split; [reflexivity|]. split; [reflexivity|].
  apply (updateAttrValueSlot_node 1 Sample.page Sample.classSlot 1 (str "p")
           [(str "class", str "x")] 4 [InstanceAttrValueSlot Sample.classSlot]
           [ArgNode 4] 0 0);
    [reflexivity|vm_compute; reflexivity|exact Hnd|reflexivity|reflexivity].
Defined.

Lemma updateAttrValueSlot_frame_witness :
  let arg := ArgString (str "y") in
  let d' := Sample.outcome (updateAttrValueSlot Sample.classSlot arg Sample.page) in
  slotElement Sample.classSlot = Some 1 /\
  payloadOf Sample.page 1 = Some (Element (str "p") [(str "class", str "x")]) /\
  updateAttrValueSlot Sample.classSlot arg Sample.page = Ok (tt, d') /\
  (forall q, q <> 1 -> node d' q = node Sample.page q) /\
  parentOf d' 1 = parentOf Sample.page 1 /\
  childrenOf d' 1 = childrenOf Sample.page 1 /\
  nextRef d' = nextRef Sample.page /\
  exists attrs',
    payloadOf d' 1 = Some (Element (str "p") attrs') /\
    filter (fun kv => kv.1 <> slotName Sample.classSlot) attrs'
    = filter (fun kv => kv.1 <> slotName Sample.classSlot) [(str "class", str "x")] /\
    forall a, a <> slotName Sample.classSlot ->
              getAttribute d' 1 a = getAttribute Sample.page 1 a.
Proof.
  cbn zeta. split; [reflexivity|]. split; [vm_compute; reflexivity|].
  split; [vm_compute; reflexivity|].
  apply (updateAttrValueSlot_frame Sample.page _ Sample.classSlot 1 (str "p")
           [(str "class", str "x")] (ArgString (str "y")));
    [reflexivity|vm_compute; reflexivity|vm_compute; reflexivity].
Defined.

(** ** Addresses are unique *)

Lemma resolves_nil d root n : resolves d root [] n <-> n = root.
Proof. unfold resolves. simpl. split; [by intros [= ->]|by intros ->]. Qed.

Lemma resolves_snoc d root q i n :
  resolves d root (q ++ [i]) n
  <-> exists m, resolves d root q m /\ childrenOf d m !! i = Some n.
Proof.
  unfold resolves. revert root. induction q as [|k q IH]; intros root; simpl.
  - split.
    + intros H. exists root. split; [done|].
      destruct (childrenOf d root !! i); [by injection H as ->|done].
    + intros (m & [= <-] & ->). done.
  - destruct (childrenOf d root !! k) as [r|]; [apply IH|].
    split.
    + destruct q; simpl; discriminate.
    + intros (m & Hm & _). destruct q; simpl in Hm; discriminate.
Qed.

Lemma resolves_cons d root i q n :
  resolves d root (i :: q) n
  <-> exists m, childrenOf d root !! i = Some m /\ resolves d m q n.
Proof.
  unfold resolves. simpl. destruct (childrenOf d root !! i) as [m|].
  - split; [intros H; by exists m|by intros (m' & [= <-] & H)].
  - split; [destruct q; simpl; discriminate|by intros (m' & H & _)].
Qed.

Lemma lookup_child d p i n :
  wf d -> childrenOf d p !! i = Some n ->
  parentOf d n = Some p /\ position n (childrenOf d p) = Some i.
Proof.
  intros Hwf Hi. pose proof (list_elem_of_lookup_2 _ _ _ Hi) as Hin. split.
  - by apply wf_child.
  - apply list_elem_of_split_length in Hi as (l1 & l2 & Hcs & ->).
    rewrite Hcs. apply position_app.
    eapply NoDup_app_cons_l. rewrite <- Hcs. by apply wf_nodup.
Qed.

Lemma resolves_unique d root p p' n :
  wf d -> parentOf d root = None ->
  resolves d root p n -> resolves d root p' n -> p = p'.
Proof.
  intros Hwf Hroot. revert p' n.
  induction p as [|i q IH] using rev_ind; intros p' n Hp Hp'.
  - apply resolves_nil in Hp as ->.
    destruct p' as [|i' q' _] using rev_ind; [done|].
    apply resolves_snoc in Hp' as (m & _ & Hi).
    apply (lookup_child d m i' root Hwf) in Hi as [Hpar _]. congruence.
  - apply resolves_snoc in Hp as (m & Hm & Hi).
    apply (lookup_child d m i n Hwf) in Hi as [Hpar Hpos].
    destruct p' as [|i' q' _] using rev_ind.
    + apply resolves_nil in Hp' as ->. congruence.
    + apply resolves_snoc in Hp' as (m' & Hm' & Hi').
      apply (lookup_child d m' i' n Hwf) in Hi' as [Hpar' Hpos'].
      assert (m' = m) as -> by congruence.
      assert (i' = i) as -> by congruence.
      f_equal. by eapply IH.
Qed.

Lemma countPreviousSiblings_sound d p r l1 l2 fuel index result :
  wf d -> childrenOf d p = l1 ++ r :: l2 ->
  countPreviousSiblings fuel d r index = Ok result -> result = index + length l1.
Proof.
  intros Hwf. revert r l2 fuel index.
  induction l1 as [|x l1 IH] using rev_ind; intros r l2 fuel index Hcs.
  - destruct fuel; simpl; rewrite (sibling_previous d Hwf p r [] l2 Hcs); simpl;
      intros [= <-]; lia.
  - destruct fuel as [|fuel]; simpl;
      rewrite (sibling_previous d Hwf p r _ l2 Hcs), last_snoc; [done|].
    rewrite <- app_assoc in Hcs. simpl in Hcs.
    intros H%(IH x (r :: l2) fuel (S index) Hcs). rewrite length_app. simpl. lia.
Qed.

Lemma pathToNodeLoop_sound d root fuel :
  wf d ->
  forall n result path,
    pathToNodeLoop fuel d root (Some n) result = Ok path ->
    exists prefix, path = prefix ++ result /\ resolves d root prefix n.
Proof.
  intros Hwf. induction fuel as [|fuel IH]; intros n result path;
    cbn [pathToNodeLoop].
  - case_decide as E; [|done]. intros [= <-]. injection E as ->.
    exists []. split; [done|]. by apply resolves_nil.
  - case_decide as E.
    { intros [= <-]. injection E as ->. exists []. split; [done|].
      by apply resolves_nil. }
    destruct (countPreviousSiblings (S fuel) d n 0) as [index| |] eqn:Hcount;
      [|done..].
    destruct (parentOf d n) as [p|] eqn:Hp.
    + intros (prefix & -> & Hres)%IH.
      pose proof (wf_parent d Hwf n p Hp) as Hin.
      apply list_elem_of_split in Hin as (l1 & l2 & Hcs).
      apply (countPreviousSiblings_sound d p n l1 l2 _ _ _ Hwf Hcs) in Hcount.
      simpl in Hcount. subst index.
      exists (prefix ++ [length l1]). split; [by rewrite <- app_assoc|].
      apply resolves_snoc. exists p. split; [done|].
      rewrite Hcs. by apply list_lookup_middle.
    + destruct fuel; cbn [pathToNodeLoop]; by rewrite decide_False.
Qed.

(** The address computed for a node is the one address it has. *)
Lemma pathToNode_is d root fuel n path path' :
  wf d -> parentOf d root = None ->
  resolves d root path n -> pathToNode fuel d root n = Ok path' -> path' = path.
Proof.
  intros Hwf Hroot Hres Hrun. unfold pathToNode in Hrun.
  apply (pathToNodeLoop_sound d root fuel Hwf) in Hrun as (prefix & -> & Hpre).
  rewrite app_nil_r. by eapply resolves_unique.
Qed.

(** ** Document order and insertion, on addresses *)

Lemma precedes_trans p1 p2 p3 : precedes p1 p2 -> precedes p2 p3 -> precedes p1 p3.
Proof.
  intros H12. revert p3. induction H12 as [i rest|i j rest rest' Hij|i rest rest' H IH];
    intros p3 H23; inversion H23; subst;
    first [ apply precedes_ancestor
          | apply precedes_sibling; lia
          | apply precedes_below; by apply IH ].
Qed.

Lemma precedes_app q p p' : precedes p p' -> precedes (q ++ p) (q ++ p').
Proof. intros H. induction q as [|a q IH]; [done|]. simpl. by constructor. Qed.

Lemma precedes_app_inv q p p' : precedes (q ++ p) (q ++ p') -> precedes p p'.
Proof.
  induction q as [|a q IH]; [done|]. simpl. intros H. inversion H; subst; [lia|].
  by apply IH.
Qed.

Lemma precedes_next_sibling q i rest : precedes (q ++ i :: rest) (q ++ [S i]).
Proof. apply precedes_app. constructor. lia. Qed.

Lemma precedes_first_child q : precedes q (q ++ [0]).
Proof.
  rewrite <- (app_nil_r q) at 1. apply precedes_app. constructor.
Qed.

Lemma bump_self at_ j : bump at_ j at_ = at_.
Proof.
  induction at_ as [|a at_ IH]; simpl; [done|].
  rewrite decide_True by done. by rewrite IH.
Qed.

Lemma bump_child at_ j k rest :
  bump at_ j (at_ ++ k :: rest)
  = at_ ++ (if decide (j < k) then S k else k) :: rest.
Proof.
  induction at_ as [|a at_ IH]; simpl.
  - by case_decide.
  - rewrite decide_True by done. by rewrite IH.
Qed.

Lemma bump_snoc at_ j q i :
  q <> at_ -> bump at_ j (q ++ [i]) = bump at_ j q ++ [i].
Proof.
  revert q. induction at_ as [|a at_ IH]; intros q Hne; simpl.
  - destruct q as [|k q]; [done|]. simpl. by case_decide.
  - destruct q as [|b q]; simpl.
    + case_decide; [|done]. by destruct at_.
    + case_decide; [|done]. subst. simpl. f_equal. apply IH. congruence.
Qed.

(** Addresses up to the insertion point stay as they are. *)
Lemma bump_before at_ j p :
  precedes p (at_ ++ [j]) \/ p = at_ ++ [j] -> bump at_ j p = p.
Proof.
  revert p. induction at_ as [|a at_ IH]; intros p [H| ->]; simpl.
  - inversion H as [? ?|? ? ? ? Hlt|? ? ? Hbelow]; subst; [done| |].
    + rewrite decide_False; [done|lia].
    + inversion Hbelow.
  - rewrite decide_False; [done|lia].
  - inversion H as [? ?|? ? ? ? Hlt|? ? ? Hbelow]; subst; [done| |].
    + rewrite decide_False; [done|lia].
    + rewrite decide_True by done. f_equal. apply IH. by left.
  - rewrite decide_True by done. f_equal. apply IH. by right.
Qed.

(** Addresses after a childless node at or past the insertion point stay
    after it, once it has moved up by one. *)
Lemma bump_after at_ j i p :
  j <= i -> precedes (at_ ++ [i]) p ->
  (forall k rest, p <> at_ ++ i :: k :: rest) ->
  precedes (at_ ++ [S i]) (bump at_ j p).
Proof.
  intros Hji. revert p. induction at_ as [|a at_ IH]; intros p H Hleaf; simpl in *.
  - inversion H as [? ?|? ? ? ? Hlt|? ? ? Hbelow]; subst.
    + rewrite decide_True by lia. apply precedes_sibling. lia.
    + inversion Hbelow; subst. by destruct (Hleaf i0 rest).
  - inversion H as [? ?|? ? ? ? Hlt|? ? ? Hbelow]; subst.
    + rewrite decide_False by lia. apply precedes_sibling. lia.
    + rewrite decide_True by done. apply precedes_below. apply IH; [done|].
      intros k rest ->. by apply (Hleaf k rest).
Qed.

(** ** Addresses after an insertion *)

Lemma resolves_insert d d' root at_ P j new :
  wf d -> parentOf d root = None -> resolves d root at_ P ->
  (forall m, m <> P -> childrenOf d' m = childrenOf d m) ->
  childrenOf d' P
  = take (S j) (childrenOf d P) ++ new :: drop (S j) (childrenOf d P) ->
  j < length (childrenOf d P) ->
  forall p n, resolves d root p n -> resolves d' root (bump at_ j p) n.
Proof.
  intros Hwf Hroot HP Hother Hkids Hj.
  induction p as [|i q IH] using rev_ind; intros n Hp.
  - apply resolves_nil in Hp as ->. destruct at_; by apply resolves_nil.
  - apply resolves_snoc in Hp as (m & Hm & Hi).
    destruct (decide (m = P)) as [->|Hne].
    + assert (q = at_) as -> by (by eapply resolves_unique).
      rewrite bump_child. apply resolves_snoc. exists P. split.
      * specialize (IH P Hm). by rewrite bump_self in IH.
      * rewrite Hkids. case_decide.
        -- rewrite lookup_app_r by (rewrite length_take; lia).
           rewrite length_take. replace (S j `min` length (childrenOf d P)) with (S j)
             by lia.
           replace (S i - S j) with (S (i - S j)) by lia. simpl.
           rewrite lookup_drop. rewrite <- Hi. f_equal. lia.
        -- rewrite lookup_app_l by (rewrite length_take; lia).
           rewrite lookup_take_lt by lia. done.
    + rewrite bump_snoc.
      * apply resolves_snoc. exists m. split; [by apply IH|].
        by rewrite Hother.
      * intros ->. apply Hne. eapply (f_equal (fun x => x)).
        unfold resolves in *. congruence.
Qed.

Lemma resolves_inserted d d' root at_ P j new :
  wf d -> parentOf d root = None -> resolves d root at_ P ->
  (forall m, m <> P -> childrenOf d' m = childrenOf d m) ->
  childrenOf d' P
  = take (S j) (childrenOf d P) ++ new :: drop (S j) (childrenOf d P) ->
  j < length (childrenOf d P) ->
  resolves d' root (at_ ++ [S j]) new.
Proof.
  intros Hwf Hroot HP Hother Hkids Hj. apply resolves_snoc. exists P. split.
  - rewrite <- (bump_self at_ j). by eapply resolves_insert.
  - rewrite Hkids. apply list_lookup_middle. rewrite length_take. lia.
Qed.

(** ** [splitText] *)

Lemma insertAt_after (new r : NodeRef) A B :
  NoDup (A ++ r :: B) ->
  insertAt new (head B) (A ++ r :: B) = A ++ r :: new :: B.
Proof.
  intros Hnd. unfold insertAt. destruct B as [|b B]; simpl.
  - rewrite take_ge, drop_ge by done. by rewrite <- app_assoc.
  - replace (A ++ r :: b :: B) with ((A ++ [r]) ++ b :: B) in *
      by (by rewrite <- app_assoc).
    rewrite position_app by (by eapply NoDup_app_cons_l).
    simpl. rewrite take_app_length, drop_app_length. by rewrite <- app_assoc.
Qed.

Lemma splitText_spec d r s offset :
  payloadOf d r = Some (Text s) -> offset <= length s ->
  splitText r offset d = Ok (nextRef d, splitOff r offset s d).
Proof.
  intros (n & Hn & Hp)%payloadOf_node Hoff. unfold splitText, bind at 1, read.
  rewrite Hn, Hp. rewrite decide_False by lia.
  unfold bind, alloc, get, splitOff, parentOf. rewrite Hn. simpl.
  by destruct (parentNode n).
Qed.

Section SplitOff.
Context (d : Dom) (Hwf : wf d).
Context (r P : NodeRef) (A B : list NodeRef) (s : JSString) (offset : nat).
Context (Hcs : childrenOf d P = A ++ r :: B).
Context (Hs : payloadOf d r = Some (Text s)).

Let new := nextRef d.
Let d' := splitOff r offset s d.

Lemma splitOff_eq :
  d' = emit (CharacterData r (take offset s))
         (setPayload r (Text (take offset s))
            (attach new P (head B) (allocated (Text (drop offset s)) d))).
Proof using Hwf Hcs.
  subst d' new. unfold splitOff. rewrite (sibling_parentOf d Hwf P r A B Hcs).
  assert (nextSibling (allocated (Text (drop offset s)) d) r = head B) as ->; [|done].
  apply (sibling_next _ (wf_allocated d _ Hwf) P r A B).
  by rewrite childrenOf_allocated.
Qed.

Lemma live_parent_split : live d P = true.
Proof using Hcs.
  eapply live_childrenOf. rewrite Hcs. apply elem_of_app. right. by left.
Qed.

Lemma new_ne_parent : new <> P.
Proof using Hwf Hcs.
  intros E. pose proof live_parent_split as HP. rewrite <- E in HP.
  subst new. by rewrite (fresh_not_live d Hwf) in HP.
Qed.

Lemma childrenOf_splitOff q :
  childrenOf d' q = if decide (q = P) then A ++ r :: new :: B else childrenOf d q.
Proof using Hwf Hcs.
  rewrite splitOff_eq. dom_simpl. rewrite childrenOf_allocated by done.
  case_decide as E; [|by rewrite decide_False by congruence].
  subst q. rewrite decide_True by done.
  rewrite live_allocated, decide_False by apply new_ne_parent.
  rewrite live_parent_split, Hcs. apply insertAt_after.
  rewrite <- Hcs. by apply wf_nodup.
Qed.

Lemma parentOf_splitOff q :
  parentOf d' q = if decide (q = new) then Some P else parentOf d q.
Proof using Hwf Hcs.
  rewrite splitOff_eq. dom_simpl. rewrite parentOf_allocated by done.
  case_decide as E; [|by rewrite decide_False by congruence].
  subst q. rewrite decide_True by done.
  rewrite live_allocated. by rewrite decide_True.
Qed.

Lemma payloadOf_splitOff q :
  payloadOf d' q
  = if decide (q = r) then Some (Text (take offset s))
    else if decide (q = new) then Some (Text (drop offset s))
    else payloadOf d q.
Proof using Hwf Hcs Hs.
  rewrite splitOff_eq. dom_simpl. rewrite live_allocated, payloadOf_allocated.
  subst new. destruct (decide (r = q)) as [<-|E1].
  - rewrite (decide_True (P := r = r)) by done.
    rewrite (live_payloadOf _ _ _ Hs). by destruct (decide (nextRef d = r)).
  - rewrite (decide_False (P := q = r)) by congruence.
    destruct (decide (nextRef d = q)) as [<-|E2].
    + by rewrite decide_True.
    + by rewrite decide_False by congruence.
Qed.

Lemma live_splitOff q :
  live d' q = if decide (q = new) then true else live d q.
Proof using Hwf Hcs.
  rewrite splitOff_eq. dom_simpl. rewrite live_allocated. subst new.
  destruct (decide (nextRef d = q)) as [<-|E];
    [by rewrite decide_True|by rewrite decide_False by congruence].
Qed.

Lemma wf_splitOff : wf d'.
Proof using All.
  rewrite splitOff_eq. apply wf_emit.
  destruct (moveBefore_parent_payload d Hwf P r A B Hcs) as (y & Hy & Hcan).
  eapply (wf_setPayload _ _ _ (Text s)); [| |done|done].
  - eapply wf_attach; [by apply wf_allocated|..].
    + rewrite parentOf_allocated by done.
      pose proof (fresh_not_live d Hwf) as Hf.
      by apply not_live in Hf as (_ & ? & _).
    + rewrite live_allocated. by rewrite decide_True.
    + unfold isFragment. rewrite payloadOf_allocated. by rewrite decide_True.
    + rewrite payloadOf_allocated, decide_False; [exact Hy|].
      apply new_ne_parent.
    + done.
  - dom_simpl. rewrite payloadOf_allocated, decide_False; [done|].
    intros E. pose proof (live_payloadOf _ _ _ Hs) as Hl. rewrite <- E in Hl.
    by rewrite (fresh_not_live d Hwf) in Hl.
Qed.
End SplitOff.

Lemma resolves_fun d root p n n' : resolves d root p n -> resolves d root p n' -> n = n'.
Proof. unfold resolves. congruence. Qed.

Lemma nextSibling_lookup d P i n :
  wf d -> childrenOf d P !! i = Some n ->
  nextSibling d n = childrenOf d P !! S i.
Proof.
  intros Hwf Hi. apply (lookup_child d P i n Hwf) in Hi as [Hpar Hpos].
  unfold nextSibling, siblingIndex. rewrite Hpar. simpl. by rewrite Hpos.
Qed.

Lemma nextSibling_Some d n x :
  wf d -> nextSibling d n = Some x ->
  exists P i, childrenOf d P !! i = Some n /\ childrenOf d P !! S i = Some x.
Proof.
  intros Hwf. unfold nextSibling, siblingIndex.
  destruct (parentOf d n) as [P|]; [|done]. simpl.
  destruct (position n (childrenOf d P)) as [i|] eqn:Hpos; [|done]. simpl.
  intros Hx. exists P, i. split; [|done]. by apply position_Some.
Qed.

Lemma resolves_next d root at_ i n x :
  wf d -> resolves d root (at_ ++ [i]) n -> resolves d root (at_ ++ [S i]) x ->
  nextSibling d n = Some x.
Proof.
  intros Hwf (P & HP & Hn)%resolves_snoc (P' & HP' & Hx)%resolves_snoc.
  rewrite (resolves_fun _ _ _ _ _ HP' HP) in Hx.
  by rewrite (nextSibling_lookup d P i n Hwf Hn).
Qed.

Lemma text_childless d r s : wf d -> payloadOf d r = Some (Text s) -> childrenOf d r = [].
Proof.
  intros Hwf Hs. destruct (childrenOf d r) as [|c cs] eqn:Hcs; [done|].
  assert (c ∈ childrenOf d r) as Hc by (rewrite Hcs; by left).
  by pose proof (wf_leaf d Hwf r c _ Hc Hs).
Qed.

Lemma resolves_through_leaf d root at_ i k rest n c :
  resolves d root (at_ ++ [i]) n -> childrenOf d n = [] ->
  ~ resolves d root (at_ ++ i :: k :: rest) c.
Proof.
  intros Hn Hleaf Hc. unfold resolves in *.
  replace (at_ ++ i :: k :: rest) with ((at_ ++ [i]) ++ k :: rest) in Hc
    by (by rewrite <- app_assoc).
  rewrite (nodeFromPath_app _ _ _ _ _ Hn) in Hc. simpl in Hc.
  rewrite Hleaf in Hc. simpl in Hc. by destruct rest.
Qed.

(** One [splitText] at the node with address [at_ ++ [j]]. *)
Lemma split_step d root at_ j T s offset :
  wf d -> parentOf d root = None ->
  resolves d root (at_ ++ [j]) T -> payloadOf d T = Some (Text s) ->
  let d' := splitOff T offset s d in
  (wf d' /\ parentOf d' root = None /\
   resolves d' root (at_ ++ [j]) T /\ resolves d' root (at_ ++ [S j]) (nextRef d) /\
   payloadOf d' T = Some (Text (take offset s)) /\
   payloadOf d' (nextRef d) = Some (Text (drop offset s)) /\
   (forall q, q <> T -> q <> nextRef d -> payloadOf d' q = payloadOf d q) /\
   (forall p n, resolves d root p n -> resolves d' root (bump at_ j p) n) /\
   (forall n, nextSibling d n <> None -> nextSibling d' n <> None)).
Proof.
  intros Hwf Hroot HT Hs. cbn zeta.
  pose proof HT as (P & HP & Hj)%resolves_snoc.
  pose proof Hj as (A & B & Hcs & HA)%list_elem_of_split_length.
  pose proof (childrenOf_splitOff d Hwf T P A B s offset Hcs) as Hkids.
  pose proof (wf_splitOff d Hwf T P A B s offset Hcs Hs) as Hwf'.
  assert (forall m, m <> P ->
            childrenOf (splitOff T offset s d) m = childrenOf d m) as Hother.
  { intros m Hm. by rewrite Hkids, decide_False. }
  assert (childrenOf (splitOff T offset s d) P
          = take (S j) (childrenOf d P) ++ nextRef d :: drop (S j) (childrenOf d P))
    as HkidsP.
  { rewrite Hkids, decide_True, Hcs by done. subst j.
    replace (A ++ T :: B) with ((A ++ [T]) ++ B) by (by rewrite <- app_assoc).
    replace (S (length A)) with (length (A ++ [T])) by (rewrite length_app; simpl; lia).
    rewrite take_app_length, drop_app_length. by rewrite <- app_assoc. }
  assert (j < length (childrenOf d P)) as Hlen by (by eapply lookup_lt_Some).
  pose proof (resolves_insert d _ root at_ P j (nextRef d)
                Hwf Hroot HP Hother HkidsP Hlen) as Hres.
  split_and!.
  - done.
  - rewrite (parentOf_splitOff d Hwf T P A B s offset Hcs), decide_False; [done|].
    intros ->. pose proof (fresh_not_live d Hwf) as Hf.
    apply not_live in Hf as (_ & _ & Hkidsroot).
    destruct at_ as [|a at_].
    + apply resolves_nil in HP. subst P. rewrite Hkidsroot in Hj. done.
    + apply resolves_cons in HP as (m & Hm & _). by rewrite Hkidsroot in Hm.
  - specialize (Hres _ _ HT). by rewrite bump_before in Hres by (by right).
  - exact (resolves_inserted d _ root at_ P j (nextRef d)
             Hwf Hroot HP Hother HkidsP Hlen).
  - rewrite (payloadOf_splitOff d Hwf T P A B s offset Hcs Hs).
    by rewrite decide_True.
  - rewrite (payloadOf_splitOff d Hwf T P A B s offset Hcs Hs).
    rewrite decide_False, decide_True; [done|done|].
    intros E. pose proof (live_payloadOf _ _ _ Hs) as Hl. rewrite <- E in Hl.
    by rewrite (fresh_not_live d Hwf) in Hl.
  - intros q H1 H2. rewrite (payloadOf_splitOff d Hwf T P A B s offset Hcs Hs).
    by rewrite !decide_False.
  - done.
  - intros n Hn. destruct (nextSibling d n) as [x|] eqn:Hx; [|done].
    apply (nextSibling_Some d n x Hwf) in Hx as (Pn & i & Hi & HSi).
    destruct (decide (Pn = P)) as [->|HneP].
    + destruct (decide (i < S j)) as [Hlt|Hge].
      * rewrite (nextSibling_lookup _ P i n Hwf'); [|].
        -- rewrite HkidsP. destruct (decide (S i < S j)).
           ++ rewrite lookup_app_l by (rewrite length_take; lia).
              rewrite lookup_take_lt by lia. by rewrite HSi.
           ++ assert (i = j) as -> by lia.
              by rewrite list_lookup_middle by (rewrite length_take; lia).
        -- rewrite HkidsP. rewrite lookup_app_l by (rewrite length_take; lia).
           by rewrite lookup_take_lt by lia.
      * assert (forall k, S j <= k ->
                  (take (S j) (childrenOf d P) ++ nextRef d :: drop (S j) (childrenOf d P))
                    !! S k = childrenOf d P !! k) as Hshift.
        { intros k Hk. rewrite lookup_app_r by (rewrite length_take; lia).
          rewrite length_take.
          replace (S j `min` length (childrenOf d P)) with (S j) by lia.
          replace (S k - S j) with (S (k - S j)) by lia. simpl.
          rewrite lookup_drop. f_equal. lia. }
        rewrite (nextSibling_lookup _ P (S i) n Hwf').
        -- rewrite HkidsP, Hshift by lia. by rewrite HSi.
        -- rewrite HkidsP, Hshift by lia. done.
    + rewrite (nextSibling_lookup _ Pn i n Hwf') by (by rewrite Hother).
      rewrite Hother by done. by rewrite HSi.
Qed.

(** ** The compiler's text case: the slots found keep a next sibling *)

Lemma slotsBefore_weaken d root slots b b' :
  precedes b b' -> slotsBefore d root slots b -> slotsBefore d root slots b'.
Proof.
  intros Hbb' H p Hp. destruct (H p Hp) as (n & Hn & Hnext & Hpre).
  exists n. split_and!; [done|done|]. by eapply precedes_trans.
Qed.

Lemma slotsBefore_split d d' root slots at_ j :
  slotsBefore d root slots (at_ ++ [j]) ->
  (forall p n, resolves d root p n -> resolves d' root (bump at_ j p) n) ->
  (forall n, nextSibling d n <> None -> nextSibling d' n <> None) ->
  slotsBefore d' root slots (at_ ++ [j]).
Proof.
  intros H Hres Hnext p Hp. destruct (H p Hp) as (n & Hn & Hnx & Hpre).
  exists n. split_and!; [|by apply Hnext|done].
  apply Hres in Hn. by rewrite bump_before in Hn by (by left).
Qed.

Lemma slotsBefore_snoc d root slots b p n :
  slotsBefore d root slots b ->
  resolves d root p n -> nextSibling d n <> None -> precedes p b ->
  slotsBefore d root (slots ++ [TemplateNodeSlot p]) b.
Proof.
  intros H Hn Hnext Hpre q [Hq|Hq]%elem_of_app; [by apply H|].
  apply list_elem_of_singleton in Hq. injection Hq as ->. by exists n.
Qed.

Lemma slotsBefore_attr d root slots b p name :
  slotsBefore d root slots b ->
  slotsBefore d root (slots ++ [TemplateAttrValueSlot p name]) b.
Proof.
  intros H q [Hq|Hq]%elem_of_app; [by apply H|].
  by apply list_elem_of_singleton in Hq.
Qed.

Lemma getData_Text d r s : payloadOf d r = Some (Text s) -> getData r d = Ok (s, d).
Proof.
  intros (n & Hn & Hp)%payloadOf_node. unfold getData, bind, read.
  by rewrite Hn, Hp.
Qed.

Lemma splitText_inv d r s offset new d' :
  payloadOf d r = Some (Text s) -> splitText r offset d = Ok (new, d') ->
  new = nextRef d /\ d' = splitOff r offset s d.
Proof.
  intros Hs Hrun. destruct (decide (length s < offset)) as [Hlt|Hge].
  - apply payloadOf_node in Hs as (n & Hn & Hp).
    unfold splitText, bind, read in Hrun. rewrite Hn, Hp in Hrun.
    by rewrite decide_True in Hrun.
  - rewrite (splitText_spec d r s offset Hs) in Hrun by lia.
    by injection Hrun as <- <-.
Qed.

Lemma isFragment_root_parent d root : wf d -> isFragment d root -> parentOf d root = None.
Proof. intros Hwf. by apply wf_fragment. Qed.

Lemma isFragment_split d root T s offset :
  wf d -> isFragment d root -> payloadOf d T = Some (Text s) ->
  (forall q, q <> T -> q <> nextRef d ->
     payloadOf (splitOff T offset s d) q = payloadOf d q) ->
  isFragment (splitOff T offset s d) root.
Proof.
  intros Hwf Hroot Hs Hframe. unfold isFragment in *. rewrite Hframe; [done| |].
  - intros ->. congruence.
  - intros ->. pose proof (live_payloadOf _ _ _ Hroot) as Hl.
    by rewrite (fresh_not_live d Hwf) in Hl.
Qed.

Lemma splitMarkers_inv content fuel :
  forall d text slots at_ j (c : option NodeRef) slots' d',
    wf d -> isFragment d content ->
    resolves d content (at_ ++ [j]) text ->
    (exists s, payloadOf d text = Some (Text s)) ->
    slotsBefore d content slots (at_ ++ [j]) ->
    (forall c', c = Some c' ->
       exists pc, resolves d content pc c' /\ precedes (at_ ++ [j]) pc) ->
    splitMarkers fuel content text slots d = Ok (slots', d') ->
    wf d' /\ isFragment d' content /\
    exists j',
      slotsBefore d' content slots' (at_ ++ [j']) /\
      (forall c', c = Some c' ->
         exists pc, resolves d' content pc c' /\ precedes (at_ ++ [j']) pc).
Proof.
  induction fuel as [|fuel IH];
    intros d text slots at_ j c slots' d' Hwf Hfrag Htext (s & Hs) Hslots Hc Hrun.
  - cbn [splitMarkers] in Hrun. rewrite (bind_Ok _ _ _ _ _ (getData_Text d text s Hs)) in Hrun.
    destruct (0 <=? indexOf s replacement)%Z; [done|].
    injection Hrun as <- <-. split_and!; [done|done|]. by exists j.
  - cbn [splitMarkers] in Hrun. rewrite (bind_Ok _ _ _ _ _ (getData_Text d text s Hs)) in Hrun.
    destruct (0 <=? indexOf s replacement)%Z.
    2:{ injection Hrun as <- <-. split_and!; [done|done|]. by exists j. }
    set (off1 := Z.to_nat (indexOf s replacement + 1)) in *.
    set (off2 := Z.to_nat (indexOf s replacement)) in *.
    apply bind_inv in Hrun as (N1 & d1 & Hsplit1 & Hrun).
    apply (splitText_inv d text s off1 N1 d1 Hs) in Hsplit1 as [-> ->].
    pose proof (isFragment_root_parent d content Hwf Hfrag) as Hroot.
    destruct (split_step d content at_ j text s off1 Hwf Hroot Htext Hs)
      as (Hwf1 & Hroot1 & HT1 & HN1 & HsT1 & HsN1 & Hframe1 & Hres1 & Hnext1).
    pose proof (isFragment_split d content text s off1 Hwf Hfrag Hs Hframe1) as Hfrag1.
    pose proof (text_childless d text s Hwf Hs) as Hleaf.
    set (d1 := splitOff text off1 s d) in *.
    assert (forall c', c = Some c' ->
              exists pc, resolves d1 content pc c' /\ precedes (at_ ++ [S j]) pc)
      as Hc1.
    { intros c' Hc'. destruct (Hc c' Hc') as (pc & Hpc & Hpre).
      exists (bump at_ j pc). split; [by apply Hres1|].
      apply bump_after; [lia|done|]. intros k rest ->.
      by apply (resolves_through_leaf d content at_ j k rest text c'). }
    pose proof (slotsBefore_split d d1 content slots at_ j Hslots Hres1 Hnext1)
      as Hslots1.
    destruct (indexOf s replacement =? 0)%Z.
    + (* the marker opens the text: the text node itself is the slot *)
      unfold bind at 1, ret in Hrun. unfold bind at 1, get in Hrun.
      apply bind_inv in Hrun as (path & d1' & Hpath & Hrun).
      unfold liftResult in Hpath.
      destruct (pathToNode (S fuel) d1 content text) as [path'| |] eqn:Hp;
        [|done..]. injection Hpath as -> <-.
      apply (pathToNode_is d1 content _ text (at_ ++ [j]) _ Hwf1 Hroot1 HT1) in Hp.
      subst path.
      eapply (IH d1 (nextRef d) _ at_ (S j) c); try done.
      * by eexists.
      * apply slotsBefore_snoc with (n := text).
        -- eapply slotsBefore_weaken; [|exact Hslots1].
           apply (precedes_next_sibling at_ j []).
        -- done.
        -- by rewrite (resolves_next d1 content at_ j text (nextRef d) Hwf1 HT1 HN1).
        -- apply (precedes_next_sibling at_ j []).
    + (* text before the marker: a second split isolates the marker *)
      apply bind_inv in Hrun as (N2 & d2 & Hsplit2 & Hrun).
      apply (splitText_inv d1 text _ off2 N2 d2 HsT1) in Hsplit2 as [-> ->].
      destruct (split_step d1 content at_ j text _ off2 Hwf1 Hroot1 HT1 HsT1)
        as (Hwf2 & Hroot2 & HT2 & HN2 & HsT2 & HsN2 & Hframe2 & Hres2 & Hnext2).
      pose proof (isFragment_split d1 content text _ off2 Hwf1 Hfrag1 HsT1 Hframe2)
        as Hfrag2.
      pose proof (text_childless d1 (nextRef d) _ Hwf1 HsN1) as Hleaf1.
      set (d2 := splitOff text off2 (take off1 s) d1) in *.
      assert (resolves d2 content (at_ ++ [S (S j)]) (nextRef d)) as HN1'.
      { apply Hres2 in HN1. rewrite bump_child in HN1.
        by rewrite decide_True in HN1 by lia. }
      assert (payloadOf d2 (nextRef d) = Some (Text (drop off1 s))) as HsN1'.
      { rewrite Hframe2; [done| |].
        - intros E. pose proof (live_payloadOf _ _ _ Hs) as Hl. rewrite <- E in Hl.
          by rewrite (fresh_not_live d Hwf) in Hl.
        - intros E. pose proof (live_payloadOf _ _ _ HsN1) as Hl. rewrite E in Hl.
          by rewrite (fresh_not_live d1 Hwf1) in Hl. }
      unfold bind at 1, get in Hrun.
      apply bind_inv in Hrun as (path & d2' & Hpath & Hrun).
      unfold liftResult in Hpath.
      destruct (pathToNode (S fuel) d2 content (nextRef d1)) as [path'| |] eqn:Hp;
        [|done..]. injection Hpath as -> <-.
      apply (pathToNode_is d2 content _ _ (at_ ++ [S j]) _ Hwf2 Hroot2 HN2) in Hp.
      subst path.
      eapply (IH d2 (nextRef d) _ at_ (S (S j)) c); try done.
      * by eexists.
      * apply slotsBefore_snoc with (n := nextRef d1).
        -- eapply slotsBefore_weaken;
             [|exact (slotsBefore_split d1 d2 content slots at_ j
                        Hslots1 Hres2 Hnext2)].
           eapply precedes_trans; [apply (precedes_next_sibling at_ j [])|].
           apply (precedes_next_sibling at_ (S j) []).
        -- done.
        -- by rewrite (resolves_next d2 content at_ (S j) _ (nextRef d)
                         Hwf2 HN2 HN1').
        -- apply (precedes_next_sibling at_ (S j) []).
      * intros c' Hc'. destruct (Hc1 c' Hc') as (pc & Hpc & Hpre).
        exists (bump at_ j pc). split; [by apply Hres2|].
        apply bump_after; [lia|done|]. intros k rest ->.
        by apply (resolves_through_leaf d1 content at_ (S j) k rest (nextRef d) c').
Qed.

(** ** The node iterator moves forward in document order *)

Lemma resolves_root_or_child d root pn n :
  resolves d root pn n ->
  n = root /\ pn = [] \/
  exists q i P, pn = q ++ [i] /\ resolves d root q P /\ childrenOf d P !! i = Some n.
Proof.
  destruct pn as [|i q _] using rev_ind; intros H.
  - left. by apply resolves_nil in H.
  - right. apply resolves_snoc in H as (P & HP & Hi). by exists q, i, P.
Qed.

Lemma followingSibling_resolves d root fuel :
  wf d -> parentOf d root = None ->
  forall n pn c,
    resolves d root pn n -> followingSibling fuel d root n = Some c ->
    exists r a rest, pn = r ++ a :: rest /\ resolves d root (r ++ [S a]) c.
Proof.
  intros Hwf Hroot. induction fuel as [|fuel IH]; intros n pn c Hn Hrun;
    cbn [followingSibling] in Hrun; case_decide as Hne; try done;
    destruct (resolves_root_or_child d root pn n Hn)
      as [[-> _]|(q & i & P & -> & HP & Hi)]; try done;
    rewrite (nextSibling_lookup d P i n Hwf Hi) in Hrun.
  - destruct (childrenOf d P !! S i) as [s|] eqn:HSi; [|done].
    injection Hrun as <-. exists q, i, []. split; [done|].
    apply resolves_snoc. by exists P.
  - destruct (childrenOf d P !! S i) as [s|] eqn:HSi.
    + injection Hrun as <-. exists q, i, []. split; [done|].
      apply resolves_snoc. by exists P.
    + apply (lookup_child d P i n Hwf) in Hi as [Hpar _]. rewrite Hpar in Hrun.
      destruct (IH P q c HP Hrun) as (r & a & rest & -> & Hc).
      exists r, a, (rest ++ [i]). split; [|done].
      by rewrite <- app_assoc.
Qed.

Lemma following_resolves d root n pn c :
  wf d -> parentOf d root = None ->
  resolves d root pn n -> following d root n = Some c ->
  exists pc, resolves d root pc c /\ precedes pn pc.
Proof.
  intros Hwf Hroot Hn. unfold following, firstChild.
  destruct (childrenOf d n) as [|k kids] eqn:Hkids; simpl.
  - intros (r & a & rest & -> & Hc)%(followingSibling_resolves d root _ Hwf Hroot n pn c Hn).
    exists (r ++ [S a]). split; [done|]. apply precedes_next_sibling.
  - intros [= <-]. exists (pn ++ [0]). split; [|apply precedes_first_child].
    apply resolves_snoc. exists n. split; [done|]. by rewrite Hkids.
Qed.

Lemma traverseNext_resolves d root fuel :
  wf d -> parentOf d root = None ->
  forall n pn b c,
    resolves d root pn n -> traverseNext fuel d root n b = Some c ->
    exists pc, resolves d root pc c /\ (b = false -> precedes pn pc).
Proof.
  intros Hwf Hroot. induction fuel as [|fuel IH]; intros n pn b c Hn Hrun;
    cbn [traverseNext] in Hrun.
  - destruct b.
    + destruct (shown d n); [|done]. injection Hrun as <-. by exists pn.
    + destruct (following d root n) as [c1|] eqn:Hf; [|done].
      destruct (shown d c1); [|done]. injection Hrun as <-.
      destruct (following_resolves d root n pn c1 Hwf Hroot Hn Hf) as (pc & ? & ?).
      by exists pc.
  - destruct b.
    + destruct (shown d n).
      * injection Hrun as <-. by exists pn.
      * destruct (IH n pn false c Hn Hrun) as (pc & ? & ?). by exists pc.
    + destruct (following d root n) as [c1|] eqn:Hf; [|done].
      destruct (following_resolves d root n pn c1 Hwf Hroot Hn Hf) as (pc1 & H1 & Hpre1).
      destruct (shown d c1).
      * injection Hrun as <-. by exists pc1.
      * destruct (IH c1 pc1 false c H1 Hrun) as (pc & ? & Hpre).
        exists pc. split; [done|]. intros _. eapply precedes_trans; eauto.
Qed.

Lemma nextNode_inv d it next it' d' :
  wf d -> parentOf d (iteratorRoot it) = None ->
  nextNode it d = Ok ((next, it'), d') ->
  d' = d /\ iteratorRoot it' = iteratorRoot it /\
  forall c, next = Some c ->
    referenceNode it' = c /\ pointerBeforeReference it' = false /\
    forall pn, resolves d (iteratorRoot it) pn (referenceNode it) ->
      exists pc, resolves d (iteratorRoot it) pc c /\
                 (pointerBeforeReference it = false -> precedes pn pc).
Proof.
  intros Hwf Hroot. unfold nextNode, bind, get.
  destruct (traverseNext _ d (iteratorRoot it) (referenceNode it)
              (pointerBeforeReference it)) as [c|] eqn:Htr;
    unfold ret; intros [= <- <- <-]; split_and!; try done.
  intros c' [= <-]. split_and!; try done. intros pn Hpn.
  by eapply traverseNext_resolves.
Qed.

(** ** The walk: every node slot keeps a next sibling *)

Lemma attributeSlots_inv fuel content el attrs :
  forall slots slots' d d',
    attributeSlots fuel content el attrs slots d = Ok (slots', d') ->
    d' = d /\
    forall p, TemplateNodeSlot p ∈ slots' -> TemplateNodeSlot p ∈ slots.
Proof.
  induction attrs as [|[name value] attrs IH]; intros slots slots' d d';
    cbn [attributeSlots].
  - by intros [= <- <-].
  - case_decide; [|apply IH].
    unfold bind at 1, get. unfold bind at 1, liftResult.
    destruct (pathToNode fuel d content el); [|done..].
    intros [-> Hsub]%IH. split; [done|]. intros p Hp.
    apply Hsub in Hp. apply elem_of_app in Hp as [?|Hp]; [done|].
    by apply list_elem_of_singleton in Hp.
Qed.

Lemma visit_inv content fuel d c pc slots (next : option NodeRef) slots1 d1 :
  wf d -> isFragment d content ->
  resolves d content pc c -> slotsBefore d content slots pc ->
  (forall c2, next = Some c2 ->
     exists pc2, resolves d content pc2 c2 /\ precedes pc pc2) ->
  visit fuel content c slots d = Ok (slots1, d1) ->
  wf d1 /\ isFragment d1 content /\
  exists b,
    slotsBefore d1 content slots1 b /\
    (forall c2, next = Some c2 ->
       exists pc2, resolves d1 content pc2 c2 /\ precedes b pc2).
Proof.
  intros Hwf Hfrag Hc Hslots Hnext Hrun. unfold visit in Hrun.
  apply bind_inv in Hrun as (x & d0 & Hread & Hrun).
  unfold read in Hread. destruct (node d c) as [x'|] eqn:Hnode; [|done].
  injection Hread as -> <-.
  destruct (payload x) as [tag attrs|s|s|] eqn:Hpay.
  - apply attributeSlots_inv in Hrun as [-> Hsub].
    split_and!; [done|done|]. exists pc. split; [|done].
    intros p Hp. by apply Hslots, Hsub.
  - assert (payloadOf d c = Some (Text s)) as Hs.
    { unfold payloadOf. by rewrite Hnode, <- Hpay. }
    destruct (resolves_root_or_child d content pc c Hc)
      as [[-> _]|(at_ & j & P & -> & _ & _)].
    { unfold isFragment in Hfrag. congruence. }
    destruct (splitMarkers_inv content fuel d c slots at_ j next slots1 d1)
      as (Hwf1 & Hfrag1 & j' & Hslots1 & Hnext1); [done..|by eexists|done|done|done|].
    split_and!; [done|done|]. by exists (at_ ++ [j']).
  - injection Hrun as <- <-. split_and!; [done|done|]. by exists pc.
  - injection Hrun as <- <-. split_and!; [done|done|]. by exists pc.
Qed.

Lemma slotsBefore_have d root slots b : slotsBefore d root slots b -> slotsHaveNext d root slots.
Proof.
  intros H p Hp. destruct (H p Hp) as (n & ? & ? & _). by exists n.
Qed.

Lemma walk_inv content fuel :
  forall d it n slots slots' d',
    wf d -> isFragment d content -> iteratorRoot it = content ->
    match n with
    | Some c =>
        referenceNode it = c /\ pointerBeforeReference it = false /\
        exists pc, resolves d content pc c /\ slotsBefore d content slots pc
    | None => slotsHaveNext d content slots
    end ->
    walk fuel content it n slots d = Ok (slots', d') ->
    wf d' /\ isFragment d' content /\ slotsHaveNext d' content slots'.
Proof.
  induction fuel as [|fuel IH]; intros d it n slots slots' d' Hwf Hfrag Hit Hn Hrun;
    cbn [walk] in Hrun; destruct n as [c|]; try done;
    try (by injection Hrun as <- <-).
  destruct Hn as (Href & Hptr & pc & Hpc & Hslots).
  apply bind_inv in Hrun as ([next it'] & d0 & Hnext & Hrun).
  pose proof (isFragment_root_parent d content Hwf Hfrag) as Hroot.
  rewrite <- Hit in Hroot.
  apply (nextNode_inv d it next it' d0 Hwf Hroot) in Hnext as (-> & Hit' & Hnext).
  rewrite Hit in *.
  apply bind_inv in Hrun as (slots1 & d1 & Hvisit & Hrun).
  assert (forall c2, next = Some c2 ->
            exists pc2, resolves d content pc2 c2 /\ precedes pc pc2) as Hnext'.
  { intros c2 Hc2. destruct (Hnext c2 Hc2) as (_ & _ & Hres).
    rewrite Href in Hres. destruct (Hres pc Hpc) as (pc2 & ? & Hpre).
    exists pc2. split; [done|]. by apply Hpre. }
  destruct (visit_inv content (S fuel) d c pc slots next slots1 d1
              Hwf Hfrag Hpc Hslots Hnext' Hvisit)
    as (Hwf1 & Hfrag1 & b & Hslots1 & Hnext1).
  apply (IH d1 it' next slots1 slots' d' Hwf1 Hfrag1 Hit'); [|done].
  destruct next as [c2|].
  - destruct (Hnext c2 eq_refl) as (Href2 & Hptr2 & _).
    destruct (Hnext1 c2 eq_refl) as (pc2 & Hpc2 & Hpre2).
    split_and!; [done|done|]. exists pc2. split; [done|].
    by eapply slotsBefore_weaken.
  - by eapply slotsBefore_have.
Qed.

(** ** The parsed tree is well formed *)

Lemma build_element parent tag attrs kids d :
  build parent (MElement tag attrs kids) d
  = buildAll (nextRef d) kids
      (link (nextRef d) parent None (allocated (Element tag attrs) d)).
Proof.
  cbn [build]. unfold bind, alloc, modify.
  generalize (link (nextRef d) parent None (allocated (Element tag attrs) d)).
  generalize (nextRef d). intros r.
  induction kids as [|k kids IH]; intros d0; [done|].
  cbn [buildAll]. unfold bind. destruct (build r k d0) as [[[] d1]| |]; [|done..].
  apply IH.
Qed.

Lemma build_inv m :
  forall parent x d d',
    wf d -> payloadOf d parent = Some x -> canHaveChildren x = true ->
    build parent m d = Ok (tt, d') ->
    wf d' /\
    (forall q, live d q = true -> payloadOf d' q = payloadOf d q) /\
    (forall q, live d q = true -> live d' q = true).
Proof.
  assert (forall parent x y d,
            wf d -> payloadOf d parent = Some x -> canHaveChildren x = true ->
            y <> DocumentFragment ->
            let d' := link (nextRef d) parent None (allocated y d) in
            (wf d' /\ payloadOf d' (nextRef d) = Some y /\
             (forall q, live d q = true -> payloadOf d' q = payloadOf d q) /\
             (forall q, live d q = true -> live d' q = true))) as Hleaf.
  { intros parent x y d Hwf Hp Hcan Hy. cbn zeta.
    pose proof (fresh_not_live d Hwf) as Hfresh.
    assert (forall q, live d q = true -> nextRef d <> q) as Hne.
    { intros q Hq E. rewrite <- E in Hq. congruence. }
    split_and!.
    - eapply wf_link; [by apply wf_allocated|..].
      + rewrite parentOf_allocated by done. by apply not_live in Hfresh as (_ & ? & _).
      + rewrite live_allocated. by rewrite decide_True.
      + unfold isFragment. rewrite payloadOf_allocated, decide_True by done.
        congruence.
      + rewrite payloadOf_allocated, decide_False; [exact Hp|].
        apply Hne. by eapply live_payloadOf.
      + done.
    - rewrite payloadOf_link, payloadOf_allocated. by rewrite decide_True.
    - intros q Hq. rewrite payloadOf_link, payloadOf_allocated.
      by rewrite decide_False by (by apply Hne).
    - intros q Hq. rewrite live_link, live_allocated. by case_decide. }
  induction m as [tag attrs kids IH|s|s] using Markup_nested_ind;
    intros parent x d d' Hwf Hp Hcan Hrun.
  - rewrite build_element in Hrun.
    destruct (Hleaf parent x (Element tag attrs) d Hwf Hp Hcan)
      as (Hwf0 & Hr & Hpay0 & Hlive0); [done|].
    revert Hrun Hwf0 Hr Hpay0 Hlive0.
    generalize (link (nextRef d) parent None (allocated (Element tag attrs) d)).
    generalize (nextRef d). intros r d0 Hrun Hwf0 Hr Hpay0 Hlive0.
    assert (wf d' /\
            (forall q, live d0 q = true -> payloadOf d' q = payloadOf d0 q) /\
            (forall q, live d0 q = true -> live d' q = true))
      as (Hwf' & Hpay' & Hlive').
    { clear Hpay0 Hlive0 Hp. revert d0 Hrun Hwf0 Hr.
      induction IH as [|k kids Hk _ IHkids]; intros d0 Hrun Hwf0 Hr.
      - injection Hrun as <-. by split_and!.
      - cbn [buildAll] in Hrun. apply bind_inv in Hrun as ([] & d1 & Hk1 & Hrun).
        destruct (Hk r _ d0 d1 Hwf0 Hr eq_refl Hk1) as (Hwf1 & Hpay1 & Hlive1).
        pose proof (live_payloadOf _ _ _ Hr) as Hlr.
        destruct (IHkids d1 Hrun Hwf1) as (Hwf' & Hpay' & Hlive').
        { by rewrite Hpay1. }
        split_and!; [done|..].
        + intros q Hq. rewrite Hpay' by (by apply Hlive1). by apply Hpay1.
        + intros q Hq. by apply Hlive', Hlive1. }
    split_and!; [done|..].
    + intros q Hq. rewrite Hpay' by (by apply Hlive0). by apply Hpay0.
    + intros q Hq. by apply Hlive', Hlive0.
  - cbn [build] in Hrun. unfold bind, alloc, modify in Hrun. injection Hrun as <-.
    destruct (Hleaf parent x (Text s) d Hwf Hp Hcan) as (? & _ & ? & ?); done.
  - cbn [build] in Hrun. unfold bind, alloc, modify in Hrun. injection Hrun as <-.
    destruct (Hleaf parent x (Comment s) d Hwf Hp Hcan) as (? & _ & ? & ?); done.
Qed.

Lemma buildAll_inv l :
  forall parent x d d',
    wf d -> payloadOf d parent = Some x -> canHaveChildren x = true ->
    buildAll parent l d = Ok (tt, d') ->
    wf d' /\ payloadOf d' parent = Some x.
Proof.
  induction l as [|m l IH]; intros parent x d d' Hwf Hp Hcan Hrun.
  - by injection Hrun as <-.
  - cbn [buildAll] in Hrun. apply bind_inv in Hrun as ([] & d1 & Hm & Hrun).
    destruct (build_inv m parent x d d1 Hwf Hp Hcan Hm) as (Hwf1 & Hpay1 & _).
    eapply IH; [exact Hwf1| |done|exact Hrun].
    rewrite Hpay1; [done|]. by eapply live_payloadOf.
Qed.

(** The compiled template: a well-formed tree under a fragment whose node
    slots all point at nodes with a next sibling. *)
Lemma createTemplate_inv fuel document strings d template d' :
  wf d -> createTemplate fuel document strings d = Ok (template, d') ->
  wf d' /\ isFragment d' (content template) /\
  slotsHaveNext d' (content template) (slots template).
Proof.
  intros Hwf Hrun. unfold createTemplate in Hrun.
  apply bind_inv in Hrun as (t & d1 & Hdisc & Hrun).
  case_decide; [done|]. injection Hrun as <- <-.
  unfold discoverSlots in Hdisc.
  apply bind_inv in Hdisc as (element & d2 & Halloc1 & Hdisc).
  injection Halloc1 as <- <-.
  apply bind_inv in Hdisc as (content & d3 & Halloc2 & Hdisc).
  injection Halloc2 as <- <-.
  apply bind_inv in Hdisc as ([] & d4 & Hbuild & Hdisc).
  pose proof (wf_allocated _ DocumentFragment
                (wf_allocated d (Element (str "template") []) Hwf)) as Hwf3.
  set (d3 := allocated DocumentFragment (allocated (Element (str "template") []) d))
    in *.
  set (content := nextRef (allocated (Element (str "template") []) d)) in *.
  assert (payloadOf d3 content = Some DocumentFragment) as Hfrag3.
  { subst d3 content. rewrite payloadOf_allocated. by rewrite decide_True. }
  unfold setInnerHTML in Hbuild.
  destruct (buildAll_inv _ content _ d3 d4 Hwf3 Hfrag3 eq_refl Hbuild)
    as (Hwf4 & Hfrag4).
  apply bind_inv in Hdisc as ([n it] & d5 & Hnext & Hdisc).
  pose proof (isFragment_root_parent d4 content Hwf4 Hfrag4) as Hroot4.
  apply (nextNode_inv d4 (createNodeIterator content) n it d5 Hwf4 Hroot4)
    in Hnext as (-> & Hit & Hn).
  apply bind_inv in Hdisc as (slots & d6 & Hwalk & Hdisc).
  injection Hdisc as <- <-. simpl.
  apply (walk_inv content fuel d4 it n [] slots d6 Hwf4 Hfrag4 Hit); [|done].
  destruct n as [c|].
  - destruct (Hn c eq_refl) as (Href & Hptr & Hres).
    destruct (Hres []) as (pc & Hpc & _); [by apply resolves_nil|].
    split_and!; [done|done|]. exists pc. split; [done|].
    intros p Hp. by apply elem_of_nil in Hp.
  - intros p Hp. by apply elem_of_nil in Hp.
Qed.

(** ** The clone has the shape of the original *)

Lemma nodeFromPath_snoc d root q i :
  nodeFromPath d root (q ++ [i])
  = match nodeFromPath d root q with
    | Ok (Some m) => Ok (childrenOf d m !! i)
    | Ok None => Throw TypeError
    | Throw e => Throw e
    | OutOfFuel => OutOfFuel
    end.
Proof.
  revert root. induction q as [|k q IH]; intros root; simpl.
  - by destruct root.
  - destruct root as [r|]; [apply IH|]. by destruct q.
Qed.

Lemma nodeFromPath_not_OutOfFuel d root path : nodeFromPath d root path <> OutOfFuel.
Proof.
  revert root. induction path as [|i path IH]; intros root; simpl; [done|].
  destruct root; [apply IH|done].
Qed.

Lemma childrenOf_node d d' q : node d' q = node d q -> childrenOf d' q = childrenOf d q.
Proof. unfold childrenOf. by intros ->. Qed.

Lemma payloadOf_node_eq d d' q : node d' q = node d q -> payloadOf d' q = payloadOf d q.
Proof. unfold payloadOf. by intros ->. Qed.

Lemma parentOf_node_eq d d' q : node d' q = node d q -> parentOf d' q = parentOf d q.
Proof. unfold parentOf. by intros ->. Qed.

(** Where every node reached from [root] is unchanged, addresses are. *)
Lemma frame_reach d d' root :
  (forall path n, resolves d root path n -> node d' n = node d n) ->
  forall path,
    nodeFromPath d' (Some root) path = nodeFromPath d (Some root) path.
Proof.
  intros Hframe. induction path as [|i q IH] using rev_ind; [done|].
  rewrite !nodeFromPath_snoc, IH.
  destruct (nodeFromPath d (Some root) q) as [[m|]| |] eqn:Hq; try done.
  by rewrite (childrenOf_node d d' m (Hframe q m Hq)).
Qed.

Lemma arity_frame d d' root :
  (forall path n, resolves d root path n -> node d' n = node d n) ->
  forall path, arity d' root path = arity d root path.
Proof.
  intros Hframe path. unfold arity. rewrite (frame_reach d d' root Hframe).
  destruct (nodeFromPath d (Some root) path) as [[m|]| |] eqn:Hq; try done.
  by rewrite (childrenOf_node d d' m (Hframe path m Hq)).
Qed.

Lemma resolves_frame d d' root path n :
  (forall path n, resolves d root path n -> node d' n = node d n) ->
  resolves d' root path n <-> resolves d root path n.
Proof. intros Hframe. unfold resolves. by rewrite (frame_reach d d' root Hframe). Qed.

Lemma arity_nil d root : arity d root [] = Some (length (childrenOf d root)).
Proof. reflexivity. Qed.

Lemma arity_cons d root i rest :
  arity d root (i :: rest)
  = match childrenOf d root !! i with
    | Some m => arity d m rest
    | None => None
    end.
Proof.
  unfold arity. simpl. destruct (childrenOf d root !! i); [done|].
  by destruct rest.
Qed.

Lemma old_reach d old root path n :
  oldClosed d old -> root < old -> resolves d root path n -> n < old.
Proof.
  intros Hclosed Hroot. revert n.
  induction path as [|i q IH] using rev_ind; intros n.
  - by intros ->%resolves_nil.
  - intros (m & Hm & Hi)%resolves_snoc. eapply Hclosed; [by apply IH|].
    by eapply list_elem_of_lookup_2.
Qed.

Lemma node_link_other d r p child q :
  q <> r -> q <> p -> node (link r p child d) q = node d q.
Proof.
  intros Hr Hp. unfold link. rewrite node_setParent, decide_False by done.
  by rewrite node_setChildren, decide_False.
Qed.

Lemma node_allocated_other d x q : q <> nextRef d -> node (allocated x d) q = node d q.
Proof. intros Hq. by rewrite node_allocated, decide_False. Qed.

Lemma insertAt_last (r : NodeRef) cs : insertAt r None cs = cs ++ [r].
Proof. unfold insertAt. by rewrite take_ge, drop_ge by done. Qed.

Section Clone.
Context (old : nat).

Lemma cloneStart_spec parent y d :
  wf d ->
  (forall p, parent = Some p ->
     y <> DocumentFragment /\
     exists x, payloadOf d p = Some x /\ canHaveChildren x = true) ->
  let d' := cloneStart parent y d in
  (wf d' /\ nextRef d' = S (nextRef d) /\
   (forall q, q < nextRef d -> Some q <> parent -> node d' q = node d q) /\
   (forall p, parent = Some p ->
      childrenOf d' p = childrenOf d p ++ [nextRef d] /\
      payloadOf d' p = payloadOf d p) /\
   childrenOf d' (nextRef d) = [] /\ payloadOf d' (nextRef d) = Some y).
Proof.
  intros Hwf Hparent. cbn zeta.
  pose proof (fresh_not_live d Hwf) as Hfresh.
  pose proof (not_live _ _ Hfresh) as (_ & Hfp & Hfc).
  destruct parent as [p|]; simpl.
  - destruct (Hparent p eq_refl) as (Hy & x & Hp & Hcan).
    assert (p <> nextRef d) as Hne.
    { intros ->. apply live_payloadOf in Hp. congruence. }
    split_and!.
    + eapply wf_link; [by apply wf_allocated|..].
      * by rewrite parentOf_allocated.
      * rewrite live_allocated. by rewrite decide_True.
      * unfold isFragment. rewrite payloadOf_allocated, decide_True by done.
        congruence.
      * rewrite payloadOf_allocated, decide_False by done. exact Hp.
      * done.
    + done.
    + intros q Hq Hqp. rewrite node_link_other; [|lia|by intros ->].
      apply node_allocated_other. lia.
    + intros p' [= <-]. rewrite childrenOf_link, decide_True by done.
      rewrite live_allocated, decide_False by done.
      rewrite (live_payloadOf _ _ _ Hp), childrenOf_allocated by done.
      split; [apply insertAt_last|].
      rewrite payloadOf_link, payloadOf_allocated. by rewrite decide_False.
    + rewrite childrenOf_link, decide_False by done.
      by rewrite childrenOf_allocated.
    + rewrite payloadOf_link, payloadOf_allocated. by rewrite decide_True.
  - split_and!.
    + by apply wf_allocated.
    + done.
    + intros q Hq _. apply node_allocated_other. lia.
    + done.
    + by rewrite childrenOf_allocated.
    + rewrite payloadOf_allocated. by rewrite decide_True.
Qed.

Lemma oldClosed_frame d d' :
  oldClosed d old -> (forall q, q < old -> node d' q = node d q) -> oldClosed d' old.
Proof.
  intros Hclosed Hframe q c Hq. rewrite (childrenOf_node d d' q (Hframe q Hq)).
  by apply Hclosed.
Qed.

Lemma arity_old_frame d d' k :
  oldClosed d old -> k < old -> (forall q, q < old -> node d' q = node d q) ->
  forall path, arity d' k path = arity d k path.
Proof.
  intros Hclosed Hk Hframe. apply arity_frame. intros path n Hn.
  apply Hframe. by eapply old_reach.
Qed.

(** The children, one after the other, given the result for each of them. *)
Lemma clone_children fuel copy :
  (forall k d k' d',
     wf d -> old <= nextRef d -> k < old -> oldClosed d old ->
     old <= copy -> ~ isFragment d k ->
     (exists x, payloadOf d copy = Some x /\ canHaveChildren x = true) ->
     cloneFuel fuel (Some copy) k d = Ok (k', d') ->
     cloned (Some copy) k d k' d') ->
  forall l d l' d',
    wf d -> old <= nextRef d -> oldClosed d old -> old <= copy ->
    (forall k, k ∈ l -> k < old /\ ~ isFragment d k) ->
    (exists x, payloadOf d copy = Some x /\ canHaveChildren x = true) ->
    mapM (cloneFuel fuel (Some copy)) l d = Ok (l', d') ->
    wf d' /\ nextRef d <= nextRef d' /\
    (forall q, q < nextRef d -> q <> copy -> node d' q = node d q) /\
    childrenOf d' copy = childrenOf d copy ++ l' /\
    payloadOf d' copy = payloadOf d copy /\
    length l' = length l /\
    forall i k k', l !! i = Some k -> l' !! i = Some k' ->
      (forall path, arity d' k' path = arity d k path) /\
      (forall path n', resolves d' k' path n' -> nextRef d <= n' < nextRef d').
Proof.
  intros Hclone. induction l as [|k l IH];
    intros d l' d' Hwf Hold Hclosed Hcopy Hl Hpay Hrun.
  - injection Hrun as <- <-. rewrite app_nil_r. split_and!; try done.
  - cbn [mapM] in Hrun.
    apply bind_inv in Hrun as (k' & d1 & Hk & Hrun).
    apply bind_inv in Hrun as (l'' & d2 & Hrest & Hrun).
    injection Hrun as <- <-.
    destruct (Hl k) as [Hkold Hkfrag]; [by left|].
    destruct (Hclone k d k' d1 Hwf Hold Hkold Hclosed Hcopy Hkfrag Hpay Hk)
      as (Hwf1 & -> & Hnext1 & Hframe1 & Hparent1 & Hrange1 & Harity1).
    destruct (Hparent1 copy eq_refl) as [Hkids1 Hpay1].
    assert (forall q, q < old -> node d1 q = node d q) as Hframe_old.
    { intros q Hq. apply Hframe1; [lia|]. intros [= ->]. lia. }
    destruct (IH d1 l'' d2) as (Hwf2 & Hnext2 & Hframe2 & Hkids2 & Hpay2 & Hlen2 & Hall2);
      try done.
    { lia. }
    { by eapply oldClosed_frame. }
    { intros k0 Hk0. destruct (Hl k0) as [? Hf]; [by right|]. split; [done|].
      unfold isFragment in *. by rewrite (payloadOf_node_eq d d1 k0 (Hframe_old k0 H)). }
    { by rewrite Hpay1. }
    assert (copy < nextRef d) as Hcopy_lt.
    { destruct Hpay as (x & Hx & _). apply live_payloadOf, live_is_Some in Hx.
      by apply (wf_fresh d Hwf). }
    split_and!.
    + done.
    + lia.
    + intros q Hq Hqc. rewrite Hframe2 by (done || lia).
      apply Hframe1; [done|congruence].
    + rewrite Hkids2, Hkids1. by rewrite <- app_assoc.
    + by rewrite Hpay2.
    + simpl. by rewrite Hlen2.
    + intros [|i] k0 k0' Hi Hi'; simpl in Hi, Hi'.
      * injection Hi as <-. injection Hi' as <-.
        assert (forall path n, resolves d1 (nextRef d) path n -> node d2 n = node d1 n)
          as Hsub.
        { intros path n Hn. apply Hrange1 in Hn. apply Hframe2; lia. }
        split.
        -- intros path. by rewrite (arity_frame d1 d2 _ Hsub).
        -- intros path n' Hn'. apply (resolves_frame d1 d2 _ path n' Hsub) in Hn'.
           apply Hrange1 in Hn'. lia.
      * destruct (Hall2 i k0 k0' Hi Hi') as [Har Hrg]. split.
        -- intros path. rewrite Har. apply arity_old_frame; [done| |done].
           destruct (Hl k0) as [? _]; [|done]. right. by eapply list_elem_of_lookup_2.
        -- intros path n' Hn'. apply Hrg in Hn'. lia.
Qed.

Lemma cloneFuel_cloned fuel :
  forall parent r d copy d',
    wf d -> old <= nextRef d -> r < old -> oldClosed d old ->
    (forall p, parent = Some p ->
       old <= p /\ ~ isFragment d r /\
       exists x, payloadOf d p = Some x /\ canHaveChildren x = true) ->
    cloneFuel fuel parent r d = Ok (copy, d') ->
    cloned parent r d copy d'.
Proof.
  induction fuel as [|fuel IH];
    intros parent r d copy d' Hwf Hold Hr Hclosed Hparent Hrun; [done|].
  cbn [cloneFuel] in Hrun.
  apply bind_inv in Hrun as (n & d0 & Hread & Hrun).
  unfold read in Hread. destruct (node d r) as [n'|] eqn:Hnode; [|done].
  injection Hread as -> <-.
  apply bind_inv in Hrun as (copy' & d1 & Halloc & Hrun).
  injection Halloc as <- <-.
  apply bind_inv in Hrun as ([] & db & Hstart & Hrun).
  assert (db = cloneStart parent (payload n) d) as ->.
  { unfold cloneStart. destruct parent; by injection Hstart as <-. }
  clear Hstart.
  apply bind_inv in Hrun as (kids & d2 & Hkids & Hrun).
  injection Hrun as <- <-.
  assert (payloadOf d r = Some (payload n)) as Hpr.
  { unfold payloadOf. by rewrite Hnode. }
  assert (childrenOf d r = childNodes n) as Hcr.
  { unfold childrenOf. by rewrite Hnode. }
  destruct (cloneStart_spec parent (payload n) d Hwf)
    as (Hwfb & Hnextb & Hframeb & Hparentb & Hkidsb & Hpayb).
  { intros p Hp. destruct (Hparent p Hp) as (_ & Hfrag & Hx). split; [|done].
    intros E. apply Hfrag. unfold isFragment. by rewrite Hpr, E. }
  set (db := cloneStart parent (payload n) d) in *.
  assert (forall q, q < old -> node db q = node d q) as Hframe_old.
  { intros q Hq. apply Hframeb; [lia|]. intros <-.
    destruct (Hparent q eq_refl) as (? & _). lia. }
  assert (wf d2 /\ nextRef db <= nextRef d2 /\
          (forall q, q < nextRef db -> q <> nextRef d -> node d2 q = node db q) /\
          childrenOf d2 (nextRef d) = kids /\
          length kids = length (childNodes n) /\
          forall i k k', childNodes n !! i = Some k -> kids !! i = Some k' ->
            (forall path, arity d2 k' path = arity db k path) /\
            (forall path n', resolves d2 k' path n' -> nextRef db <= n' < nextRef d2))
    as (Hwf2 & Hnext2 & Hframe2 & Hkids2 & Hlen2 & Hall2).
  { destruct (childNodes n) as [|k0 ks] eqn:Hks.
    - injection Hkids as <- <-. split_and!; try done.
    - rewrite <- Hks in *.
      destruct (clone_children fuel (nextRef d)) with (l := childNodes n) (d := db)
        (l' := kids) (d' := d2)
        as (? & ? & ? & Hk2 & _ & ? & ?); try done.
      + intros k d3 k' d4 ? ? ? ? ? ? ? Hk.
        apply (IH (Some (nextRef d)) k d3 k' d4); try done.
        by intros p [= <-].
      + lia.
      + by eapply oldClosed_frame.
      + intros k Hk. rewrite <- Hcr in Hk.
        assert (k < old) as Hkold by (by eapply Hclosed).
        split; [done|]. unfold isFragment.
        rewrite (payloadOf_node_eq d db k (Hframe_old k Hkold)).
        intros Hf%(wf_fragment d Hwf). apply (wf_child d Hwf) in Hk. congruence.
      + exists (payload n). split; [done|].
        eapply (wf_leaf d Hwf r k0); [|done]. rewrite Hcr, Hks. by left.
      + split_and!; try done. by rewrite Hk2, Hkidsb. }
  assert (forall p, parent = Some p -> p < nextRef d /\ p <> nextRef d) as Hplive.
  { intros p Hp. destruct (Hparent p Hp) as (_ & _ & x & Hx & _).
    apply live_payloadOf, live_is_Some, (wf_fresh d Hwf) in Hx. lia. }
  unfold cloned. split_and!.
  - done.
  - done.
  - lia.
  - intros q Hq Hqp. rewrite Hframe2 by lia. by apply Hframeb.
  - intros p Hp. destruct (Hplive p Hp) as [Hlt Hne].
    destruct (Hparentb p Hp) as [Hc Hpay].
    assert (node d2 p = node db p) as Hnp by (apply Hframe2; lia).
    split.
    + by rewrite (childrenOf_node db d2 p Hnp).
    + by rewrite (payloadOf_node_eq db d2 p Hnp).
  - intros [|i rest] n'.
    + intros ->%resolves_nil. lia.
    + intros (m & Hm & Hrest)%resolves_cons. rewrite Hkids2 in Hm.
      destruct (lookup_lt_is_Some_2 (childNodes n) i) as [k Hk].
      { rewrite <- Hlen2. by eapply lookup_lt_Some. }
      destruct (Hall2 i k m Hk Hm) as [_ Hrange]. apply Hrange in Hrest. lia.
  - intros [|i rest].
    + rewrite !arity_nil, Hkids2, Hcr. by rewrite Hlen2.
    + rewrite !arity_cons, Hkids2, Hcr.
      destruct (kids !! i) as [k'|] eqn:Hk'.
      * destruct (lookup_lt_is_Some_2 (childNodes n) i) as [k Hk].
        { rewrite <- Hlen2. by eapply lookup_lt_Some. }
        rewrite Hk. destruct (Hall2 i k k' Hk Hk') as [Harity _].
        rewrite Harity. apply arity_old_frame; [done| |done].
        eapply Hclosed; [exact Hr|]. rewrite Hcr. by eapply list_elem_of_lookup_2.
      * apply lookup_ge_None in Hk'. rewrite Hlen2 in Hk'.
        apply lookup_ge_None in Hk'. by rewrite Hk'.
Qed.
End Clone.

Lemma importNode_cloned d root copy d' :
  wf d -> live d root = true ->
  importNode root d = Ok (copy, d') -> cloned None root d copy d'.
Proof.
  intros Hwf Hroot Hrun. unfold importNode, bind, get in Hrun.
  apply (cloneFuel_cloned (nextRef d) (S (size (heap d))) None root d copy d'); try done.
  - by apply (wf_fresh d Hwf), live_is_Some.
  - intros q c _ Hc. by apply (wf_fresh d Hwf), live_is_Some, (wf_child_live d q).
Qed.

(** In the clone, the node a node slot points at has a next sibling. *)
Lemma importNode_slots d root slots copy d' :
  wf d -> isFragment d root -> slotsHaveNext d root slots ->
  importNode root d = Ok (copy, d') ->
  wf d' /\
  forall path n', TemplateNodeSlot path ∈ slots ->
    nodeFromPath d' (Some copy) path = Ok (Some n') -> nextSibling d' n' <> None.
Proof.
  intros Hwf Hfrag Hslots Hrun.
  destruct (importNode_cloned d root copy d' Hwf) as (Hwf' & _ & _ & _ & _ & _ & Harity);
    [by eapply live_payloadOf|done|].
  split; [done|]. intros path n' Hin Hn'.
  destruct (Hslots path Hin) as (n & Hn & Hnext).
  destruct (nextSibling d n) as [x|] eqn:Hx; [|done]. clear Hnext.
  apply (nextSibling_Some d n x Hwf) in Hx as (P & i & Hi & HSi).
  destruct (resolves_root_or_child d root path n Hn)
    as [[-> _]|(q & j & P' & -> & HP' & Hj)].
  { apply (lookup_child d P i root Hwf) in Hi as [Hpar _].
    rewrite (wf_fragment d Hwf root Hfrag) in Hpar. done. }
  apply (lookup_child d P i n Hwf) in Hi as [Hpar Hpos].
  apply (lookup_child d P' j n Hwf) in Hj as [Hpar' Hpos'].
  assert (P' = P) as -> by congruence.
  assert (j = i) as -> by congruence.
  apply resolves_snoc in Hn' as (Pc & HPc & Hic).
  specialize (Harity q). unfold arity in Harity.
  unfold resolves in HP', HPc. rewrite HP', HPc in Harity.
  injection Harity as Hlen.
  rewrite (nextSibling_lookup d' Pc i n' Hwf' Hic).
  apply lookup_lt_Some in HSi. rewrite <- Hlen in HSi.
  apply lookup_lt_is_Some_2 in HSi as [x' ->]. done.
Qed.

(** ** Node anchors always have their "after" boundary *)

Lemma resolveAll_elem d fragment templateSlots resolved slot :
  resolveAll d fragment templateSlots = Ok resolved -> slot ∈ resolved ->
  exists templateSlot,
    templateSlot ∈ templateSlots /\ resolveSlot d fragment templateSlot = Ok slot.
Proof.
  revert resolved. induction templateSlots as [|ts rest IH]; intros resolved; simpl.
  - intros [= <-] Hin. by apply elem_of_nil in Hin.
  - destruct (resolveSlot d fragment ts) as [s| |] eqn:Hs; [|done..].
    destruct (resolveAll d fragment rest) as [l| |]; [|done..].
    intros [= <-] [->|Hin]%elem_of_cons.
    + exists ts. split; [by left|done].
    + destruct (IH l eq_refl Hin) as (t & Ht & Hres).
      exists t. split; [by right|done].
Qed.

(** Instantiating a well-formed template whose node slots point at nodes with
    a next sibling gives node anchors with an "after" boundary. *)
Lemma instance_endBefore fuel template args d instance d' :
  wf d -> isFragment d (content template) ->
  slotsHaveNext d (content template) (slots template) ->
  createTemplateInstance fuel template args d = Ok (instance, d') ->
  forall s, InstanceNodeSlot s ∈ instanceSlots instance -> is_Some (endBefore s).
Proof.
  intros Hwf Hfrag Hslots Hrun s Hs.
  unfold createTemplateInstance in Hrun. cbn zeta in Hrun.
  apply bind_inv in Hrun as (F & dc & Himport & Hrun).
  apply bind_inv in Hrun as (anchors & dc' & Hcollect & Hrun).
  apply bind_inv in Hrun as ([] & du & _ & Hrun).
  injection Hrun as <- <-. cbn [instanceSlots] in Hs.
  rewrite collectSlots_resolveAll in Hcollect.
  destruct (resolveAll dc F (slots template)) as [resolved| |] eqn:Hres; [|done..].
  injection Hcollect as <- <-. cbn [app] in Hs.
  destruct (resolveAll_elem dc F _ _ _ Hres Hs) as (ts & Hts & Hslot).
  destruct (importNode_slots d (content template) (slots template) F dc
              Hwf Hfrag Hslots Himport) as [_ Hnext].
  destruct ts as [path|path name]; cbn [resolveSlot] in Hslot.
  - destruct (nodeFromPath dc (Some F) path) as [[n|]| |] eqn:Hn; [|done..].
    injection Hslot as <-. cbn [endBefore].
    specialize (Hnext path n Hts Hn).
    by destruct (nextSibling dc n).
  - by destruct (nodeFromPath dc (Some F) path).
Qed.

(** C4: whenever a template compiles and is instantiated, whatever the
    strings and the arguments, every node anchor of the instance, in the
    list of all slots as in the list of node slots, has a node as its
    "after" boundary [endBefore]: the marker node has a following sibling
    in the compiled tree and the clone keeps it. *)
Theorem createTemplateInstance_endBefore
    fuel document strings d template d1 fuel' args instance d2 :
  wf d ->
  createTemplate fuel document strings d = Ok (template, d1) ->
  createTemplateInstance fuel' template args d1 = Ok (instance, d2) ->
  (forall s, InstanceNodeSlot s ∈ instanceSlots instance -> is_Some (endBefore s)) /\
  (forall s, s ∈ nodeSlots instance -> is_Some (endBefore s)).
Proof.
  intros Hwf Hcompile Hrun.
  destruct (createTemplate_inv fuel document strings d template d1 Hwf Hcompile)
    as (Hwf1 & Hfrag & Hslots).
  pose proof (instance_endBefore fuel' template args d1 instance d2
                Hwf1 Hfrag Hslots Hrun) as Hall.
  split; [done|]. intros s Hs. apply Hall.
  unfold createTemplateInstance in Hrun. cbn zeta in Hrun.
  apply bind_inv in Hrun as (F & dc & _ & Hrun).
  apply bind_inv in Hrun as (anchors & dc' & _ & Hrun).
  apply bind_inv in Hrun as ([] & du & _ & Hrun).
  injection Hrun as <- <-. cbn [instanceSlots nodeSlots] in *.
  apply list_elem_of_omap in Hs as ([s'|a] & Hin & Heq); [|done].
  by injection Heq as ->.
Qed.

Lemma createTemplateInstance_endBefore_witness :
  let strings := [str "<p>"; str " and "; str "</p>"] in
  let args := [ArgString (str "a"); ArgNull] in
  let template := mkTemplate 0 1 [TemplateNodeSlot [0; 0]; TemplateNodeSlot [0; 2]] in
  let d1 := Sample.outcome (createTemplate 6 Host.document strings Host.emptyDom) in
  let anchors := [mkNodeSlot None (Some 10); mkNodeSlot (Some 10) (Some 12)] in
  let instance := mkTemplateInstance 7 (map InstanceNodeSlot anchors) anchors [] in
  let d2 := Sample.outcome (createTemplateInstance 6 template args d1) in
  (wf Host.emptyDom /\
   createTemplate 6 Host.document strings Host.emptyDom = Ok (template, d1) /\
   createTemplateInstance 6 template args d1 = Ok (instance, d2)) /\
  (forall s, InstanceNodeSlot s ∈ instanceSlots instance -> is_Some (endBefore s)) /\
  (forall s, s ∈ nodeSlots instance -> is_Some (endBefore s)).
Proof.
  cbn zeta.
  assert (createTemplate 6 Host.document [str "<p>"; str " and "; str "</p>"]
            Host.emptyDom
          = Ok (mkTemplate 0 1 [TemplateNodeSlot [0; 0]; TemplateNodeSlot [0; 2]],
                Sample.outcome
                  (createTemplate 6 Host.document
                     [str "<p>"; str " and "; str "</p>"] Host.emptyDom)))
    as Hcompile by (vm_compute; reflexivity).
  match goal with |- (_ /\ _ /\ ?run = _) /\ _ =>
    assert (run = Ok (mkTemplateInstance 7
                   (map InstanceNodeSlot
                      [mkNodeSlot None (Some 10); mkNodeSlot (Some 10) (Some 12)])
                   [mkNodeSlot None (Some 10); mkNodeSlot (Some 10) (Some 12)] [],
                 Sample.outcome run))
      as Hrun by (vm_compute; reflexivity)
  end.
  split; [split; [exact wf_emptyDom | split; [exact Hcompile | exact Hrun]]|].
  exact (createTemplateInstance_endBefore _ _ _ _ _ _ _ _ _ _
           wf_emptyDom Hcompile Hrun).
Defined.

(** * Further properties *)

(** ** Paths: the other round trip, errors and bounds *)

Lemma resolves_descendant d root path n :
  wf d -> resolves d root path n -> inclusiveDescendant d root n.
Proof.
  intros Hwf. revert n. induction path as [|i q IH] using rev_ind; intros n.
  - intros ->%resolves_nil. constructor.
  - intros (m & Hm & Hi)%resolves_snoc.
    apply (lookup_child d m i n Hwf) in Hi as [Hpar _].
    eapply descendant_child; [exact Hpar|by apply IH].
Qed.

(** X1: the other round trip.  Under a root that has no parent, a path that
    leads to a node is the path [pathToNode] computes for that node, given
    enough fuel: [pathToNode(root, nodeFromPath(root, path))] is [path]. *)
Theorem nodeFromPath_pathToNode d root path n :
  wf d -> parentOf d root = None ->
  nodeFromPath d (Some root) path = Ok (Some n) ->
  exists bound, forall fuel, bound <= fuel -> pathToNode fuel d root n = Ok path.
Proof.
  intros Hwf Hroot Hres.
  destruct (pathToNodeLoop_spec d root n Hwf (resolves_descendant d root path n Hwf Hres))
    as (prefix & bound & Hpre & Hloop).
  assert (prefix = path) as -> by (by eapply resolves_unique).
  exists bound. intros fuel Hfuel. unfold pathToNode.
  rewrite Hloop by done. by rewrite app_nil_r.
Qed.

Lemma pathToNodeLoop_outside d root n :
  wf d -> outside d root n ->
  exists bound, forall fuel result, bound <= fuel ->
    pathToNodeLoop fuel d root (Some n) result
    = Throw (Error (str "Could not find target from root")).
Proof.
  intros Hwf. induction 1 as [n Hne Hp|n p Hne Hp Hout (bound & Hloop)].
  - exists 2. intros fuel result Hfuel.
    destruct fuel as [|[|fuel]]; [lia..|].
    cbn [pathToNodeLoop]. rewrite decide_False by congruence.
    assert (previousSibling d n = None) as Hprev.
    { unfold previousSibling, siblingIndex. by rewrite Hp. }
    cbn [countPreviousSiblings]. rewrite Hprev, Hp.
    by rewrite decide_False.
  - pose proof (wf_parent d Hwf n p Hp) as Hin.
    apply list_elem_of_split in Hin as (l1 & l2 & Hcs).
    exists (S (bound + length l1)). intros fuel result Hfuel.
    destruct fuel as [|fuel]; [lia|].
    cbn [pathToNodeLoop]. rewrite decide_False by congruence.
    pose proof (countPreviousSiblings_spec d p n l1 l2 (S fuel) 0 Hwf Hcs) as Hc.
    rewrite Hc by lia. rewrite Hp. apply Hloop. lia.
Qed.

(** X3: for a target that is not the root and has no ancestor that is the
    root, [pathToNode] climbs to the top of the target's tree and throws
    "Could not find target from root". *)
Theorem pathToNode_outside d root target :
  wf d -> outside d root target ->
  exists bound, forall fuel, bound <= fuel ->
    pathToNode fuel d root target
    = Throw (Error (str "Could not find target from root")).
Proof.
  intros Hwf Hout.
  destruct (pathToNodeLoop_outside d root target Hwf Hout) as (bound & Hloop).
  exists bound. intros fuel Hfuel. by apply Hloop.
Qed.

(** X2: [pathToNode] never returns a wrong path.  Whatever the fuel, a path
    it returns leads from the root to the target, and the target is the root
    or lies below it. *)
Theorem pathToNode_sound fuel d root target path :
  wf d -> pathToNode fuel d root target = Ok path ->
  nodeFromPath d (Some root) path = Ok (Some target) /\
  inclusiveDescendant d root target.
Proof.
  intros Hwf Hrun. unfold pathToNode in Hrun.
  apply (pathToNodeLoop_sound d root fuel Hwf) in Hrun as (prefix & -> & Hres).
  rewrite app_nil_r. split; [done|]. by eapply resolves_descendant.
Qed.

(** X4: an index past the last child.  As the last step of a path it makes
    [nodeFromPath] return [undefined] without an error; with a further index
    after it, [nodeFromPath] throws a [TypeError]. *)
Theorem nodeFromPath_beyond d root q parent i :
  nodeFromPath d (Some root) q = Ok (Some parent) ->
  length (childrenOf d parent) <= i ->
  nodeFromPath d (Some root) (q ++ [i]) = Ok None /\
  forall j rest, nodeFromPath d (Some root) (q ++ i :: j :: rest) = Throw TypeError.
Proof.
  intros Hq Hlen. apply lookup_ge_None in Hlen. split.
  - rewrite (nodeFromPath_app _ _ _ _ _ Hq). simpl. by rewrite Hlen.
  - intros j rest. rewrite (nodeFromPath_app _ _ _ _ _ Hq). simpl. by rewrite Hlen.
Qed.

(** ** The two cases of the walk *)

Lemma attributeSlots_spec fuel content el path attrs :
  forall slots d,
    pathToNode fuel d content el = Ok path ->
    attributeSlots fuel content el attrs slots d
    = Ok (slots ++ map (TemplateAttrValueSlot path) (markedNames attrs), d).
Proof.
  unfold markedNames.
  induction attrs as [|[name value] attrs IH]; intros slots d Hpath;
    cbn [attributeSlots].
  - by rewrite app_nil_r.
  - case_decide as Hv.
    + unfold bind at 1, get. unfold bind at 1, liftResult. rewrite Hpath.
      rewrite IH by done. rewrite filter_cons_True by done.
      simpl. by rewrite <- app_assoc.
    + rewrite IH by done. by rewrite filter_cons_False by done.
Qed.

(** X6: the [ELEMENT_NODE] case of the walk.  For an element of the tree below
    the content, given enough fuel, the walk records one attr-value slot for
    each attribute whose value is exactly the marker, in attribute order, with
    the element's path and the attribute's name; an attribute that holds the
    marker among other text gives no slot.  The tree does not change. *)
Theorem visit_element d content el tag attrs :
  wf d -> inclusiveDescendant d content el ->
  payloadOf d el = Some (Element tag attrs) ->
  exists path bound,
    nodeFromPath d (Some content) path = Ok (Some el) /\
    forall fuel slots, bound <= fuel ->
      visit fuel content el slots d
      = Ok (slots ++ map (TemplateAttrValueSlot path) (markedNames attrs), d).
Proof.
  intros Hwf Hdesc Hel.
  destruct (pathToNodeLoop_spec d content el Hwf Hdesc)
    as (path & bound & Hres & Hloop).
  exists path, bound. split; [done|]. intros fuel slots Hfuel.
  apply payloadOf_node in Hel as (n & Hn & Hp).
  unfold visit, bind at 1, read. rewrite Hn, Hp.
  apply attributeSlots_spec. unfold pathToNode.
  rewrite Hloop by done. by rewrite app_nil_r.
Qed.

Lemma indexOf_found s m :
  (0 <= indexOf s [m])%Z ->
  exists pre rest, s = pre ++ m :: rest /\ (m ∉ pre) /\
                   indexOf s [m] = Z.of_nat (length pre).
Proof.
  induction s as [|c s IH]; simpl; [lia|].
  destruct (N.eqb_spec m c) as [->|Hne]; simpl.
  - intros _. exists [], s. split_and!; [done|apply not_elem_of_nil|done].
  - destruct (indexOf s [m] <? 0)%Z eqn:Hlt; [lia|]. intros _.
    apply Z.ltb_ge in Hlt. destruct (IH Hlt) as (pre & rest & -> & Hpre & Hidx).
    exists (c :: pre), rest. split_and!; [done| |simpl; lia].
    apply not_elem_of_cons. split; [done|done].
Qed.

Lemma indexOf_absent s m : ~ (0 <= indexOf s [m])%Z -> m ∉ s.
Proof.
  induction s as [|c s IH]; simpl; [intros _; apply not_elem_of_nil|].
  destruct (N.eqb_spec m c) as [->|Hne]; simpl; [lia|].
  destruct (indexOf s [m] <? 0)%Z eqn:Hlt; [|lia]. intros _.
  apply Z.ltb_lt in Hlt. apply not_elem_of_cons. split; [done|]. apply IH. lia.
Qed.

Lemma markerIndexes_absent j pending s :
  9889%N ∉ s -> markerIndexes j pending s = [].
Proof.
  revert pending. induction s as [|c s IH]; intros pending; [done|].
  intros [Hne Hs]%not_elem_of_cons. simpl.
  rewrite decide_False by (unfold replacement; congruence). by apply IH.
Qed.

Lemma markerIndexes_found j pre rest :
  9889%N ∉ pre ->
  markerIndexes j false (pre ++ 9889%N :: rest)
  = match pre with
    | [] => j :: markerIndexes (S j) false rest
    | _ => S j :: markerIndexes (S (S j)) false rest
    end.
Proof.
  intros Hpre.
  assert (forall l, 9889%N ∉ l ->
            markerIndexes j true (l ++ 9889%N :: rest)
            = S j :: markerIndexes (S (S j)) false rest) as Htrue.
  { induction l as [|c l IH]; [done|]. intros [Hne Hl]%not_elem_of_cons. simpl.
    rewrite decide_False by (unfold replacement; congruence). by apply IH. }
  destruct pre as [|c pre]; [done|].
  apply not_elem_of_cons in Hpre as [Hne Hpre]. simpl.
  rewrite decide_False by (unfold replacement; congruence). by apply Htrue.
Qed.

Lemma markerIndexes_length j pending (s : list N) :
  length (markerIndexes j pending s) = length (filter (fun c => c = 9889%N) s).
Proof.
  revert j pending. induction s as [|c s IH]; intros j pending; [done|].
  cbn [markerIndexes].
  destruct (decide (c = 9889%N)) as [->|Hne].
  - rewrite decide_True by done. rewrite filter_cons_True by done.
    destruct pending; cbn [length]; by rewrite IH.
  - rewrite decide_False by (unfold replacement; congruence).
    rewrite filter_cons_False by done. apply IH.
Qed.

Lemma pathToNode_resolved d root path n :
  wf d -> parentOf d root = None -> resolves d root path n ->
  exists bound, forall fuel, bound <= fuel -> pathToNode fuel d root n = Ok path.
Proof.
  intros Hwf Hroot Hres.
  destruct (pathToNodeLoop_spec d root n Hwf (resolves_descendant d root path n Hwf Hres))
    as (prefix & bound & Hpre & Hloop).
  assert (prefix = path) as -> by (by eapply resolves_unique).
  exists bound. intros fuel Hfuel. unfold pathToNode.
  rewrite Hloop by done. by rewrite app_nil_r.
Qed.

Lemma splitMarkers_spec content n :
  forall s d text at_ j,
    length s <= n -> wf d -> isFragment d content ->
    resolves d content (at_ ++ [j]) text ->
    payloadOf d text = Some (Text s) ->
    exists bound d',
      wf d' /\ isFragment d' content /\ (9889%N ∉ s -> d' = d) /\
      forall fuel slots, bound <= fuel ->
        splitMarkers fuel content text slots d
        = Ok (slots ++ map (fun k => TemplateNodeSlot (at_ ++ [k]))
                         (markerIndexes j false s), d').
Proof.
  induction n as [|n IH]; intros s d text at_ j Hlen Hwf Hfrag Htext Hs.
  - destruct s; [|simpl in Hlen; lia].
    exists 0, d. split_and!; [done..|]. intros fuel slots _.
    destruct fuel; cbn [splitMarkers];
      rewrite (bind_Ok _ _ _ _ _ (getData_Text d text [] Hs)); simpl;
      by rewrite app_nil_r.
  - destruct (Z.leb_spec 0 (indexOf s replacement)) as [Hfound|Habsent].
    2:{ assert (9889%N ∉ s) as Hno by (apply indexOf_absent; unfold replacement in *; lia).
        exists 0, d. split_and!; [done..|]. intros fuel slots _.
        rewrite (markerIndexes_absent _ _ _ Hno). simpl. rewrite app_nil_r.
        destruct fuel; cbn [splitMarkers];
          rewrite (bind_Ok _ _ _ _ _ (getData_Text d text s Hs));
          by destruct (Z.leb_spec 0 (indexOf s replacement)); [lia|]. }
    destruct (indexOf_found s 9889%N Hfound) as (pre & rest & Hsplit & Hpre & Hidx).
    change [9889%N] with replacement in Hidx.
    set (off1 := Z.to_nat (indexOf s replacement + 1)).
    set (off2 := Z.to_nat (indexOf s replacement)).
    assert (off1 = S (length pre)) as Hoff1 by (subst off1; lia).
    assert (off2 = length pre) as Hoff2 by (subst off2; lia).
    assert (length s = length pre + S (length rest)) as Hlens.
    { rewrite Hsplit, length_app. simpl. lia. }
    assert (drop off1 s = rest) as Hdrop1.
    { rewrite Hoff1, Hsplit.
      replace (pre ++ 9889%N :: rest) with ((pre ++ [9889%N]) ++ rest)
        by (by rewrite <- app_assoc).
      replace (S (length pre)) with (length (pre ++ [9889%N]))
        by (rewrite length_app; simpl; lia).
      apply drop_app_length. }
    pose proof (isFragment_root_parent d content Hwf Hfrag) as Hroot.
    destruct (split_step d content at_ j text s off1 Hwf Hroot Htext Hs)
      as (Hwf1 & Hroot1 & HT1 & HN1 & HsT1 & HsN1 & Hframe1 & Hres1 & Hnext1).
    pose proof (isFragment_split d content text s off1 Hwf Hfrag Hs Hframe1) as Hfrag1.
    assert (splitText text off1 d = Ok (nextRef d, splitOff text off1 s d)) as Hrun1.
    { apply splitText_spec; [done|lia]. }
    set (d1 := splitOff text off1 s d) in *.
    rewrite Hdrop1 in HsN1.
    destruct pre as [|c pre'].
    + (* the marker opens the text *)
      destruct (pathToNode_resolved d1 content _ text Hwf1 Hroot1 HT1) as (b1 & Hpath).
      destruct (IH rest d1 (nextRef d) at_ (S j)) as (b2 & d' & Hwf' & Hfrag' & _ & Hrest);
        [simpl in Hlens; lia|done..|].
      exists (S (b1 `max` b2)), d'. split_and!; [done|done| |].
      { intros Hno. exfalso. apply Hno. rewrite Hsplit. by left. }
      intros fuel slots Hfuel. destruct fuel as [|fuel]; [lia|].
      cbn [splitMarkers]. rewrite (bind_Ok _ _ _ _ _ (getData_Text d text s Hs)).
      destruct (Z.leb_spec 0 (indexOf s replacement)); [|lia].
      fold off1. rewrite (bind_Ok _ _ _ _ _ Hrun1).
      destruct (Z.eqb_spec (indexOf s replacement) 0) as [_|Hne]; [|simpl in Hidx; lia].
      unfold bind at 1, ret. unfold bind at 1, get.
      unfold bind at 1, liftResult. rewrite Hpath by lia.
      rewrite Hrest by lia. rewrite Hsplit, (markerIndexes_found j [] rest) by done.
      simpl. by rewrite <- app_assoc.
    + (* text before the marker *)
      assert (splitText text off2 d1 = Ok (nextRef d1, splitOff text off2 (take off1 s) d1))
        as Hrun2.
      { apply splitText_spec; [done|]. rewrite length_take. lia. }
      destruct (split_step d1 content at_ j text _ off2 Hwf1 Hroot1 HT1 HsT1)
        as (Hwf2 & Hroot2 & HT2 & HN2 & HsT2 & HsN2 & Hframe2 & Hres2 & Hnext2).
      pose proof (isFragment_split d1 content text _ off2 Hwf1 Hfrag1 HsT1 Hframe2)
        as Hfrag2.
      set (d2 := splitOff text off2 (take off1 s) d1) in *.
      assert (resolves d2 content (at_ ++ [S (S j)]) (nextRef d)) as HN1'.
      { apply Hres2 in HN1. rewrite bump_child in HN1.
        by rewrite decide_True in HN1 by lia. }
      assert (payloadOf d2 (nextRef d) = Some (Text rest)) as HsN1'.
      { rewrite Hframe2; [done| |].
        - intros E. pose proof (live_payloadOf _ _ _ Hs) as Hl. rewrite <- E in Hl.
          by rewrite (fresh_not_live d Hwf) in Hl.
        - intros E. pose proof (live_payloadOf _ _ _ HsN1) as Hl. rewrite E in Hl.
          by rewrite (fresh_not_live d1 Hwf1) in Hl. }
      destruct (pathToNode_resolved d2 content _ _ Hwf2 Hroot2 HN2) as (b1 & Hpath).
      destruct (IH rest d2 (nextRef d) at_ (S (S j)))
        as (b2 & d' & Hwf' & Hfrag' & _ & Hrest); [simpl in Hlens; lia|done..|].
      exists (S (b1 `max` b2)), d'. split_and!; [done|done| |].
      { intros Hno. exfalso. apply Hno. rewrite Hsplit. apply elem_of_app. right. by left. }
      intros fuel slots Hfuel. destruct fuel as [|fuel]; [lia|].
      cbn [splitMarkers]. rewrite (bind_Ok _ _ _ _ _ (getData_Text d text s Hs)).
      destruct (Z.leb_spec 0 (indexOf s replacement)); [|lia].
      fold off1. rewrite (bind_Ok _ _ _ _ _ Hrun1).
      destruct (Z.eqb_spec (indexOf s replacement) 0) as [Heq|_];
        [simpl in Hidx; lia|].
      fold off2. rewrite (bind_Ok _ _ _ _ _ Hrun2).
      unfold bind at 1, get.
      unfold bind at 1, liftResult. rewrite Hpath by lia.
      rewrite Hrest by lia.
      rewrite Hsplit, (markerIndexes_found j (c :: pre') rest) by done.
      simpl. by rewrite <- app_assoc.
Qed.

(** X5: the [TEXT_NODE] case of the walk.  For a text node below the content,
    given enough fuel, the split loop records one node slot for each marker in
    the text, in order, at the child indexes [markerIndexes] gives (a marker
    with text before it sits one index further, after that text); their number
    is the number of markers (code unit 9889) in the text.  A text without a
    marker is left alone: the tree does not change. *)
Theorem visit_text d content at_ j text s :
  wf d -> isFragment d content ->
  nodeFromPath d (Some content) (at_ ++ [j]) = Ok (Some text) ->
  payloadOf d text = Some (Text s) ->
  exists bound d',
    (forall fuel slots, bound <= fuel ->
       visit fuel content text slots d
       = Ok (slots ++ map (fun k => TemplateNodeSlot (at_ ++ [k]))
                        (markerIndexes j false s), d')) /\
    length (markerIndexes j false s) = length (filter (fun c => c = 9889%N) s) /\
    wf d' /\ (9889%N ∉ s -> d' = d).
Proof.
  intros Hwf Hfrag Htext Hs.
  destruct (splitMarkers_spec content (length s) s d text at_ j
              (le_n _) Hwf Hfrag Htext Hs)
    as (bound & d' & Hwf' & _ & Hsame & Hrun).
  exists bound, d'. split_and!; [|apply markerIndexes_length|done|done].
  intros fuel slots Hfuel.
  apply payloadOf_node in Hs as (n & Hn & Hp).
  unfold visit, bind at 1, read. rewrite Hn, Hp. by apply Hrun.
Qed.

(** ** The update rule on a node slot: more cases *)

Lemma emptyArg_cases arg :
  emptyArg arg -> arg = ArgFalse \/ arg = ArgNull \/ arg = ArgUndefined.
Proof. destruct arg; simpl; intros H; try done; eauto. Qed.

Lemma node_detach_other d x q :
  q <> x -> parentOf d x <> Some q -> node (detach x d) q = node d q.
Proof.
  intros Hx Hp. unfold detach. destruct (parentOf d x) as [p|]; [|done].
  rewrite node_emit, node_setParent, decide_False by done.
  rewrite node_setChildren, decide_False; [done|congruence].
Qed.

Lemma node_detachAll_other l :
  forall d q,
    q ∉ l -> (forall x, x ∈ l -> parentOf d x <> Some q) ->
    node (detachAll l d) q = node d q.
Proof.
  induction l as [|x l IH]; intros d q Hq Hp; [done|].
  apply not_elem_of_cons in Hq as [Hne Hq].
  unfold detachAll in *. simpl. rewrite IH.
  - apply node_detach_other; [done|]. apply Hp. by left.
  - done.
  - intros y Hy. rewrite parentOf_detach. case_decide; [done|]. apply Hp. by right.
Qed.

Lemma nextRef_detachAll l d : nextRef (detachAll l d) = nextRef d.
Proof.
  revert d. induction l as [|x l IH]; intros d; [done|].
  unfold detachAll in *. simpl. rewrite IH. apply nextRef_detach.
Qed.

Lemma anchoredAt_region_parent d slot region e p pre post n :
  wf d -> anchoredAt d slot region e p pre post -> n ∈ region ->
  parentOf d n = Some p.
Proof.
  intros Hwf (_ & Hcs & _) Hn. apply (wf_child d Hwf). rewrite Hcs.
  apply elem_of_app. right. apply elem_of_app. by left.
Qed.

(** X10: [false], [null] and [undefined] empty a node slot.  Every node of the
    region leaves the tree, one removal each in region order, the parent keeps
    the nodes around the region, every other node is as it was, and applying
    the value again changes nothing. *)
Theorem updateNodeSlot_clears fuel d slot region pre post e p arg :
  wf d -> anchoredAt d slot region e p pre post -> length region <= fuel ->
  emptyArg arg ->
  exists d',
    updateNodeSlot fuel slot arg d = Ok (tt, d') /\
    childrenOf d' p = pre ++ e :: post /\
    (forall n, n ∈ region -> parentOf d' n = None) /\
    trace d' = trace d ++ map (ChildRemoved p) region /\
    (forall q, q <> p -> q ∉ region -> node d' q = node d q) /\
    updateNodeSlot fuel slot arg d' = Ok (tt, d').
Proof.
  intros Hwf Hat Hfuel Harg%emptyArg_cases.
  assert (anchored d slot region) as Hanch by (by exists e, p, pre, post).
  pose proof (anchoredAt_detachAll d slot region e p pre post region Hwf Hat
                (fun x H => H)) as Hat'.
  rewrite (filter_none (fun y => y ∉ region)) in Hat' by (intros y Hy H; done).
  exists (detachAll region d). split_and!.
  - by eapply updateNodeSlot_absent.
  - by destruct Hat' as (_ & -> & _).
  - intros n Hn. rewrite parentOf_detachAll. by rewrite decide_True.
  - apply trace_detachAll; [by eapply anchored_NoDup|].
    intros x Hx. by eapply anchoredAt_region_parent.
  - intros q Hq Hreg. apply node_detachAll_other; [done|].
    intros x Hx. rewrite (anchoredAt_region_parent d slot region e p pre post x Hwf Hat Hx).
    congruence.
  - rewrite (updateNodeSlot_absent fuel _ slot [] pre post e p
               (wf_detachAll _ _ Hwf) Hat') by (simpl; lia || done).
    done.
Qed.

Lemma updateNodeSlot_node_kept fuel d slot region pre post e p r :
  wf d -> anchoredAt d slot region e p pre post -> length region <= fuel ->
  insertable d slot p r -> ~ isFragment d r ->
  exists d1 pre1 post1,
    updateNodeSlot fuel slot (ArgNode r) d = Ok (tt, d1) /\ wf d1 /\
    anchoredAt d1 slot [r] e p pre1 post1 /\
    (forall q, payloadOf d1 q = payloadOf d q) /\
    (forall q, live d1 q = live d q).
Proof.
  intros Hwf Hat Hfuel Hins Hfrag.
  assert (anchored d slot region) as Hanch by (by exists e, p, pre, post).
  assert (insertedNodes d r = [r]) as Hnodes.
  { unfold insertedNodes. unfold isFragment in Hfrag.
    by destruct (payloadOf d r) as [[]|]. }
  destruct (decide (r ∈ region)) as [Hin|Hout].
  - exists (detachAll (filter (fun n => Some n <> Some r) region) d), pre, post.
    split_and!.
    + by eapply updateNodeSlot_present.
    + by apply wf_detachAll.
    + rewrite <- (filter_keep_one region r); [|by eapply anchored_NoDup|done].
      apply anchoredAt_detachAll; [done|done|].
      by intros x [_ ?]%list_elem_of_filter.
    + intros q. apply payloadOf_detachAll.
    + intros q. apply live_detachAll.
  - destruct (applied_spec d slot region pre post e p Hwf Hat r Hins Hout)
      as (Hwf' & (pre' & post' & Hat') & Hpay & Hlv & _ & _).
    rewrite Hnodes in *.
    exists (applied [r] region p e d), pre', post'. split_and!; try done.
    rewrite <- Hnodes. by eapply updateNodeSlot_inserted.
Qed.

(** X11: applying the node a slot already shows does nothing.  After a node
    that is no fragment has been applied, applying it again returns the very
    same state: nothing is inserted, removed or recorded. *)
Theorem updateNodeSlot_node_again fuel d slot region pre post e p r :
  wf d -> anchoredAt d slot region e p pre post -> length region <= fuel ->
  insertable d slot p r -> ~ isFragment d r ->
  exists d1,
    updateNodeSlot fuel slot (ArgNode r) d = Ok (tt, d1) /\
    anchored d1 slot [r] /\
    forall fuel', 1 <= fuel' ->
      updateNodeSlot fuel' slot (ArgNode r) d1 = Ok (tt, d1).
Proof.
  intros Hwf Hat Hfuel Hins Hfrag.
  destruct (updateNodeSlot_node_kept fuel d slot region pre post e p r
              Hwf Hat Hfuel Hins Hfrag)
    as (d1 & pre1 & post1 & Hrun & Hwf1 & Hat1 & _ & _).
  exists d1. split_and!; [done|by exists e, p, pre1, post1|].
  intros fuel' Hfuel'.
  rewrite (updateNodeSlot_present fuel' d1 slot [r] pre1 post1 e p Hwf1 Hat1)
    by (simpl; lia || by left).
  by rewrite filter_cons_False by (intros H; by apply H).
Qed.

(** X12: a string update writes into a text node the caller supplied.  After
    a text node has been applied as a node, applying a string creates no node:
    the data of the caller's text node is overwritten and it stays the only
    node of the region. *)
Theorem updateNodeSlot_string_takes_given_text
    fuel d slot region pre post e p r s0 s :
  wf d -> anchoredAt d slot region e p pre post -> length region <= fuel ->
  insertable d slot p r -> payloadOf d r = Some (Text s0) -> 1 <= fuel ->
  exists d1 d2,
    updateNodeSlot fuel slot (ArgNode r) d = Ok (tt, d1) /\
    updateNodeSlot fuel slot (ArgString s) d1 = Ok (tt, d2) /\
    anchored d2 slot [r] /\ payloadOf d2 r = Some (Text s) /\
    nextRef d2 = nextRef d1 /\
    trace d2 = trace d1 ++ [CharacterData r s].
Proof.
  intros Hwf Hat Hfuel Hins Hr Hone.
  assert (~ isFragment d r) as Hfrag by (unfold isFragment; congruence).
  destruct (updateNodeSlot_node_kept fuel d slot region pre post e p r
              Hwf Hat Hfuel Hins Hfrag)
    as (d1 & pre1 & post1 & Hrun & Hwf1 & Hat1 & Hpay1 & _).
  assert (anchored d1 slot [r]) as Hanch1 by (by exists e, p, pre1, post1).
  assert (payloadOf d1 r = Some (Text s0)) as Hr1 by (by rewrite Hpay1).
  assert (List.find (isText d1) [r] = Some r) as Hfind.
  { simpl. unfold isText, payloadOf in *.
    by destruct (node d1 r) as [[[] ? ?]|]. }
  pose proof (updateNodeSlot_reuse fuel d1 slot [r] s Hwf1 Hanch1 Hone r Hfind)
    as Hrun2.
  assert (textReused r s [r] d1 = emit (CharacterData r s) (setPayload r (Text s) d1))
    as Hd2.
  { unfold textReused. by rewrite filter_cons_False by (intros H; by apply H). }
  rewrite Hd2 in Hrun2.
  exists d1, (emit (CharacterData r s) (setPayload r (Text s) d1)).
  split_and!; try done.
  - eapply anchored_ext; [|exact Hanch1]. intros q. by dom_simpl.
  - dom_simpl. rewrite decide_True by done. by rewrite (live_payloadOf _ _ _ Hr1).
Qed.

(** X13: a fragment can be applied once.  Applying a fragment moves its
    children into the region and leaves the fragment empty; applying the same
    fragment again takes those children out of the tree and leaves the region
    empty. *)
Theorem updateNodeSlot_fragment_twice fuel fuel2 d slot region pre post e p F :
  wf d -> anchoredAt d slot region e p pre post -> length region <= fuel ->
  insertable d slot p F -> isFragment d F ->
  length (childrenOf d F) <= fuel2 ->
  exists d1 d2,
    updateNodeSlot fuel slot (ArgNode F) d = Ok (tt, d1) /\
    anchored d1 slot (childrenOf d F) /\ childrenOf d1 F = [] /\
    updateNodeSlot fuel2 slot (ArgNode F) d1 = Ok (tt, d2) /\
    anchored d2 slot [] /\
    forall k, k ∈ childrenOf d F -> parentOf d2 k = None.
Proof.
  intros Hwf Hat Hfuel Hins HF Hfuel2.
  assert (insertedNodes d F = childrenOf d F) as Hnodes.
  { unfold insertedNodes. unfold isFragment in HF. by rewrite HF. }
  assert (F ∉ region) as Hout.
  { intros Hin.
    pose proof (anchoredAt_region_parent d slot region e p pre post F Hwf Hat Hin)
      as HpF.
    by rewrite (wf_fragment d Hwf F HF) in HpF. }
  destruct (applied_spec d slot region pre post e p Hwf Hat F Hins Hout)
    as (Hwf1 & (pre1 & post1 & Hat1) & Hpay1 & Hlv1 & Hpar1 & _).
  rewrite Hnodes in *.
  pose proof (updateNodeSlot_inserted fuel d slot region pre post e p Hwf Hat Hfuel
                F Hout Hins) as Hrun1.
  rewrite Hnodes in Hrun1.
  set (d1 := applied (childrenOf d F) region p e d) in *.
  destruct Hins as (Hlive & Hs & He & Hanc).
  assert (F <> p) as HFp by (by apply (isInclusiveAncestor_ne d)).
  assert (childrenOf d1 F = []) as Hkids1.
  { destruct (childrenOf d1 F) as [|c cs] eqn:Hcs; [done|]. exfalso.
    assert (parentOf d1 c = Some F) as Hc.
    { apply (wf_child d1 Hwf1). rewrite Hcs. by left. }
    rewrite Hpar1 in Hc. repeat case_decide; [done|congruence|].
    by apply (wf_parent d Hwf) in Hc. }
  assert (isFragment d1 F) as HF1 by (unfold isFragment; by rewrite Hpay1).
  assert (insertable d1 slot p F) as Hins1.
  { split_and!; [by rewrite Hlv1|done|done|].
    by apply isInclusiveAncestorFuel_childless. }
  destruct (updateNodeSlot_spec fuel2 d1 slot (childrenOf d F) pre1 post1 e p
              (ArgNode F) Hwf1 Hat1 Hfuel2 Hins1)
    as (d2 & kept & pre2 & post2 & Hrun2 & _ & Hat2 & Hkept & Hgone & _).
  simpl in Hkept. unfold insertedNodes in Hkept. rewrite HF1, Hkids1 in Hkept.
  subst kept.
  exists d1, d2. split_and!; try done.
  - by exists e, p, pre1, post1.
  - by exists e, p, pre2, post2.
  - intros k Hk. apply Hgone; [done|]. apply not_elem_of_nil.
Qed.


(** ** A boundary that has left the parent *)

Lemma collectForward_all d p A n R (boundary : option NodeRef) fuel nodes :
  wf d -> childrenOf d p = A ++ n :: R -> length R <= fuel ->
  (forall e, boundary = Some e -> e ∉ R) ->
  collectForward fuel d n boundary nodes = Ok (nodes ++ R).
Proof.
  intros Hwf. revert A n fuel nodes.
  induction R as [|x R IH]; intros A n fuel nodes Hcs Hfuel Hend.
  - rewrite app_nil_r. pose proof (sibling_next d Hwf p n A _ Hcs) as Hn.
    simpl in Hn. destruct fuel; simpl; by rewrite Hn.
  - simpl in Hfuel. destruct fuel as [|fuel]; [lia|]. simpl.
    rewrite (sibling_next d Hwf p n A _ Hcs). simpl.
    rewrite decide_False.
    2:{ intros E. symmetry in E. apply Hend in E. apply E. by left. }
    rewrite (IH (A ++ [n]) x fuel (nodes ++ [x])).
    + by rewrite <- app_assoc.
    + by rewrite <- app_assoc.
    + lia.
    + intros e He Hin. apply (Hend e He). by right.
Qed.

(** X14: an "after" boundary that is no longer a later sibling of the
    "before" boundary.  [collectChildNodes] then returns every later sibling of
    the "before" boundary, and an update with an empty value removes them all:
    the parent keeps its children up to the "before" boundary only. *)
Theorem updateNodeSlot_lost_end fuel d p A s R (boundary : option NodeRef) arg :
  wf d -> childrenOf d p = A ++ s :: R -> length R <= fuel ->
  (forall e, boundary = Some e -> e ∉ R) -> emptyArg arg ->
  let slot := mkNodeSlot (Some s) boundary in
  collectChildNodes fuel (Some s) boundary d = Ok (R, d) /\
  exists d',
    updateNodeSlot fuel slot arg d = Ok (tt, d') /\
    childrenOf d' p = A ++ [s] /\
    forall n, n ∈ R -> parentOf d' n = None.
Proof.
  intros Hwf Hcs Hfuel Hend Harg%emptyArg_cases. cbn zeta.
  assert (forall n, n ∈ R -> n ∈ childrenOf d p) as Hsub.
  { intros n Hn. rewrite Hcs. apply elem_of_app. right. by right. }
  assert (collectChildNodes fuel (Some s) boundary d = Ok (R, d)) as Hcollect.
  { unfold collectChildNodes, bind at 1, get.
    destruct (read_Ok d s) as (x & _ & Hread).
    { eapply wf_child_live; [done|]. rewrite Hcs. apply elem_of_app. right. by left. }
    unfold bind. rewrite Hread.
    by rewrite (collectForward_all d p A s R boundary fuel [] Hwf Hcs Hfuel Hend). }
  split; [done|].
  assert (removeOthers R None d = Ok (tt, detachAll R d)) as Hrm.
  { rewrite removeOthers_spec.
    - by rewrite (filter_all (fun n => Some n <> None)).
    - intros n Hn. eapply wf_child_live; [done|]. by apply Hsub. }
  exists (detachAll R d). split_and!.
  - unfold updateNodeSlot. cbn [startAfter endBefore].
    rewrite (bind_Ok _ _ _ _ _ Hcollect).
    by destruct Harg as [->|[->| ->]].
  - rewrite childrenOf_detachAll, Hcs by done.
    pose proof (wf_nodup d Hwf p) as Hnd. rewrite Hcs in Hnd.
    rewrite filter_app, filter_cons_True.
    + rewrite (filter_all (fun y => y ∉ R) A), (filter_none (fun y => y ∉ R) R).
      * done.
      * intros y Hy H. by apply H.
      * intros y Hy Hin. apply NoDup_app in Hnd as (_ & Hdis & _).
        apply (Hdis y Hy). by right.
    + by apply NoDup_app_cons_r in Hnd.
  - intros n Hn. rewrite parentOf_detachAll. by rewrite decide_True.
Qed.

(** X15: two slots with nothing between them.  The first slot spans the node
    [m1] up to [m2], the second spans [m2] between [m1] and the next node.
    Once an empty value has taken [m1] out of the tree, the second slot sees
    an empty region: updating it with an empty value changes nothing, and [m2]
    stays in the parent. *)
Theorem updateNodeSlot_adjacent fuel d p m1 m2 e2 post arg1 arg2 :
  wf d -> childrenOf d p = m1 :: m2 :: e2 :: post -> 1 <= fuel ->
  emptyArg arg1 -> emptyArg arg2 ->
  let slot1 := mkNodeSlot None (Some m2) in
  let slot2 := mkNodeSlot (Some m1) (Some e2) in
  anchored d slot1 [m1] /\ anchored d slot2 [m2] /\
  exists d1,
    updateNodeSlot fuel slot1 arg1 d = Ok (tt, d1) /\
    updateNodeSlot fuel slot2 arg2 d1 = Ok (tt, d1) /\
    childrenOf d1 p = m2 :: e2 :: post.
Proof.
  intros Hwf Hcs Hfuel Harg1 Harg2%emptyArg_cases. cbn zeta.
  assert (anchoredAt d (mkNodeSlot None (Some m2)) [m1] m2 p [] (e2 :: post)) as Hat1.
  { by split_and!. }
  assert (anchoredAt d (mkNodeSlot (Some m1) (Some e2)) [m2] e2 p [m1] post) as Hat2.
  { split_and!; [done|done|]. by exists []. }
  split; [by exists m2, p, [], (e2 :: post)|].
  split; [by exists e2, p, [m1], post|].
  pose proof (updateNodeSlot_absent fuel d _ [m1] [] (e2 :: post) m2 p Hwf Hat1
                Hfuel arg1 (emptyArg_cases arg1 Harg1)) as Hrun1.
  pose proof (anchoredAt_detachAll d _ [m1] m2 p [] (e2 :: post) [m1] Hwf Hat1
                (fun x H => H)) as (_ & Hcs1 & _).
  rewrite (filter_none (fun y => y ∉ [m1])) in Hcs1 by (intros y Hy H; done).
  set (d1 := detachAll [m1] d) in *.
  exists d1. split_and!; [done| |done].
  assert (parentOf d1 m1 = None) as Hm1.
  { subst d1. rewrite parentOf_detachAll. rewrite decide_True; [done|by left]. }
  assert (live d1 m1 = true) as Hlive.
  { subst d1. rewrite live_detachAll. eapply wf_child_live; [done|].
    rewrite Hcs. by left. }
  unfold updateNodeSlot, collectChildNodes. cbn [startAfter endBefore].
  unfold bind at 1. unfold bind at 1, get.
  destruct (read_Ok d1 m1 Hlive) as (x & _ & Hread).
  unfold bind at 1. rewrite Hread.
  assert (nextSibling d1 m1 = None) as Hnext.
  { unfold nextSibling, siblingIndex. by rewrite Hm1. }
  assert (collectForward fuel d1 m1 (Some e2) [] = Ok []) as ->.
  { destruct fuel; simpl; by rewrite Hnext. }
  simpl. by destruct Harg2 as [->|[->| ->]].
Qed.


(** ** Attribute values: set, read back, remove *)

Lemma getAssoc_setAssoc name value (l : list (JSString * JSString)) : getAssoc name (setAssoc name value l) = Some value.
Proof.
  induction l as [|[k v] l IH]; simpl.
  - by rewrite decide_True.
  - destruct (decide (k = name)) as [->|Hne]; simpl.
    + by rewrite decide_True.
    + by rewrite decide_False.
Qed.

Lemma setAssoc_names name value (l : list (JSString * JSString)) :
  name ∈ l.*1 -> (setAssoc name value l).*1 = l.*1.
Proof.
  induction l as [|[k v] l IH]; csimpl; [by intros ?%elem_of_nil|].
  destruct (decide (k = name)) as [->|Hne]; csimpl; [done|].
  intros [?|Hin]%elem_of_cons; [congruence|]. f_equal. by apply IH.
Qed.

Lemma setAssoc_new name value (l : list (JSString * JSString)) :
  name ∉ l.*1 -> setAssoc name value l = l ++ [(name, value)].
Proof.
  induction l as [|[k v] l IH]; csimpl; [done|].
  intros [Hne Hl]%not_elem_of_cons.
  rewrite decide_False by congruence. f_equal. by apply IH.
Qed.

Lemma setAssoc_NoDup name value (l : list (JSString * JSString)) : NoDup l.*1 -> NoDup (setAssoc name value l).*1.
Proof.
  intros Hnd. destruct (decide (name ∈ l.*1)) as [Hin|Hout].
  - by rewrite setAssoc_names.
  - rewrite setAssoc_new by done. rewrite fmap_app. simpl.
    apply NoDup_app. split_and!; [done| |apply NoDup_singleton].
    intros x Hx ->%list_elem_of_singleton. done.
Qed.

(** X16: an attribute slot set and cleared.  A string update sets the
    attribute, which then reads back as that string; a following update with
    an empty value removes it, and it reads back as absent.  Each update is
    one attribute mutation. *)
Theorem updateAttrValueSlot_string d slot el tag attrs s arg :
  slotElement slot = Some el ->
  payloadOf d el = Some (Element tag attrs) -> NoDup attrs.*1 -> emptyArg arg ->
  exists d1 d2,
    updateAttrValueSlot slot (ArgString s) d = Ok (tt, d1) /\
    getAttribute d1 el (slotName slot) = Some s /\
    trace d1 = trace d ++ [AttributeSet el (slotName slot) s] /\
    updateAttrValueSlot slot arg d1 = Ok (tt, d2) /\
    getAttribute d2 el (slotName slot) = None /\
    trace d2 = trace d1 ++ [AttributeRemoved el (slotName slot)].
Proof.
  intros Hel Hp Hnd Harg.
  pose proof (setAttribute_Element d el tag attrs (slotName slot) s Hp) as Hset.
  set (attrs1 := setAssoc (slotName slot) s attrs) in *.
  set (d1 := emit (AttributeSet el (slotName slot) s)
               (setPayload el (Element tag attrs1) d)) in *.
  assert (payloadOf d1 el = Some (Element tag attrs1)) as Hp1.
  { subst d1. dom_simpl. rewrite decide_True by done.
    by rewrite (live_payloadOf _ _ _ Hp). }
  pose proof (removeAttribute_Element d1 el tag attrs1 (slotName slot) Hp1) as Hrm.
  assert (getAssoc (slotName slot) attrs1 = Some s) as Hhas
    by apply getAssoc_setAssoc.
  rewrite Hhas in Hrm.
  set (d2 := emit (AttributeRemoved el (slotName slot))
               (setPayload el (Element tag (removeAssoc (slotName slot) attrs1)) d1))
    in *.
  assert (forall d0 x, payloadOf d0 el = Some (Element tag x) ->
            getAttribute d0 el (slotName slot) = getAssoc (slotName slot) x) as Hget.
  { intros d0 x (n & Hn & Hx)%payloadOf_node. unfold getAttribute. rewrite Hn.
    destruct n as [y ? ?]. simpl in Hx. by subst y. }
  exists d1, d2. split_and!.
  - unfold updateAttrValueSlot, withElement. by rewrite Hel.
  - rewrite (Hget d1 attrs1 Hp1). apply getAssoc_setAssoc.
  - done.
  - unfold updateAttrValueSlot, withElement. rewrite Hel.
    by destruct arg.
  - rewrite (Hget d2 (removeAssoc (slotName slot) attrs1)).
    + apply getAssoc_removeAssoc. by apply setAssoc_NoDup.
    + subst d2. dom_simpl. rewrite decide_True by done.
      by rewrite (live_payloadOf _ _ _ Hp1).
  - done.
Qed.

(** ** The instance's slot lists *)

Lemma resolveAll_kinds d fragment templateSlots resolved :
  resolveAll d fragment templateSlots = Ok resolved ->
  Forall2 sameKind templateSlots resolved.
Proof.
  revert resolved. induction templateSlots as [|ts rest IH]; intros resolved; simpl.
  - intros [= <-]. constructor.
  - destruct (resolveSlot d fragment ts) as [slot| |] eqn:Hslot; [|done..].
    destruct (resolveAll d fragment rest) as [l| |]; [|done..].
    intros [= <-]. constructor; [|by apply IH].
    destruct ts as [path|path name]; cbn [resolveSlot] in Hslot.
    + destruct (nodeFromPath d (Some fragment) path) as [[n|]| |]; [|done..].
      by injection Hslot as <-.
    + destruct (nodeFromPath d (Some fragment) path) as [n| |]; [|done..].
      by injection Hslot as <-.
Qed.

Lemma onlySlots_length slots :
  length (onlyNodeSlots slots) + length (onlyAttrValueSlots slots) = length slots.
Proof.
  induction slots as [|[s|s] slots IH]; [done|..];
    cbn [onlyNodeSlots onlyAttrValueSlots omap list_omap length] in *;
    unfold onlyNodeSlots, onlyAttrValueSlots in IH; lia.
Qed.

(** X8: the slot lists of an instance.  [slots] has one entry for each slot
    of the template, of the same kind and, for an attribute, the same name, in
    the template's order; [nodeSlots] and [attrValueSlots] are the entries of
    each kind, in that order, and together as many as the template's slots. *)
Theorem createTemplateInstance_slot_lists fuel template args d instance d' :
  createTemplateInstance fuel template args d = Ok (instance, d') ->
  Forall2 sameKind (slots template) (instanceSlots instance) /\
  nodeSlots instance = onlyNodeSlots (instanceSlots instance) /\
  attrValueSlots instance = onlyAttrValueSlots (instanceSlots instance) /\
  length (nodeSlots instance) + length (attrValueSlots instance)
  = length (slots template).
Proof.
  intros Hrun. unfold createTemplateInstance in Hrun. cbn zeta in Hrun.
  apply bind_inv in Hrun as (F & dc & _ & Hrun).
  apply bind_inv in Hrun as (anchors & dc' & Hcollect & Hrun).
  apply bind_inv in Hrun as ([] & du & _ & Hrun).
  injection Hrun as <- <-. cbn [instanceSlots nodeSlots attrValueSlots].
  rewrite collectSlots_resolveAll in Hcollect.
  destruct (resolveAll dc F (slots template)) as [resolved| |] eqn:Hres; [|done..].
  injection Hcollect as <- <-. cbn [app].
  pose proof (resolveAll_kinds dc F _ _ Hres) as Hkinds.
  split_and!; [done|done|done|].
  rewrite onlySlots_length. symmetry. by eapply Forall2_length.
Qed.


(** ** What existed before stays as it was *)

Section Extends.
Context (d0 : Dom) (Hwf0 : wf d0).
Let old := nextRef d0.

Lemma extends_parent d q p :
  extends d0 old d -> old <= q -> parentOf d q = Some p -> old <= p.
Proof using Hwf0.
  intros (Hwf & _ & Hsame) Hq Hp.
  destruct (decide (old <= p)) as [|Hlt]; [done|]. exfalso.
  apply (wf_parent d Hwf) in Hp.
  rewrite (childrenOf_node d0 d p) in Hp by (apply Hsame; lia).
  apply (wf_child_live d0 _ _ Hwf0), live_is_Some, (wf_fresh d0 Hwf0) in Hp.
  subst old. lia.
Qed.

Lemma extends_child d q c :
  extends d0 old d -> old <= q -> c ∈ childrenOf d q -> old <= c.
Proof using Hwf0.
  intros (Hwf & _ & Hsame) Hq Hc.
  destruct (decide (old <= c)) as [|Hlt]; [done|]. exfalso.
  apply (wf_child d Hwf) in Hc.
  rewrite (parentOf_node_eq d0 d c) in Hc by (apply Hsame; lia).
  apply (wf_parent d0 Hwf0), live_childrenOf, live_is_Some, (wf_fresh d0 Hwf0) in Hc.
  subst old. lia.
Qed.

Lemma extends_next d n m :
  extends d0 old d -> old <= n -> nextSibling d n = Some m ->
  old <= m /\ live d m = true.
Proof using Hwf0.
  intros Hext Hn Hm. pose proof Hext as (Hwf & _).
  apply (nextSibling_Some d n m Hwf) in Hm as (P & i & Hi & HSi).
  apply (lookup_child d P i n Hwf) in Hi as [Hpar _].
  apply list_elem_of_lookup_2 in HSi. split.
  - eapply extends_child; [done| |exact HSi]. by eapply extends_parent.
  - by eapply wf_child_live.
Qed.

Lemma previousSibling_Some d n x :
  wf d -> previousSibling d n = Some x ->
  exists P, parentOf d n = Some P /\ x ∈ childrenOf d P.
Proof.
  intros Hwf. unfold previousSibling, siblingIndex.
  destruct (parentOf d n) as [P|]; [|done]. simpl.
  destruct (position n (childrenOf d P)) as [[|i]|]; [done| |done]. simpl.
  intros Hx. exists P. split; [done|]. by eapply list_elem_of_lookup_2.
Qed.

Lemma extends_previous d n m :
  extends d0 old d -> old <= n -> previousSibling d n = Some m ->
  old <= m /\ live d m = true.
Proof using Hwf0.
  intros Hext Hn Hm. pose proof Hext as (Hwf & _).
  apply (previousSibling_Some d n m Hwf) in Hm as (P & Hpar & Hin). split.
  - eapply extends_child; [done| |exact Hin]. by eapply extends_parent.
  - by eapply wf_child_live.
Qed.

Lemma collectForward_above d fuel :
  forall n boundary nodes l,
    extends d0 old d -> old <= n ->
    (forall x, x ∈ nodes -> old <= x /\ live d x = true) ->
    collectForward fuel d n boundary nodes = Ok l ->
    forall x, x ∈ l -> old <= x /\ live d x = true.
Proof using Hwf0.
  induction fuel as [|fuel IH]; intros n boundary nodes l Hext Hn Hnodes;
    cbn [collectForward].
  - destruct (nextSibling d n) as [n'|]; [|by intros [= <-]].
    case_decide; [by intros [= <-]|done].
  - destruct (nextSibling d n) as [n'|] eqn:Hnext; [|by intros [= <-]].
    case_decide; [by intros [= <-]|].
    destruct (extends_next d n n' Hext Hn Hnext) as [Hn' Hlive].
    apply IH; [done|done|].
    intros x [Hx|Hx]%elem_of_app; [by apply Hnodes|].
    by apply list_elem_of_singleton in Hx as ->.
Qed.

Lemma collectBackward_above d fuel :
  forall n nodes l,
    extends d0 old d -> old <= n ->
    (forall x, x ∈ nodes -> old <= x /\ live d x = true) ->
    collectBackward fuel d n nodes = Ok l ->
    forall x, x ∈ l -> old <= x /\ live d x = true.
Proof using Hwf0.
  induction fuel as [|fuel IH]; intros n nodes l Hext Hn Hnodes;
    cbn [collectBackward].
  - destruct (previousSibling d n) as [n'|]; [done|by intros [= <-]].
  - destruct (previousSibling d n) as [n'|] eqn:Hprev; [|by intros [= <-]].
    destruct (extends_previous d n n' Hext Hn Hprev) as [Hn' Hlive].
    apply IH; [done|done|].
    intros x [->|Hx]%elem_of_cons; [done|by apply Hnodes].
Qed.

Lemma collectChildNodes_above d fuel slot current d' :
  extends d0 old d -> slotAbove old (InstanceNodeSlot slot) ->
  collectChildNodes fuel (startAfter slot) (endBefore slot) d = Ok (current, d') ->
  d' = d /\ forall x, x ∈ current -> old <= x /\ live d x = true.
Proof using Hwf0.
  intros Hext [Ha He] Hrun. unfold collectChildNodes, bind at 1, get in Hrun.
  destruct (startAfter slot) as [a|].
  - apply bind_inv in Hrun as (x & d1 & Hread & Hrun).
    unfold read in Hread. destruct (node d a); [|done]. injection Hread as <- <-.
    unfold liftResult in Hrun.
    destruct (collectForward fuel d a (endBefore slot) []) as [l| |] eqn:Hl; [|done..].
    injection Hrun as <- <-. split; [done|].
    eapply collectForward_above; [done|by apply Ha| |exact Hl].
    by intros x ?%elem_of_nil.
  - destruct (endBefore slot) as [e|]; [|done].
    apply bind_inv in Hrun as (x & d1 & Hread & Hrun).
    unfold read in Hread. destruct (node d e); [|done]. injection Hread as <- <-.
    unfold liftResult in Hrun.
    destruct (collectBackward fuel d e []) as [l| |] eqn:Hl; [|done..].
    injection Hrun as <- <-. split; [done|].
    eapply collectBackward_above; [done|by apply He| |exact Hl].
    by intros x ?%elem_of_nil.
Qed.

Lemma extends_detach d x :
  extends d0 old d -> old <= x -> extends d0 old (detach x d).
Proof using Hwf0.
  intros Hext Hx. pose proof Hext as (Hwf & Hnext & Hsame). split_and!.
  - by apply wf_detach.
  - by rewrite nextRef_detach.
  - intros q Hq. rewrite node_detach_other; [by apply Hsame|lia|].
    intros Hp. apply (extends_parent d x q Hext Hx) in Hp. lia.
Qed.

Lemma extends_detachAll l :
  forall d, extends d0 old d -> (forall x, x ∈ l -> old <= x) ->
            extends d0 old (detachAll l d).
Proof using Hwf0.
  induction l as [|x l IH]; intros d Hext Hl; [done|].
  unfold detachAll in *. simpl. apply IH.
  - apply extends_detach; [done|]. apply Hl. by left.
  - intros y Hy. apply Hl. by right.
Qed.

Lemma extends_removeOthers current keep d d' :
  extends d0 old d -> (forall x, x ∈ current -> old <= x /\ live d x = true) ->
  removeOthers current keep d = Ok (tt, d') ->
  extends d0 old d' /\ nextRef d' = nextRef d.
Proof using Hwf0.
  intros Hext Hcur Hrun.
  rewrite removeOthers_spec in Hrun by (intros n Hn; by apply Hcur).
  injection Hrun as <-. split; [|apply nextRef_detachAll].
  apply extends_detachAll; [done|].
  intros x [_ Hx]%list_elem_of_filter. by apply Hcur.
Qed.

Lemma extends_setPayload d r x x0 ev :
  extends d0 old d -> old <= r -> payloadOf d r = Some x0 ->
  canHaveChildren x0 = canHaveChildren x ->
  (x = DocumentFragment -> x0 = DocumentFragment) ->
  extends d0 old (emit ev (setPayload r x d)).
Proof using Hwf0.
  intros (Hwf & Hnext & Hsame) Hr Hp Hcan Hfrag. split_and!.
  - apply wf_emit. by eapply wf_setPayload.
  - done.
  - intros q Hq. rewrite node_emit, node_setPayload, decide_False by lia.
    by apply Hsame.
Qed.

Lemma extends_allocated d x : extends d0 old d -> extends d0 old (allocated x d).
Proof using Hwf0.
  intros (Hwf & Hnext & Hsame). split_and!.
  - by apply wf_allocated.
  - rewrite nextRef_allocated. lia.
  - intros q Hq. rewrite node_allocated_other by lia. by apply Hsame.
Qed.

Lemma extends_attach d r p child x :
  extends d0 old d -> old <= r -> old <= p ->
  parentOf d r = None -> live d r = true -> ~ isFragment d r ->
  payloadOf d p = Some x -> canHaveChildren x = true ->
  extends d0 old (attach r p child d).
Proof using Hwf0.
  intros (Hwf & Hnext & Hsame) Hr Hp Hnone Hlive Hfrag Hx Hcan. split_and!.
  - by eapply wf_attach.
  - by rewrite nextRef_attach.
  - intros q Hq. unfold attach. rewrite node_emit, node_link_other by lia.
    by apply Hsame.
Qed.

(** [e.before(t)] for a text node [t] that has just been created. *)
Lemma extends_before_fresh d e s d' :
  extends d0 old d -> old <= e ->
  before e (nextRef d) (allocated (Text s) d) = Ok (tt, d') ->
  extends d0 old d' /\ (forall q, live d q = true -> live d' q = true) /\
  nextRef d' = S (nextRef d).
Proof using Hwf0.
  intros Hext He Hrun. pose proof Hext as (Hwf & Hnext & Hsame).
  pose proof (extends_allocated d (Text s) Hext) as Hext1.
  set (d1 := allocated (Text s) d) in *. set (t := nextRef d) in *.
  assert (forall q, live d q = true -> live d1 q = true) as Hlive1.
  { intros q Hq. subst d1. rewrite live_allocated. by case_decide. }
  unfold before, bind at 1, get in Hrun.
  destruct (siblingIndex d1 e) as [[p i]|] eqn:Hsib.
  2:{ apply bind_inv in Hrun as (x & d2 & Hread & Hrun).
      unfold read in Hread. destruct (node d1 e); [|done].
      injection Hread as <- <-. injection Hrun as <-. split_and!; try done. }
  assert (parentOf d1 e = Some p) as Hpe.
  { unfold siblingIndex in Hsib. destruct (parentOf d1 e) as [p'|]; [|done].
    simpl in Hsib. destruct (position e (childrenOf d1 p')); [|done].
    by injection Hsib as ->. }
  assert (old <= p) as Hp by (by eapply (extends_parent d1 e p)).
  unfold preInsert in Hrun.
  apply bind_inv in Hrun as (pn & d2 & Hread & Hrun).
  unfold read in Hread. destruct (node d1 p) as [pn'|] eqn:Hpn; [|done].
  injection Hread as -> <-. unfold bind at 1, get in Hrun.
  destruct (canHaveChildren (payload pn)) eqn:Hcan; [|done]. simpl in Hrun.
  destruct (isInclusiveAncestor d1 t p); [done|].
  unfold insert in Hrun.
  apply bind_inv in Hrun as (tn & d2 & Hread & Hrun).
  assert (node d1 t = Some (mkNode (Text s) None [])) as Ht.
  { subst d1 t. rewrite node_allocated. by rewrite decide_True. }
  unfold read in Hread. rewrite Ht in Hread. injection Hread as <- <-.
  cbn [payload] in Hrun. unfold modify in Hrun. injection Hrun as <-.
  cbn [foldl].
  assert (parentOf d1 t = None) as Hnone by (unfold parentOf; by rewrite Ht).
  assert (detach t d1 = d1) as -> by (unfold detach; by rewrite Hnone).
  split_and!.
  - eapply extends_attach; try done.
    + unfold live. by rewrite Ht.
    + unfold isFragment, payloadOf. by rewrite Ht.
    + unfold payloadOf. by rewrite Hpn.
  - intros q Hq. rewrite live_attach. by apply Hlive1.
  - by rewrite nextRef_attach.
Qed.

Lemma extends_updateNodeSlot fuel slot arg d d' :
  extends d0 old d -> slotAbove old (InstanceNodeSlot slot) ->
  (forall r, arg <> ArgNode r) ->
  updateNodeSlot fuel slot arg d = Ok (tt, d') ->
  extends d0 old d' /\ nextRef d <= nextRef d'.
Proof using Hwf0.
  intros Hext Hslot Harg Hrun. unfold updateNodeSlot in Hrun.
  apply bind_inv in Hrun as (current & d1 & Hcollect & Hrun).
  apply (collectChildNodes_above d fuel slot current d1 Hext Hslot) in Hcollect
    as [-> Hcur].
  assert (forall keep, removeOthers current keep d = Ok (tt, d') ->
            extends d0 old d' /\ nextRef d <= nextRef d') as Hempty.
  { intros keep Hrm.
    destruct (extends_removeOthers current keep d d' Hext Hcur Hrm) as [? ->].
    by split. }
  destruct arg as [s|r| | |];
    [| by destruct (Harg r) | by eapply Hempty..].
  unfold bind at 1, get in Hrun.
  destruct (List.find (isText d) current) as [t|] eqn:Hfind.
  - destruct (find_isText_Some _ _ _ Hfind) as (Hin & s0 & Ht).
    rewrite (bind_Ok _ _ _ _ _ (setData_Text d t s0 s Ht)) in Hrun.
    assert (extends d0 old (emit (CharacterData t s) (setPayload t (Text s) d)))
      as Hext1.
    { eapply extends_setPayload; [done|by apply Hcur|exact Ht|done|done]. }
    destruct (extends_removeOthers current (Some t) _ d' Hext1) as [? ->];
      [|exact Hrun|by split].
    intros x Hx. split; [by apply Hcur|]. dom_simpl. by apply Hcur.
  - unfold bind at 1, createTextNode, alloc in Hrun.
    apply bind_inv in Hrun as ([] & d2 & Hins & Hrun).
    unfold insertBeforeEnd in Hins.
    destruct (endBefore slot) as [e|] eqn:He; [|done].
    destruct Hslot as [_ Hend].
    destruct (extends_before_fresh d e s d2 Hext (Hend e He) Hins)
      as (Hext2 & Hlive2 & Hnext2).
    destruct (extends_removeOthers current (Some (nextRef d)) d2 d' Hext2) as [? ->];
      [|exact Hrun|split; [done|lia]].
    intros x Hx. split; [by apply Hcur|]. by apply Hlive2, Hcur.
Qed.

Lemma extends_updateAttrValueSlot slot arg d d' :
  extends d0 old d -> slotAbove old (InstanceAttrValueSlot slot) ->
  (forall r, arg <> ArgNode r) ->
  updateAttrValueSlot slot arg d = Ok (tt, d') ->
  extends d0 old d' /\ nextRef d <= nextRef d'.
Proof using Hwf0.
  intros Hext Hslot Harg Hrun. simpl in Hslot.
  unfold updateAttrValueSlot, withElement in Hrun.
  assert (forall el tag attrs attrs' ev,
            old <= el -> payloadOf d el = Some (Element tag attrs) ->
            let d1 := emit ev (setPayload el (Element tag attrs') d) in
            extends d0 old d1 /\ nextRef d <= nextRef d1) as Hset.
  { intros el tag attrs attrs' ev Hel Hp. cbn zeta. split; [|done].
    eapply extends_setPayload; [done|done|exact Hp|done|done]. }
  assert (forall el name n,
            node d el = Some n ->
            match payload n with
            | Element tag attrs =>
                match getAssoc name attrs with
                | Some _ =>
                    modify (fun d1 => emit (AttributeRemoved el name)
                       (setPayload el (Element tag (removeAssoc name attrs)) d1))
                | None => ret tt
                end
            | _ => throw TypeError
            end d = Ok (tt, d') ->
            old <= el -> extends d0 old d' /\ nextRef d <= nextRef d') as Hremove.
  { intros el name n Hn Hm Hel. destruct (payload n) as [tag attrs| | |] eqn:Hp;
      [|done..]. destruct (getAssoc name attrs).
    - injection Hm as <-. apply (Hset el tag attrs); [done|].
      unfold payloadOf. by rewrite Hn, <- Hp.
    - injection Hm as <-. done. }
  destruct arg as [s|r| | |]; [|by destruct (Harg r)|..];
    destruct (slotElement slot) as [el|]; try done;
    specialize (Hslot el eq_refl).
  - unfold setAttribute in Hrun. apply bind_inv in Hrun as (n & d1 & Hread & Hrun).
    unfold read in Hread. destruct (node d el) as [n'|] eqn:Hn; [|done].
    injection Hread as -> <-.
    destruct (payload n) as [tag attrs| | |] eqn:Hp; [|done..].
    injection Hrun as <-. apply (Hset el tag attrs); [done|].
    unfold payloadOf. by rewrite Hn, <- Hp.
  - unfold removeAttribute in Hrun. apply bind_inv in Hrun as (n & d1 & Hread & Hrun).
    unfold read in Hread. destruct (node d el) as [n'|] eqn:Hn; [|done].
    injection Hread as -> <-. by eapply Hremove.
  - unfold removeAttribute in Hrun. apply bind_inv in Hrun as (n & d1 & Hread & Hrun).
    unfold read in Hread. destruct (node d el) as [n'|] eqn:Hn; [|done].
    injection Hread as -> <-. by eapply Hremove.
  - unfold removeAttribute in Hrun. apply bind_inv in Hrun as (n & d1 & Hread & Hrun).
    unfold read in Hread. destruct (node d el) as [n'|] eqn:Hn; [|done].
    injection Hread as -> <-. by eapply Hremove.
Qed.

Lemma extends_updateSlots fuel slots args count :
  forall i d d',
    extends d0 old d -> Forall (slotAbove old) slots ->
    (forall r, ArgNode r ∉ args) ->
    updateSlots fuel slots args i count d = Ok (tt, d') ->
    extends d0 old d' /\ nextRef d <= nextRef d'.
Proof using Hwf0.
  induction count as [|count IH]; intros i d d' Hext Hslots Hargs Hrun;
    cbn [updateSlots] in Hrun.
  - by injection Hrun as <-.
  - apply bind_inv in Hrun as ([] & d1 & Hstep & Hrun).
    destruct (slots !! i) as [slot|] eqn:Hslot; [|done].
    assert (forall r, argAt args i <> ArgNode r) as Harg.
    { intros r E. unfold argAt in E. destruct (args !! i) as [a|] eqn:Ha; [|done].
      simpl in E. subst a. apply (Hargs r). by eapply list_elem_of_lookup_2. }
    pose proof (proj1 (Forall_forall _ _) Hslots slot
                  (list_elem_of_lookup_2 _ _ _ Hslot)) as Habove.
    assert (extends d0 old d1 /\ nextRef d <= nextRef d1) as [Hext1 Hnext1].
    { destruct slot as [s|s]; cbn [updateSlot] in Hstep.
      - by eapply extends_updateNodeSlot.
      - by eapply extends_updateAttrValueSlot. }
    destruct (IH (S i) d1 d' Hext1 Hslots Hargs Hrun) as [? ?]. split; [done|lia].
Qed.

Lemma resolveAll_above d F templateSlots resolved :
  extends d0 old d ->
  (forall path n, resolves d F path n -> old <= n) ->
  resolveAll d F templateSlots = Ok resolved ->
  Forall (slotAbove old) resolved.
Proof using Hwf0.
  intros Hext Hreach. revert resolved.
  induction templateSlots as [|ts rest IH]; intros resolved; simpl.
  - intros [= <-]. constructor.
  - destruct (resolveSlot d F ts) as [slot| |] eqn:Hslot; [|done..].
    destruct (resolveAll d F rest) as [l| |]; [|done..].
    intros [= <-]. constructor; [|by apply IH].
    destruct ts as [path|path name]; cbn [resolveSlot] in Hslot.
    + destruct (nodeFromPath d (Some F) path) as [[n|]| |] eqn:Hn; [|done..].
      injection Hslot as <-. pose proof (Hreach path n Hn) as Hnew. split.
      * intros a Ha. by apply (extends_previous d n a Hext Hnew).
      * intros e He. by apply (extends_next d n e Hext Hnew).
    + destruct (nodeFromPath d (Some F) path) as [n| |] eqn:Hn; [|done..].
      injection Hslot as <-. intros el Hel. simpl in Hel. subst n.
      by apply (Hreach path el).
Qed.
End Extends.

Lemma importNode_live d root copy d' :
  importNode root d = Ok (copy, d') -> live d root = true.
Proof.
  unfold importNode, bind at 1, get. cbn [cloneFuel]. unfold bind at 1, read, live.
  by destruct (node d root).
Qed.

(** Instantiating with strings and empty values builds a new tree and
    leaves every node that existed as it was. *)
Lemma createTemplateInstance_extends fuel template args d instance d' :
  wf d -> (forall r, ArgNode r ∉ args) ->
  createTemplateInstance fuel template args d = Ok (instance, d') ->
  extends d (nextRef d) d' /\ fragment instance = nextRef d /\
  nextRef d < nextRef d'.
Proof.
  intros Hwf Hargs Hrun. unfold createTemplateInstance in Hrun. cbn zeta in Hrun.
  apply bind_inv in Hrun as (F & dc & Himport & Hrun).
  apply bind_inv in Hrun as (anchors & dc' & Hcollect & Hrun).
  apply bind_inv in Hrun as ([] & du & Hupdate & Hrun).
  injection Hrun as <- <-. cbn [fragment].
  rewrite collectSlots_resolveAll in Hcollect.
  destruct (resolveAll dc F (slots template)) as [resolved| |] eqn:Hres; [|done..].
  injection Hcollect as <- <-. cbn [app] in Hupdate.
  destruct (importNode_cloned d (content template) F dc Hwf
              (importNode_live _ _ _ _ Himport) Himport)
    as (Hwfc & HF & Hnextc & Hsame & _ & Hrange & _).
  assert (extends d (nextRef d) dc) as Hext.
  { split_and!; [done|lia|]. intros q Hq. by apply Hsame. }
  assert (Forall (slotAbove (nextRef d)) resolved) as Habove.
  { eapply (resolveAll_above d Hwf dc F); [done| |exact Hres].
    intros path n Hn. apply Hrange in Hn. lia. }
  destruct (extends_updateSlots d Hwf fuel resolved args _ 0 dc du
              Hext Habove Hargs Hupdate) as (Hextu & Hnextu).
  split_and!; [done|done|lia].
Qed.

(** X9: instantiating with strings and empty values touches nothing that
    existed.  The fragment is a new node, the resulting tree is well formed,
    and every node that existed before, the template's own tree included, has
    the data, the parent and the children it had: a template can be
    instantiated again. *)
Theorem createTemplateInstance_frame fuel template args d instance d' :
  wf d -> (forall r, ArgNode r ∉ args) ->
  createTemplateInstance fuel template args d = Ok (instance, d') ->
  wf d' /\ fragment instance = nextRef d /\ nextRef d < nextRef d' /\
  forall q, q < nextRef d -> node d' q = node d q.
Proof.
  intros Hwf Hargs Hrun.
  destruct (createTemplateInstance_extends fuel template args d instance d'
              Hwf Hargs Hrun) as ((Hwf' & _ & Hsame) & HF & Hnext).
  by split_and!.
Qed.


(** ** Compiling a template creates nodes and touches no other *)

Lemma node_splitOff_other d r offset s q :
  q <> r -> q <> nextRef d -> parentOf d r <> Some q ->
  node (splitOff r offset s d) q = node d q.
Proof.
  intros Hr Hnew Hp. unfold splitOff.
  rewrite node_emit, node_setPayload, decide_False by done.
  destruct (parentOf d r) as [p|].
  - unfold attach. rewrite node_emit, node_link_other by congruence.
    by apply node_allocated_other.
  - by apply node_allocated_other.
Qed.

Lemma nextRef_splitOff d r offset s : nextRef (splitOff r offset s d) = S (nextRef d).
Proof.
  unfold splitOff. rewrite nextRef_emit, nextRef_setPayload.
  destruct (parentOf d r); [by rewrite nextRef_attach|done].
Qed.

Lemma build_frame m :
  forall parent d d',
    build parent m d = Ok (tt, d') ->
    nextRef d < nextRef d' /\
    forall q, q < nextRef d -> q <> parent -> node d' q = node d q.
Proof.
  assert (forall parent y d,
            let d' := link (nextRef d) parent None (allocated y d) in
            nextRef d' = S (nextRef d) /\
            forall q, q < nextRef d -> q <> parent -> node d' q = node d q) as Hleaf.
  { intros parent y d. cbn zeta. split.
    - by rewrite nextRef_link, nextRef_allocated.
    - intros q Hq Hp. rewrite node_link_other, node_allocated_other by lia. done. }
  induction m as [tag attrs kids IH|s|s] using Markup_nested_ind;
    intros parent d d' Hrun.
  - rewrite build_element in Hrun.
    destruct (Hleaf parent (Element tag attrs) d) as (Hnext0 & Hsame0).
    set (r := nextRef d) in *.
    set (d1 := link r parent None (allocated (Element tag attrs) d)) in *.
    assert (forall dA, r < nextRef dA -> buildAll r kids dA = Ok (tt, d') ->
              nextRef dA <= nextRef d' /\
              forall q, q < r -> node d' q = node dA q) as Hkids.
    { clear Hrun Hnext0 Hsame0.
      induction IH as [|k kids Hk _ IHkids]; intros dA HdA Hrun.
      - injection Hrun as <-. by split.
      - cbn [buildAll] in Hrun. apply bind_inv in Hrun as ([] & d2 & Hk1 & Hrun).
        destruct (Hk r dA d2 Hk1) as (Hnext2 & Hsame2).
        destruct (IHkids d2) as (Hnext' & Hsame'); [lia|done|].
        split; [lia|]. intros q Hq. rewrite Hsame' by done. apply Hsame2; lia. }
    destruct (Hkids d1) as (Hnext' & Hsame'); [lia|done|].
    split; [lia|]. intros q Hq Hp. rewrite Hsame' by done. by apply Hsame0.
  - cbn [build] in Hrun. unfold bind, alloc, modify in Hrun. injection Hrun as <-.
    destruct (Hleaf parent (Text s) d) as (Hn & Hs). split; [lia|done].
  - cbn [build] in Hrun. unfold bind, alloc, modify in Hrun. injection Hrun as <-.
    destruct (Hleaf parent (Comment s) d) as (Hn & Hs). split; [lia|done].
Qed.

Lemma buildAll_frame l :
  forall parent d d',
    buildAll parent l d = Ok (tt, d') ->
    nextRef d <= nextRef d' /\
    forall q, q < nextRef d -> q <> parent -> node d' q = node d q.
Proof.
  induction l as [|m l IH]; intros parent d d' Hrun.
  - injection Hrun as <-. by split.
  - cbn [buildAll] in Hrun. apply bind_inv in Hrun as ([] & d1 & Hm & Hrun).
    destruct (build_frame m parent d d1 Hm) as (Hn1 & Hs1).
    destruct (IH parent d1 d' Hrun) as (Hn' & Hs').
    split; [lia|]. intros q Hq Hp. rewrite Hs' by lia. by apply Hs1.
Qed.

(** ** What the walk keeps

    The walk changes the tree by splitting text nodes only: whatever every
    split of a text node below the content keeps, [createTemplate] keeps. *)
Section WalkPreserves.
Context (content : NodeRef) (I : Dom -> Prop).
Context (Hsplit : forall d at_ j T s offset,
           wf d -> isFragment d content ->
           resolves d content (at_ ++ [j]) T -> payloadOf d T = Some (Text s) ->
           I d -> I (splitOff T offset s d)).

Lemma splitMarkers_preserves fuel :
  forall d text slots at_ j slots' d',
    wf d -> I d -> isFragment d content ->
    resolves d content (at_ ++ [j]) text ->
    (exists s, payloadOf d text = Some (Text s)) ->
    splitMarkers fuel content text slots d = Ok (slots', d') ->
    I d'.
Proof using Hsplit.
  induction fuel as [|fuel IH];
    intros d text slots at_ j slots' d' Hwf HI Hfrag Htext (s & Hs) Hrun.
  - cbn [splitMarkers] in Hrun. rewrite (bind_Ok _ _ _ _ _ (getData_Text d text s Hs)) in Hrun.
    destruct (0 <=? indexOf s replacement)%Z; [done|]. by injection Hrun as <- <-.
  - cbn [splitMarkers] in Hrun. rewrite (bind_Ok _ _ _ _ _ (getData_Text d text s Hs)) in Hrun.
    destruct (0 <=? indexOf s replacement)%Z; [|by injection Hrun as <- <-].
    set (off1 := Z.to_nat (indexOf s replacement + 1)) in *.
    set (off2 := Z.to_nat (indexOf s replacement)) in *.
    apply bind_inv in Hrun as (N1 & d1 & Hsplit1 & Hrun).
    apply (splitText_inv d text s off1 N1 d1 Hs) in Hsplit1 as [-> ->].
    pose proof (isFragment_root_parent d content Hwf Hfrag) as Hroot.
    destruct (split_step d content at_ j text s off1 Hwf Hroot Htext Hs)
      as (Hwf1 & Hroot1 & HT1 & HN1 & HsT1 & HsN1 & Hframe1 & Hres1 & Hnext1).
    pose proof (isFragment_split d content text s off1 Hwf Hfrag Hs Hframe1) as Hfrag1.
    pose proof (Hsplit d at_ j text s off1 Hwf Hfrag Htext Hs HI) as HI1.
    set (d1 := splitOff text off1 s d) in *.
    destruct (indexOf s replacement =? 0)%Z.
    + unfold bind at 1, ret in Hrun. unfold bind at 1, get in Hrun.
      apply bind_inv in Hrun as (path & d1' & Hpath & Hrun).
      unfold liftResult in Hpath.
      destruct (pathToNode (S fuel) d1 content text) as [path'| |]; [|done..].
      injection Hpath as -> <-.
      eapply (IH d1 (nextRef d) _ at_ (S j)); try done. by eexists.
    + apply bind_inv in Hrun as (N2 & d2 & Hsplit2 & Hrun).
      apply (splitText_inv d1 text _ off2 N2 d2 HsT1) in Hsplit2 as [-> ->].
      destruct (split_step d1 content at_ j text _ off2 Hwf1 Hroot1 HT1 HsT1)
        as (Hwf2 & Hroot2 & HT2 & HN2 & HsT2 & HsN2 & Hframe2 & Hres2 & Hnext2).
      pose proof (isFragment_split d1 content text _ off2 Hwf1 Hfrag1 HsT1 Hframe2)
        as Hfrag2.
      pose proof (Hsplit d1 at_ j text _ off2 Hwf1 Hfrag1 HT1 HsT1 HI1) as HI2.
      set (d2 := splitOff text off2 (take off1 s) d1) in *.
      assert (resolves d2 content (at_ ++ [S (S j)]) (nextRef d)) as HN1'.
      { apply Hres2 in HN1. rewrite bump_child in HN1.
        by rewrite decide_True in HN1 by lia. }
      assert (payloadOf d2 (nextRef d) = Some (Text (drop off1 s))) as HsN1'.
      { rewrite Hframe2; [done| |].
        - intros E. pose proof (live_payloadOf _ _ _ Hs) as Hl. rewrite <- E in Hl.
          by rewrite (fresh_not_live d Hwf) in Hl.
        - intros E. pose proof (live_payloadOf _ _ _ HsN1) as Hl. rewrite E in Hl.
          by rewrite (fresh_not_live d1 Hwf1) in Hl. }
      unfold bind at 1, get in Hrun.
      apply bind_inv in Hrun as (path & d2' & Hpath & Hrun).
      unfold liftResult in Hpath.
      destruct (pathToNode (S fuel) d2 content (nextRef d1)) as [path'| |]; [|done..].
      injection Hpath as -> <-.
      eapply (IH d2 (nextRef d) _ at_ (S (S j))); try done. by eexists.
Qed.

Lemma visit_preserves fuel d c pc slots slots1 d1 :
  wf d -> I d -> isFragment d content -> resolves d content pc c ->
  visit fuel content c slots d = Ok (slots1, d1) ->
  I d1.
Proof using Hsplit.
  intros Hwf HI Hfrag Hc Hrun. unfold visit in Hrun.
  apply bind_inv in Hrun as (x & d' & Hread & Hrun).
  unfold read in Hread. destruct (node d c) as [x'|] eqn:Hnode; [|done].
  injection Hread as -> <-.
  destruct (payload x) as [tag attrs|s|s|] eqn:Hpay.
  - by apply attributeSlots_inv in Hrun as [-> _].
  - assert (payloadOf d c = Some (Text s)) as Hs.
    { unfold payloadOf. by rewrite Hnode, <- Hpay. }
    destruct (resolves_root_or_child d content pc c Hc)
      as [[-> _]|(at_ & j & P & -> & _ & _)].
    { unfold isFragment in Hfrag. congruence. }
    eapply (splitMarkers_preserves fuel d c slots at_ j); try done. by eexists.
  - by injection Hrun as <- <-.
  - by injection Hrun as <- <-.
Qed.

Lemma walk_preserves fuel :
  forall d it n slots slots' d',
    wf d -> I d -> isFragment d content -> iteratorRoot it = content ->
    match n with
    | Some c =>
        referenceNode it = c /\ pointerBeforeReference it = false /\
        exists pc, resolves d content pc c /\ slotsBefore d content slots pc
    | None => True
    end ->
    walk fuel content it n slots d = Ok (slots', d') ->
    I d'.
Proof using Hsplit.
  induction fuel as [|fuel IH];
    intros d it n slots slots' d' Hwf HI Hfrag Hit Hn Hrun;
    cbn [walk] in Hrun; destruct n as [c|]; try done;
    try (by injection Hrun as <- <-).
  destruct Hn as (Href & Hptr & pc & Hpc & Hslots).
  apply bind_inv in Hrun as ([next it'] & d1 & Hnext & Hrun).
  pose proof (isFragment_root_parent d content Hwf Hfrag) as Hroot.
  rewrite <- Hit in Hroot.
  apply (nextNode_inv d it next it' d1 Hwf Hroot) in Hnext as (-> & Hit' & Hnext).
  rewrite Hit in *.
  apply bind_inv in Hrun as (slots1 & d1 & Hvisit & Hrun).
  assert (forall c2, next = Some c2 ->
            exists pc2, resolves d content pc2 c2 /\ precedes pc pc2) as Hnext'.
  { intros c2 Hc2. destruct (Hnext c2 Hc2) as (_ & _ & Hres).
    rewrite Href in Hres. destruct (Hres pc Hpc) as (pc2 & ? & Hpre).
    exists pc2. split; [done|]. by apply Hpre. }
  destruct (visit_inv content (S fuel) d c pc slots next slots1 d1
              Hwf Hfrag Hpc Hslots Hnext' Hvisit)
    as (Hwf1 & Hfrag1 & b & Hslots1 & Hnext1).
  pose proof (visit_preserves (S fuel) d c pc slots slots1 d1
                Hwf HI Hfrag Hpc Hvisit) as HI1.
  apply (IH d1 it' next slots1 slots' d' Hwf1 HI1 Hfrag1 Hit'); [|done].
  destruct next as [c2|]; [|done].
  destruct (Hnext c2 eq_refl) as (Href2 & Hptr2 & _).
  destruct (Hnext1 c2 eq_refl) as (pc2 & Hpc2 & Hpre2).
  split_and!; [done|done|]. exists pc2. split; [done|].
  by eapply slotsBefore_weaken.
Qed.
End WalkPreserves.

(** What [createTemplate] has built when the walk starts, and what the walk
    then keeps. *)
Lemma createTemplate_preserves (I : Dom -> Prop) fuel document strings d template d' :
  wf d -> createTemplate fuel document strings d = Ok (template, d') ->
  let root := S (nextRef d) in
  (forall d1 at_ j T s offset,
     wf d1 -> isFragment d1 root ->
     resolves d1 root (at_ ++ [j]) T -> payloadOf d1 T = Some (Text s) ->
     I d1 -> I (splitOff T offset s d1)) ->
  (forall d1,
     wf d1 ->
     buildAll root (parseFragment document (join replacement strings))
       (allocated DocumentFragment (allocated (Element (str "template") []) d))
     = Ok (tt, d1) -> I d1) ->
  I d' /\ element template = nextRef d /\ content template = root.
Proof.
  intros Hwf Hrun root Hsplit Hbuilt. unfold createTemplate in Hrun.
  apply bind_inv in Hrun as (t & d1 & Hdisc & Hrun).
  case_decide; [done|]. injection Hrun as <- <-.
  unfold discoverSlots in Hdisc.
  apply bind_inv in Hdisc as (element & d2 & Halloc1 & Hdisc).
  injection Halloc1 as <- <-.
  apply bind_inv in Hdisc as (content & d3 & Halloc2 & Hdisc).
  injection Halloc2 as <- <-.
  apply bind_inv in Hdisc as ([] & d4 & Hbuild & Hdisc).
  pose proof (wf_allocated _ DocumentFragment
                (wf_allocated d (Element (str "template") []) Hwf)) as Hwf3.
  change (nextRef (allocated (Element (str "template") []) d))
    with root in *.
  set (d3 := allocated DocumentFragment (allocated (Element (str "template") []) d))
    in *.
  assert (payloadOf d3 root = Some DocumentFragment) as Hfrag3.
  { subst d3 root. rewrite payloadOf_allocated. by rewrite decide_True. }
  unfold setInnerHTML in Hbuild.
  destruct (buildAll_inv _ root _ d3 d4 Hwf3 Hfrag3 eq_refl Hbuild)
    as (Hwf4 & Hfrag4).
  pose proof (Hbuilt d4 Hwf4 Hbuild) as HI4.
  apply bind_inv in Hdisc as ([n it] & d5 & Hnext & Hdisc).
  pose proof (isFragment_root_parent d4 root Hwf4 Hfrag4) as Hroot4.
  apply (nextNode_inv d4 (createNodeIterator root) n it d5 Hwf4 Hroot4)
    in Hnext as (-> & Hit & Hn).
  apply bind_inv in Hdisc as (slots & d6 & Hwalk & Hdisc).
  injection Hdisc as <- <-. simpl. split; [|done].
  apply (walk_preserves root I Hsplit fuel d4 it n [] slots d6 Hwf4 HI4); try done.
  destruct n as [c|]; [|done].
  destruct (Hn c eq_refl) as (Href & Hptr & Hres).
  destruct (Hres []) as (pc & Hpc & _); [by apply resolves_nil|].
  split_and!; [done|done|]. exists pc. split; [done|].
  intros p Hp. by apply elem_of_nil in Hp.
Qed.

Section ExtendsCompile.
Context (d0 : Dom) (Hwf0 : wf d0).
Let old := nextRef d0.

Lemma extends_reach d root path n :
  extends d0 old d -> old <= root -> resolves d root path n -> old <= n.
Proof using Hwf0.
  intros Hext Hroot. revert n.
  induction path as [|i q IH] using rev_ind; intros n.
  - by intros ->%resolves_nil.
  - intros (m & Hm & Hi)%resolves_snoc.
    eapply (extends_child d0 Hwf0 d m n); [done|by apply IH|].
    by eapply list_elem_of_lookup_2.
Qed.

Lemma extends_splitOff d content at_ j T offset s :
  extends d0 old d -> old <= content -> isFragment d content ->
  resolves d content (at_ ++ [j]) T -> payloadOf d T = Some (Text s) ->
  extends d0 old (splitOff T offset s d).
Proof using Hwf0.
  intros Hext Hcontent Hfrag HT Hs. pose proof Hext as (Hwf & Hnext & Hsame).
  pose proof (extends_reach d content _ T Hext Hcontent HT) as Hnew.
  destruct (split_step d content at_ j T s offset Hwf
              (isFragment_root_parent d content Hwf Hfrag) HT Hs) as (Hwf' & _).
  split_and!.
  - done.
  - rewrite nextRef_splitOff. lia.
  - intros q Hq. rewrite node_splitOff_other; [by apply Hsame|lia|lia|].
    intros Hp. apply (extends_parent d0 Hwf0 d T q Hext Hnew) in Hp. lia.
Qed.
End ExtendsCompile.

(** Compiling a template builds new nodes and leaves every node that existed
    as it was. *)
Lemma createTemplate_extends fuel document strings d template d' :
  wf d -> createTemplate fuel document strings d = Ok (template, d') ->
  extends d (nextRef d) d' /\
  element template = nextRef d /\ content template = S (nextRef d).
Proof.
  intros Hwf Hrun.
  apply (createTemplate_preserves (extends d (nextRef d)) fuel document strings
           d template d' Hwf Hrun).
  - intros d1 at_ j T s offset Hwf1 Hfrag HT Hs Hext.
    eapply (extends_splitOff d Hwf d1 (S (nextRef d)) at_ j); try done. lia.
  - intros d1 Hwf1 Hbuild.
    destruct (buildAll_frame _ _ _ _ Hbuild) as (Hnext & Hsame).
    rewrite !nextRef_allocated in Hnext, Hsame.
    split_and!; [done|lia|]. intros q Hq. rewrite Hsame by lia.
    rewrite node_allocated_other by (rewrite nextRef_allocated; lia).
    by rewrite node_allocated_other by lia.
Qed.

(** X7: [createTemplate] only creates nodes.  The template element and its
    content are new nodes, the resulting tree is well formed, and every node
    that existed before has the data, the parent and the children it had. *)
Theorem createTemplate_frame fuel document strings d template d' :
  wf d -> createTemplate fuel document strings d = Ok (template, d') ->
  wf d' /\ element template = nextRef d /\ content template = S (nextRef d) /\
  forall q, q < nextRef d -> node d' q = node d q.
Proof.
  intros Hwf Hrun.
  destruct (createTemplate_extends fuel document strings d template d' Hwf Hrun)
    as ((Hwf' & _ & Hsame) & He & Hc).
  by split_and!.
Qed.


(** ** The entry points of html.ts *)

Lemma getTemplate_inv fuel document strings page template page' :
  wf (tree page) ->
  getTemplate fuel document strings page = Ok (template, page') ->
  wf (tree page') /\ templates page' !! callSite strings = Some template /\
  nextRef (tree page) <= nextRef (tree page') /\
  (forall q, q < nextRef (tree page) -> node (tree page') q = node (tree page) q) /\
  (is_Some (templates page !! callSite strings) -> page' = page).
Proof.
  intros Hwf Hrun. unfold getTemplate in Hrun.
  destruct (templates page !! callSite strings) as [t|] eqn:Hget.
  - injection Hrun as <- <-. by split_and!.
  - unfold andThen, onDom in Hrun.
    destruct (createTemplate fuel document (cooked strings) (tree page))
      as [[t d1]| |] eqn:Hcompile; [|done..].
    injection Hrun as <- <-. cbn [tree templates].
    destruct (createTemplate_extends fuel document (cooked strings) (tree page) t d1
                Hwf Hcompile) as ((Hwf1 & Hnext & Hsame) & _).
    split_and!; [done|by rewrite lookup_insert_eq|done|done|].
    by intros [? ?].
Qed.

(** X17: [html] called twice from one call site, with strings and empty
    values.  The second call finds the template in the map and leaves the map
    as it is; it returns a new fragment, different from the first one, and
    every node that existed before it, the first fragment and the template
    included, stays as it was. *)
Theorem html_twice fuel document strings args1 args2 page f1 page1 f2 page2 :
  wf (tree page) ->
  (forall r, ArgNode r ∉ args1) -> (forall r, ArgNode r ∉ args2) ->
  html fuel document strings args1 page = Ok (f1, page1) ->
  html fuel document strings args2 page1 = Ok (f2, page2) ->
  templates page2 = templates page1 /\
  is_Some (templates page1 !! callSite strings) /\
  f1 < f2 /\ f2 = nextRef (tree page1) /\
  (forall q, q < nextRef (tree page1) -> node (tree page2) q = node (tree page1) q) /\
  (forall q, q < nextRef (tree page) -> node (tree page2) q = node (tree page) q).
Proof.
  intros Hwf Hargs1 Hargs2 Hrun1 Hrun2.
  unfold html, andThen in Hrun1.
  destruct (getTemplate fuel document strings page) as [[t pA]| |] eqn:Hget1;
    [|done..].
  destruct (getTemplate_inv _ _ _ _ _ _ Hwf Hget1)
    as (HwfA & HcacheA & HnextA & HsameA & _).
  unfold onDom in Hrun1.
  destruct (createTemplateInstance fuel t args1 (tree pA)) as [[i1 d1]| |] eqn:Hinst1;
    [|done..].
  injection Hrun1 as <- <-. cbn [tree templates] in *.
  destruct (createTemplateInstance_extends fuel t args1 (tree pA) i1 d1
              HwfA Hargs1 Hinst1) as ((Hwf1 & _ & Hsame1) & HF1 & Hnext1).
  unfold html, andThen in Hrun2.
  destruct (getTemplate fuel document strings (mkPage d1 (templates pA)))
    as [[t' pB]| |] eqn:Hget2; [|done..].
  unfold getTemplate in Hget2. cbn [templates] in Hget2.
  rewrite HcacheA in Hget2. injection Hget2 as <- <-.
  unfold onDom in Hrun2. cbn [tree templates] in Hrun2.
  destruct (createTemplateInstance fuel t args2 d1) as [[i2 d2]| |] eqn:Hinst2;
    [|done..].
  injection Hrun2 as <- <-. cbn [tree templates].
  destruct (createTemplateInstance_extends fuel t args2 d1 i2 d2
              Hwf1 Hargs2 Hinst2) as ((Hwf2 & _ & Hsame2) & HF2 & Hnext2).
  split_and!; [done|by eexists|lia|done|done|].
  intros q Hq. rewrite Hsame2 by lia. rewrite Hsame1 by lia. by apply HsameA.
Qed.

Lemma childrenOf_appended d parent y :
  wf d -> live d parent = true ->
  childrenOf (link (nextRef d) parent None (allocated y d)) parent
  = childrenOf d parent ++ [nextRef d].
Proof.
  intros Hwf Hlive.
  assert (nextRef d <> parent) as Hne.
  { intros E. rewrite <- E in Hlive. by rewrite (fresh_not_live d Hwf) in Hlive. }
  rewrite childrenOf_link, decide_True by done.
  rewrite live_allocated, decide_False by done. rewrite Hlive.
  rewrite childrenOf_allocated by done. apply insertAt_last.
Qed.

Lemma build_top m parent x d d' :
  wf d -> payloadOf d parent = Some x -> canHaveChildren x = true ->
  build parent m d = Ok (tt, d') ->
  childrenOf d' parent = childrenOf d parent ++ [nextRef d] /\
  isElement d' (nextRef d) = isMElement m.
Proof.
  intros Hwf Hp Hcan Hrun.
  pose proof (live_payloadOf _ _ _ Hp) as Hlive.
  assert (parent < nextRef d) as Hlt by (by apply (wf_fresh d Hwf), live_is_Some).
  assert (forall y, payloadOf (link (nextRef d) parent None (allocated y d)) (nextRef d)
                    = Some y) as Hpay.
  { intros y. rewrite payloadOf_link, payloadOf_allocated. by rewrite decide_True. }
  destruct m as [tag attrs kids|s|s].
  - assert (build parent (MElement tag attrs []) d
            = Ok (tt, link (nextRef d) parent None (allocated (Element tag attrs) d)))
      as Hbare by (by rewrite build_element).
    destruct (build_inv _ parent x d _ Hwf Hp Hcan Hbare) as (Hwf1 & _).
    rewrite build_element in Hrun.
    set (d1 := link (nextRef d) parent None (allocated (Element tag attrs) d)) in *.
    destruct (buildAll_inv kids (nextRef d) _ d1 d' Hwf1 (Hpay _) eq_refl Hrun)
      as (_ & Hr).
    destruct (buildAll_frame kids (nextRef d) d1 d' Hrun) as (_ & Hsame).
    split.
    + rewrite (childrenOf_node d1 d' parent).
      * by apply childrenOf_appended.
      * apply Hsame; [|lia]. subst d1. rewrite nextRef_link, nextRef_allocated. lia.
    + unfold isElement. by rewrite Hr.
  - cbn [build] in Hrun. unfold bind, alloc, modify in Hrun. injection Hrun as <-.
    split; [by apply childrenOf_appended|]. unfold isElement. by rewrite Hpay.
  - cbn [build] in Hrun. unfold bind, alloc, modify in Hrun. injection Hrun as <-.
    split; [by apply childrenOf_appended|]. unfold isElement. by rewrite Hpay.
Qed.

Lemma buildAll_elements ms :
  forall parent x d d',
    wf d -> payloadOf d parent = Some x -> canHaveChildren x = true ->
    buildAll parent ms d = Ok (tt, d') ->
    childElementCount d' parent
    = childElementCount d parent + length (List.filter isMElement ms).
Proof.
  induction ms as [|m ms IH]; intros parent x d d' Hwf Hp Hcan Hrun.
  - injection Hrun as <-. simpl. lia.
  - cbn [buildAll] in Hrun. apply bind_inv in Hrun as ([] & d1 & Hm & Hrun).
    destruct (build_inv m parent x d d1 Hwf Hp Hcan Hm) as (Hwf1 & Hpay1 & _).
    destruct (build_top m parent x d d1 Hwf Hp Hcan Hm) as (Hcs1 & Hel1).
    assert (payloadOf d1 parent = Some x) as Hp1.
    { rewrite Hpay1; [done|]. by eapply live_payloadOf. }
    rewrite (IH parent x d1 d' Hwf1 Hp1 Hcan Hrun).
    unfold childElementCount. rewrite Hcs1, List.filter_app, length_app.
    assert (List.filter (isElement d1) (childrenOf d parent)
            = List.filter (isElement d) (childrenOf d parent)) as ->.
    { apply List.filter_ext_in. intros c Hc%list_elem_of_In. unfold isElement.
      rewrite Hpay1; [done|]. by eapply wf_child_live. }
    cbn [List.filter]. rewrite Hel1. destruct (isMElement m); simpl; lia.
Qed.

Lemma childElementCount_splitOff d content at_ j T s offset :
  wf d -> resolves d content (at_ ++ [j]) T -> payloadOf d T = Some (Text s) ->
  childElementCount (splitOff T offset s d) content = childElementCount d content.
Proof.
  intros Hwf (P & HP & Hj)%resolves_snoc Hs.
  apply list_elem_of_split_length in Hj as (A & B & Hcs & _).
  assert (forall q, isElement (splitOff T offset s d) q
                    = if decide (q = nextRef d) then false else isElement d q) as Hel.
  { intros q. unfold isElement.
    rewrite (payloadOf_splitOff d Hwf T P A B s offset Hcs Hs).
    repeat case_decide; subst; try done. by rewrite Hs. }
  assert (forall l, nextRef d ∉ l ->
            List.filter (isElement (splitOff T offset s d)) l
            = List.filter (isElement d) l) as Hfilter.
  { intros l Hl. apply List.filter_ext_in. intros q Hq%list_elem_of_In.
    rewrite Hel. rewrite decide_False; [done|]. by intros ->. }
  assert (forall q, q ∈ childrenOf d P -> q <> nextRef d) as Hold.
  { intros q Hq ->. apply (wf_child_live d _ _ Hwf) in Hq.
    by rewrite (fresh_not_live d Hwf) in Hq. }
  unfold childElementCount.
  rewrite (childrenOf_splitOff d Hwf T P A B s offset Hcs).
  case_decide as E.
  - subst P. rewrite Hcs.
    rewrite !List.filter_app. cbn [List.filter].
    rewrite (Hel (nextRef d)), decide_True by done.
    rewrite (Hel T), decide_False.
    2:{ apply Hold. rewrite Hcs. apply elem_of_app. right. by left. }
    rewrite !Hfilter; [done| |].
    + intros Hin. apply (Hold (nextRef d)); [|done]. rewrite Hcs.
      apply elem_of_app. right. by right.
    + intros Hin. apply (Hold (nextRef d)); [|done]. rewrite Hcs.
      apply elem_of_app. by left.
  - rewrite Hfilter; [done|]. intros Hin.
    apply (wf_child_live d _ _ Hwf) in Hin.
    by rewrite (fresh_not_live d Hwf) in Hin.
Qed.

(** The elements at the top of a compiled template are those at the top of
    the parsed markup. *)
Lemma createTemplate_elements fuel document strings d template d' :
  wf d -> createTemplate fuel document strings d = Ok (template, d') ->
  childElementCount d' (content template)
  = length (List.filter isMElement (parseFragment document (join replacement strings))).
Proof.
  intros Hwf Hrun.
  destruct (createTemplate_preserves
              (fun d1 => childElementCount d1 (S (nextRef d))
                         = length (List.filter isMElement
                                     (parseFragment document (join replacement strings))))
              fuel document strings d template d' Hwf Hrun) as (HI & _ & Hc).
  - intros d1 at_ j T s offset Hwf1 _ HT Hs HI.
    by rewrite (childElementCount_splitOff d1 _ at_ j T s offset Hwf1 HT Hs).
  - intros d1 Hwf1 Hbuild.
    pose proof (wf_allocated _ DocumentFragment
                  (wf_allocated d (Element (str "template") []) Hwf)) as Hwf3.
    set (d3 := allocated DocumentFragment (allocated (Element (str "template") []) d))
      in *.
    assert (payloadOf d3 (S (nextRef d)) = Some DocumentFragment) as Hfrag3.
    { subst d3. rewrite payloadOf_allocated, nextRef_allocated.
      by rewrite decide_True. }
    rewrite (buildAll_elements _ _ _ d3 d1 Hwf3 Hfrag3 eq_refl Hbuild).
    unfold childElementCount.
    assert (childrenOf d3 (S (nextRef d)) = []) as ->; [|done].
    pose proof (wf_allocated d (Element (str "template") []) Hwf) as Hwf2.
    subst d3. rewrite childrenOf_allocated by done.
    pose proof (fresh_not_live _ Hwf2) as Hfresh.
    rewrite nextRef_allocated in Hfresh.
    by apply not_live in Hfresh as (_ & _ & ->).
  - by rewrite Hc.
Qed.

(** X18: the check of [html.element].  On first use of a strings array whose
    template compiles, [html.element] throws "html.element template should
    have a single top-level element: ..." exactly when the parsed markup does
    not have exactly one element at its top level, whatever the arguments;
    otherwise it instantiates the template now stored in the map and returns
    the fragment's first element child. *)
Theorem htmlElement_top_level fuel document strings args page template d1 :
  wf (tree page) -> templates page !! callSite strings = None ->
  createTemplate fuel document (cooked strings) (tree page) = Ok (template, d1) ->
  let tops := length (List.filter isMElement
                        (parseFragment document
                           (join replacement (cooked strings)))) in
  let cached := mkPage d1 (<[callSite strings := template]> (templates page)) in
  (tops <> 1 ->
   htmlElement fuel document strings args page
   = Throw (Error
              (str "html.element template should have a single top-level element: "
                 ++ join replacement (cooked strings)))) /\
  (tops = 1 ->
   htmlElement fuel document strings args page
   = andThen (onDom (createTemplateInstance fuel template args))
       (fun instance page' =>
          Ok (firstElementChild (tree page') (fragment instance), page'))
       cached).
Proof.
  intros Hwf Hmiss Hcompile. cbn zeta.
  pose proof (createTemplate_elements fuel document (cooked strings) (tree page)
                template d1 Hwf Hcompile) as Hcount.
  assert (getTemplate fuel document strings page
          = Ok (template,
                mkPage d1 (<[callSite strings := template]> (templates page))))
    as Hget.
  { unfold getTemplate. rewrite Hmiss. unfold andThen, onDom. by rewrite Hcompile. }
  assert (forall k : Template -> HtmlM (option NodeRef),
            andThen (getTemplate fuel document strings) k page
            = k template
                (mkPage d1 (<[callSite strings := template]> (templates page))))
    as Hthen.
  { intros k. unfold andThen. by rewrite Hget. }
  unfold htmlElement. rewrite Hthen. cbn [tree].
  rewrite Hcount. split; intros Htops; by case_decide.
Qed.

Lemma beforeItems_node this r d : beforeItems this [ItemNode r] d = before this r d.
Proof.
  unfold beforeItems, before. rewrite !bind_get.
  destruct (siblingIndex d this) as [[p i]|]; [|done].
  assert (convertNodesIntoNode [ItemNode r] d = Ok (r, d)) as Hconvert by done.
  rewrite (bind_Ok _ _ _ _ _ Hconvert), bind_get.
  rewrite (list_filter_iff (fun x => ItemNode x ∉ [ItemNode r]) (fun x => x <> r));
    [done|].
  intros x. rewrite list_elem_of_singleton. split; [congruence|].
  intros Hne [= ->]. done.
Qed.

Lemma beforeItems_string this s d :
  wf d -> live d this = true ->
  beforeItems this [ItemString s] d
  = match siblingIndex d this with
    | None => Ok (tt, d)
    | Some _ => before this (nextRef d) (allocated (Text s) d)
    end.
Proof.
  intros Hwf Hlive. unfold beforeItems, before. rewrite !bind_get.
  assert (siblingIndex (allocated (Text s) d) this = siblingIndex d this) as ->.
  { unfold siblingIndex. rewrite parentOf_allocated by done.
    destruct (parentOf d this) as [p'|]; [|done]. simpl.
    by rewrite childrenOf_allocated. }
  destruct (siblingIndex d this) as [[p i]|] eqn:Hsib.
  - assert (convertNodesIntoNode [ItemString s] d
            = Ok (nextRef d, allocated (Text s) d)) as Hconvert by done.
    rewrite (bind_Ok _ _ _ _ _ Hconvert), bind_get.
    rewrite childrenOf_allocated by done.
    rewrite (filter_all (fun x => ItemNode x ∉ [ItemString s])).
    2:{ intros x _ Hin. by apply list_elem_of_singleton in Hin. }
    rewrite (filter_all (fun x => x <> nextRef d)); [done|].
    intros x Hx%subseteq_take ->.
    apply (wf_child_live d _ _ Hwf) in Hx. by rewrite (fresh_not_live d Hwf) in Hx.
  - destruct (read_Ok d this Hlive) as (n & _ & Hread). unfold bind. by rewrite Hread.
Qed.

(** A node put before the "after" boundary joins the region at its end. *)
Lemma before_end_spec fuel d slot region pre post e p r :
  wf d -> anchoredAt d slot region e p pre post ->
  insertable d slot p r -> r ∉ region ->
  length region + length (insertedNodes d r) <= fuel ->
  let d' := moveAllBefore (insertedNodes d r) p e d in
  before e r d = Ok (tt, d') /\
  collectChildNodes fuel (startAfter slot) (endBefore slot) d'
  = Ok (region ++ insertedNodes d r, d') /\
  (forall q, payloadOf d' q = payloadOf d q) /\
  additions (trace d') = additions (trace d) ++ map (pair p) (insertedNodes d r).
Proof.
  intros Hwf Hat Hins Hreg Hfuel. cbn zeta.
  pose proof (insertBeforeEnd_spec d slot region pre post e p Hwf Hat r Hins Hreg)
    as Hrun.
  unfold insertBeforeEnd in Hrun. destruct Hat as (He & Hrest).
  rewrite He in Hrun.
  destruct (moveAllBefore_spec slot e p (insertedNodes d r) d region pre post
              Hwf (conj He Hrest) (NoDup_insertedNodes d Hwf r)
              (insertedNodes_ok d slot region pre post e p Hwf
                 (conj He Hrest) r Hins Hreg))
    as (Hwf' & (pre' & post' & Hat') & Hpay & _ & _ & Hadd).
  split_and!; [done| |done|done].
  apply collectChildNodes_spec; [done|by exists e, p, pre', post'|].
  rewrite length_app. lia.
Qed.

(** X20: [append] with a node keeps what the slot shows.  The node, or the
    children a fragment gives up, go right before the "after" boundary:
    [nodes()] then returns the old region followed by them; no node changes
    its data. *)
Theorem childSlotAppend_node fuel d slot region pre post e p r :
  wf d -> anchoredAt d slot region e p pre post ->
  insertable d slot p r -> r ∉ region ->
  length region + length (insertedNodes d r) <= fuel ->
  exists d',
    childSlotAppend slot [ItemNode r] d = Ok (tt, d') /\
    childSlotNodes fuel slot d' = Ok (region ++ insertedNodes d r, d') /\
    (forall q, payloadOf d' q = payloadOf d q) /\
    additions (trace d') = additions (trace d) ++ map (pair p) (insertedNodes d r).
Proof.
  intros Hwf Hat Hins Hreg Hfuel.
  destruct (before_end_spec fuel d slot region pre post e p r Hwf Hat Hins Hreg Hfuel)
    as (Hrun & Hnodes & Hpay & Hadd).
  exists (moveAllBefore (insertedNodes d r) p e d). split_and!; try done.
  unfold childSlotAppend. destruct Hat as (-> & _). by rewrite beforeItems_node.
Qed.

(** X21: [append] with a string creates one text node holding the string and
    puts it at the end of the region: [nodes()] then returns the old region
    followed by the new node; no other node changes its data. *)
Theorem childSlotAppend_string fuel d slot region pre post e p s :
  wf d -> anchoredAt d slot region e p pre post -> S (length region) <= fuel ->
  exists d',
    childSlotAppend slot [ItemString s] d = Ok (tt, d') /\
    childSlotNodes fuel slot d' = Ok (region ++ [nextRef d], d') /\
    payloadOf d' (nextRef d) = Some (Text s) /\
    (forall q, q <> nextRef d -> payloadOf d' q = payloadOf d q).
Proof.
  intros Hwf Hat Hfuel. pose proof Hat as (He & Hcs & _).
  destruct (insertable_fresh d slot region pre post e p Hwf Hat (Text s))
    as [Hins Hreg].
  pose proof (wf_allocated d (Text s) Hwf) as Hwf1.
  pose proof (anchoredAt_allocated d slot region pre post e p Hwf Hat (Text s))
    as Hat1.
  assert (insertedNodes (allocated (Text s) d) (nextRef d) = [nextRef d])
    as Hnodes.
  { apply (insertedNodes_Text _ _ s). rewrite payloadOf_allocated.
    by rewrite decide_True. }
  destruct (before_end_spec fuel _ slot region pre post e p (nextRef d)
              Hwf1 Hat1 Hins Hreg)
    as (Hrun & Hcollect & Hpay & _).
  { rewrite Hnodes. simpl. lia. }
  rewrite Hnodes in *.
  exists (moveAllBefore [nextRef d] p e (allocated (Text s) d)). split_and!.
  - unfold childSlotAppend. rewrite He.
    rewrite beforeItems_string; [|done|].
    + rewrite (sibling_index d Hwf p e (pre ++ region) post); [done|].
      by rewrite <- app_assoc.
    + eapply wf_child_live; [done|]. rewrite Hcs.
      apply elem_of_app. right. apply elem_of_app. right. by left.
  - done.
  - rewrite Hpay, payloadOf_allocated. by rewrite decide_True.
  - intros q Hq. rewrite Hpay, payloadOf_allocated. by rewrite decide_False.
Qed.

Lemma createTemplateInstance_only fuel template args d instance d' :
  createTemplateInstance fuel template args d = Ok (instance, d') ->
  nodeSlots instance = onlyNodeSlots (instanceSlots instance) /\
  attrValueSlots instance = onlyAttrValueSlots (instanceSlots instance).
Proof.
  intros Hrun. unfold createTemplateInstance in Hrun. cbn zeta in Hrun.
  apply bind_inv in Hrun as (F & dc & _ & Hrun).
  apply bind_inv in Hrun as (anchors & dc' & _ & Hrun).
  apply bind_inv in Hrun as ([] & du & _ & Hrun).
  by injection Hrun as <- <-.
Qed.

(** X19: what [html.instance] hands out on first use of a strings array.
    Every child slot has a node as its "after" boundary, the child slots and
    the attribute slots are together as many as the slots, [node] and
    [element] are the first child and the first element child of the fragment
    as it is after the updates, and the template is stored in the map. *)
Theorem htmlInstance_childSlots fuel document strings args page instance page' :
  wf (tree page) -> templates page !! callSite strings = None ->
  htmlInstance fuel document strings args page = Ok (instance, page') ->
  Forall (fun slot => is_Some (endBefore slot)) (childSlots instance) /\
  length (childSlots instance) + length (attrSlots instance)
  = length (instanceUpdaters instance) /\
  instanceNode instance = firstChild (tree page') (instanceFragment instance) /\
  instanceElement instance
  = firstElementChild (tree page') (instanceFragment instance) /\
  is_Some (templates page' !! callSite strings).
Proof.
  intros Hwf Hmiss Hrun. unfold htmlInstance, andThen in Hrun.
  destruct (getTemplate fuel document strings page) as [[t pA]| |] eqn:Hget;
    [|done..].
  destruct (getTemplate_inv _ _ _ _ _ _ Hwf Hget) as (HwfA & HcacheA & _).
  unfold getTemplate in Hget. rewrite Hmiss in Hget. unfold andThen, onDom in Hget.
  destruct (createTemplate fuel document (cooked strings) (tree page))
    as [[t' d1]| |] eqn:Hcompile; [|done..].
  injection Hget as -> <-. cbn [tree templates] in *.
  destruct (createTemplate_inv fuel document (cooked strings) (tree page) t d1
              Hwf Hcompile) as (_ & Hfrag & Hslots).
  unfold onDom in Hrun. cbn [tree templates] in Hrun.
  destruct (createTemplateInstance fuel t args d1) as [[inst d2]| |] eqn:Hinst;
    [|done..].
  injection Hrun as <- <-.
  cbn [childSlots attrSlots instanceUpdaters instanceNode instanceElement
         instanceFragment tree templates].
  destruct (createTemplateInstance_only _ _ _ _ _ _ Hinst) as [Hn Ha].
  split_and!; [|by rewrite Hn, Ha, onlySlots_length|done|done|by eexists].
  apply Forall_forall. intros slot Hs.
  apply (instance_endBefore fuel t args d1 inst d2 HwfA Hfrag Hslots Hinst).
  rewrite Hn in Hs. apply list_elem_of_omap in Hs as ([s'|a] & Hin & Heq); [|done].
  by injection Heq as ->.
Qed.


(** ** Concrete runs of the further properties *)

Lemma wf_fragmentRoot : wf (allocated DocumentFragment Host.emptyDom).
Proof. apply wf_allocated, wf_emptyDom. Qed.

Lemma wf_textPage : wf Fixture.textPage.
Proof.
  assert (buildAll 0 [MText (str "a" ++ replacement ++ str "bc" ++ replacement)]
            (allocated DocumentFragment Host.emptyDom)
          = Ok (tt, Fixture.textPage)) as Hrun by (vm_compute; reflexivity).
  apply (buildAll_inv _ 0 DocumentFragment _ _ wf_fragmentRoot
           ltac:(vm_compute; reflexivity) eq_refl Hrun).
Qed.

Lemma wf_attrPage : wf Fixture.attrPage.
Proof.
  assert (buildAll 0
            [MElement (str "p")
               [(str "class", replacement); (str "id", str "x");
                (str "title", replacement)] []]
            (allocated DocumentFragment Host.emptyDom)
          = Ok (tt, Fixture.attrPage)) as Hrun by (vm_compute; reflexivity).
  apply (buildAll_inv _ 0 DocumentFragment _ _ wf_fragmentRoot
           ltac:(vm_compute; reflexivity) eq_refl Hrun).
Qed.

Lemma wf_fragmentPage : wf Fixture.fragmentPage.
Proof.
  unfold Fixture.fragmentPage.
  eapply wf_attach;
    [apply wf_allocated, wf_page|vm_compute; reflexivity|vm_compute; reflexivity
    |vm_compute; discriminate|vm_compute; reflexivity|reflexivity].
Qed.

Lemma wf_adjacentPage : wf Fixture.adjacentPage.
Proof.
  apply (createTemplate_inv 6 Host.document [str "<p>"; []; str "</p>"]
           Host.emptyDom (mkTemplate 0 1 [TemplateNodeSlot [0; 0]; TemplateNodeSlot [0; 1]])
           Fixture.adjacentPage wf_emptyDom).
  vm_compute; reflexivity.
Qed.

Lemma nodeFromPath_pathToNode_witness :
  (wf Sample.page /\ parentOf Sample.page 0 = None /\
   nodeFromPath Sample.page (Some 0) [0; 1] = Ok (Some 3)) /\
  exists bound, forall fuel, bound <= fuel -> pathToNode fuel Sample.page 0 3 = Ok [0; 1].
Proof.
  split; [split_and!; [exact wf_page|vm_compute; reflexivity..]|].
  apply (nodeFromPath_pathToNode Sample.page 0 [0; 1] 3 wf_page);
    vm_compute; reflexivity.
Defined.

Lemma pathToNode_outside_witness :
  (wf Sample.page /\ outside Sample.page 0 4) /\
  exists bound, forall fuel, bound <= fuel ->
    pathToNode fuel Sample.page 0 4
    = Throw (Error (str "Could not find target from root")).
Proof.
  assert (outside Sample.page 0 4) as Hout.
  { apply outside_top; [discriminate|vm_compute; reflexivity]. }
  split; [split; [exact wf_page|exact Hout]|].
  exact (pathToNode_outside Sample.page 0 4 wf_page Hout).
Defined.

Lemma pathToNode_sound_witness :
  (wf Sample.page /\ pathToNode 3 Sample.page 0 3 = Ok [0; 1]) /\
  nodeFromPath Sample.page (Some 0) [0; 1] = Ok (Some 3) /\
  inclusiveDescendant Sample.page 0 3.
Proof.
  split; [split; [exact wf_page|vm_compute; reflexivity]|].
  apply (pathToNode_sound 3 Sample.page 0 3 [0; 1] wf_page). vm_compute; reflexivity.
Defined.

Lemma nodeFromPath_beyond_witness :
  (nodeFromPath Sample.page (Some 0) [0] = Ok (Some 1) /\
   length (childrenOf Sample.page 1) <= 2) /\
  nodeFromPath Sample.page (Some 0) ([0] ++ [2]) = Ok None /\
  forall j rest,
    nodeFromPath Sample.page (Some 0) ([0] ++ 2 :: j :: rest) = Throw TypeError.
Proof.
  assert (length (childrenOf Sample.page 1) <= 2) as Hlen by (vm_compute; lia).
  split; [split; [vm_compute; reflexivity|exact Hlen]|].
  apply (nodeFromPath_beyond Sample.page 0 [0] 1 2); [vm_compute; reflexivity|exact Hlen].
Defined.

Lemma visit_element_witness :
  let attrs := [(str "class", replacement); (str "id", str "x");
                (str "title", replacement)] in
  (wf Fixture.attrPage /\ inclusiveDescendant Fixture.attrPage 0 1 /\
   payloadOf Fixture.attrPage 1 = Some (Element (str "p") attrs)) /\
  exists path bound,
    nodeFromPath Fixture.attrPage (Some 0) path = Ok (Some 1) /\
    forall fuel slots, bound <= fuel ->
      visit fuel 0 1 slots Fixture.attrPage
      = Ok (slots ++ map (TemplateAttrValueSlot path) (markedNames attrs),
            Fixture.attrPage).
Proof.
  cbn zeta.
  assert (inclusiveDescendant Fixture.attrPage 0 1) as Hdesc.
  { apply (descendant_child _ _ 1 0); [vm_compute; reflexivity|apply descendant_root]. }
  split; [split_and!; [exact wf_attrPage|exact Hdesc|vm_compute; reflexivity]|].
  apply (visit_element Fixture.attrPage 0 1 (str "p") _ wf_attrPage Hdesc).
  vm_compute; reflexivity.
Defined.

Lemma visit_text_witness :
  let s := str "a" ++ replacement ++ str "bc" ++ replacement in
  (wf Fixture.textPage /\ isFragment Fixture.textPage 0 /\
   nodeFromPath Fixture.textPage (Some 0) ([] ++ [0]) = Ok (Some 1) /\
   payloadOf Fixture.textPage 1 = Some (Text s)) /\
  exists bound d',
    (forall fuel slots, bound <= fuel ->
       visit fuel 0 1 slots Fixture.textPage
       = Ok (slots ++ map (fun k => TemplateNodeSlot ([] ++ [k]))
                        (markerIndexes 0 false s), d')) /\
    length (markerIndexes 0 false s) = length (filter (fun c => c = 9889%N) s) /\
    wf d' /\ (9889%N ∉ s -> d' = Fixture.textPage).
Proof.
  cbn zeta.
  split; [split_and!; [exact wf_textPage|vm_compute; reflexivity..]|].
  apply (visit_text Fixture.textPage 0 [] 0 1 _ wf_textPage); vm_compute; reflexivity.
Defined.

Lemma createTemplate_frame_witness :
  let strings := [str "<p>"; str "</p>"] in
  let template := mkTemplate 5 6 [TemplateNodeSlot [0; 0]] in
  let d' := Sample.outcome (createTemplate 4 Host.document strings Sample.page) in
  (wf Sample.page /\
   createTemplate 4 Host.document strings Sample.page = Ok (template, d')) /\
  wf d' /\ element template = nextRef Sample.page /\
  content template = S (nextRef Sample.page) /\
  forall q, q < nextRef Sample.page -> node d' q = node Sample.page q.
Proof.
  cbn zeta.
  assert (createTemplate 4 Host.document [str "<p>"; str "</p>"] Sample.page
          = Ok (mkTemplate 5 6 [TemplateNodeSlot [0; 0]],
                Sample.outcome
                  (createTemplate 4 Host.document [str "<p>"; str "</p>"] Sample.page)))
    as Hrun by (vm_compute; reflexivity).
  split; [split; [exact wf_page|exact Hrun]|].
  exact (createTemplate_frame 4 Host.document _ Sample.page _ _ wf_page Hrun).
Defined.


Lemma createTemplateInstance_slot_lists_witness :
  let strings := [str "<p class="; str ">"; str "</p>"] in
  let args := [ArgString (str "x"); ArgString (str "hi")] in
  let template :=
    mkTemplate 0 1 [TemplateAttrValueSlot [0] (str "class"); TemplateNodeSlot [0; 0]] in
  let d := Sample.outcome (createTemplate 6 Host.document strings Host.emptyDom) in
  let d' := Sample.outcome (createTemplateInstance 6 template args d) in
  let instance :=
    mkTemplateInstance 5
      [InstanceAttrValueSlot (mkAttrValueSlot (Some 6) (str "class"));
       InstanceNodeSlot (mkNodeSlot None (Some 8))]
      [mkNodeSlot None (Some 8)] [mkAttrValueSlot (Some 6) (str "class")] in
  createTemplateInstance 6 template args d = Ok (instance, d') /\
  Forall2 sameKind (slots template) (instanceSlots instance) /\
  nodeSlots instance = onlyNodeSlots (instanceSlots instance) /\
  attrValueSlots instance = onlyAttrValueSlots (instanceSlots instance) /\
  length (nodeSlots instance) + length (attrValueSlots instance)
  = length (slots template).
Proof.
  cbn zeta.
  match goal with |- ?run = Ok (?i, _) /\ _ =>
    assert (run = Ok (i, Sample.outcome run)) as Hrun by (vm_compute; reflexivity)
  end.
  split; [exact Hrun|].
  exact (createTemplateInstance_slot_lists _ _ _ _ _ _ Hrun).
Defined.

Lemma createTemplateInstance_frame_witness :
  let strings := [str "<p class="; str ">"; str "</p>"] in
  let args := [ArgString (str "x"); ArgString (str "hi")] in
  let template :=
    mkTemplate 0 1 [TemplateAttrValueSlot [0] (str "class"); TemplateNodeSlot [0; 0]] in
  let d := Sample.outcome (createTemplate 6 Host.document strings Host.emptyDom) in
  let d' := Sample.outcome (createTemplateInstance 6 template args d) in
  let instance :=
    mkTemplateInstance 5
      [InstanceAttrValueSlot (mkAttrValueSlot (Some 6) (str "class"));
       InstanceNodeSlot (mkNodeSlot None (Some 8))]
      [mkNodeSlot None (Some 8)] [mkAttrValueSlot (Some 6) (str "class")] in
  (wf d /\ (forall r, ArgNode r ∉ args) /\
   createTemplateInstance 6 template args d = Ok (instance, d')) /\
  wf d' /\ fragment instance = nextRef d /\ nextRef d < nextRef d' /\
  forall q, q < nextRef d -> node d' q = node d q.
Proof.
  cbn zeta.
  assert (wf (Sample.outcome
                (createTemplate 6 Host.document
                   [str "<p class="; str ">"; str "</p>"] Host.emptyDom))) as Hwf.
  { apply (createTemplate_inv 6 Host.document
             [str "<p class="; str ">"; str "</p>"] Host.emptyDom
             (mkTemplate 0 1 [TemplateAttrValueSlot [0] (str "class");
                              TemplateNodeSlot [0; 0]]) _ wf_emptyDom).
    vm_compute; reflexivity. }
  assert (forall r, ArgNode r ∉ [ArgString (str "x"); ArgString (str "hi")]) as Hargs.
  { intros r Hin. repeat (apply elem_of_cons in Hin as [Hin|Hin]; [discriminate|]).
    by apply elem_of_nil in Hin. }
  match goal with |- (_ /\ _ /\ ?run = Ok (?i, _)) /\ _ =>
    assert (run = Ok (i, Sample.outcome run)) as Hrun by (vm_compute; reflexivity)
  end.
  split; [split_and!; [exact Hwf|exact Hargs|exact Hrun]|].
  exact (createTemplateInstance_frame _ _ _ _ _ _ Hwf Hargs Hrun).
Defined.

Lemma updateNodeSlot_lost_end_witness :
  (wf Sample.page /\ childrenOf Sample.page 1 = [] ++ 2 :: [3] /\
   length [3] <= 1 /\ (forall e, Some 4 = Some e -> e ∉ [3]) /\ emptyArg ArgNull) /\
  collectChildNodes 1 (Some 2) (Some 4) Sample.page = Ok ([3], Sample.page) /\
  exists d',
    updateNodeSlot 1 (mkNodeSlot (Some 2) (Some 4)) ArgNull Sample.page = Ok (tt, d') /\
    childrenOf d' 1 = [] ++ [2] /\
    forall n, n ∈ [3] -> parentOf d' n = None.
Proof.
  assert (forall e, Some 4 = Some e -> e ∉ [3]) as Hend.
  { intros e [= <-] Hin. apply list_elem_of_singleton in Hin. discriminate. }
  split; [split_and!; [exact wf_page|vm_compute; reflexivity|simpl; lia|exact Hend
                      |exact I]|].
  apply (updateNodeSlot_lost_end 1 Sample.page 1 [] 2 [3] (Some 4) ArgNull wf_page);
    [vm_compute; reflexivity|simpl; lia|exact Hend|exact I].
Defined.

Lemma updateNodeSlot_adjacent_witness :
  (wf Fixture.adjacentPage /\ childrenOf Fixture.adjacentPage 2 = [3; 4; 5] /\
   1 <= 1 /\ emptyArg ArgNull /\ emptyArg ArgFalse) /\
  anchored Fixture.adjacentPage (mkNodeSlot None (Some 4)) [3] /\
  anchored Fixture.adjacentPage (mkNodeSlot (Some 3) (Some 5)) [4] /\
  exists d1,
    updateNodeSlot 1 (mkNodeSlot None (Some 4)) ArgNull Fixture.adjacentPage
    = Ok (tt, d1) /\
    updateNodeSlot 1 (mkNodeSlot (Some 3) (Some 5)) ArgFalse d1 = Ok (tt, d1) /\
    childrenOf d1 2 = [4; 5].
Proof.
  split; [split_and!; [exact wf_adjacentPage|vm_compute; reflexivity|lia
                      |exact I|exact I]|].
  apply (updateNodeSlot_adjacent 1 Fixture.adjacentPage 2 3 4 5 [] ArgNull ArgFalse
           wf_adjacentPage); [vm_compute; reflexivity|lia|exact I|exact I].
Defined.

Lemma updateNodeSlot_clears_witness :
  (wf Sample.page /\ anchoredAt Sample.page Sample.slot [2] 3 1 [] [] /\
   length [2] <= 1 /\ emptyArg ArgUndefined) /\
  exists d',
    updateNodeSlot 1 Sample.slot ArgUndefined Sample.page = Ok (tt, d') /\
    childrenOf d' 1 = [] ++ 3 :: [] /\
    (forall n, n ∈ [2] -> parentOf d' n = None) /\
    trace d' = trace Sample.page ++ map (ChildRemoved 1) [2] /\
    (forall q, q <> 1 -> q ∉ [2] -> node d' q = node Sample.page q) /\
    updateNodeSlot 1 Sample.slot ArgUndefined d' = Ok (tt, d').
Proof.
  split; [split_and!; [exact wf_page|exact anchoredAt_page|simpl; lia|exact I]|].
  apply (updateNodeSlot_clears 1 Sample.page Sample.slot [2] [] [] 3 1 ArgUndefined
           wf_page anchoredAt_page); [simpl; lia|exact I].
Defined.

Lemma not_fragment_page : ~ isFragment Sample.page 4.
Proof. unfold isFragment. vm_compute. discriminate. Qed.

Lemma updateNodeSlot_node_again_witness :
  (wf Sample.page /\ anchoredAt Sample.page Sample.slot [2] 3 1 [] [] /\
   length [2] <= 1 /\ insertable Sample.page Sample.slot 1 4 /\
   ~ isFragment Sample.page 4) /\
  exists d1,
    updateNodeSlot 1 Sample.slot (ArgNode 4) Sample.page = Ok (tt, d1) /\
    anchored d1 Sample.slot [4] /\
    forall fuel', 1 <= fuel' ->
      updateNodeSlot fuel' Sample.slot (ArgNode 4) d1 = Ok (tt, d1).
Proof.
  split; [split_and!; [exact wf_page|exact anchoredAt_page|simpl; lia
                      |exact insertable_page|exact not_fragment_page]|].
  apply (updateNodeSlot_node_again 1 Sample.page Sample.slot [2] [] [] 3 1 4
           wf_page anchoredAt_page);
    [simpl; lia|exact insertable_page|exact not_fragment_page].
Defined.

Lemma insertable_page_text : insertable Sample.page Sample.slot 1 2.
Proof. split_and!; vm_compute; (reflexivity || discriminate). Qed.

Lemma updateNodeSlot_string_takes_given_text_witness :
  (wf Sample.page /\ anchoredAt Sample.page Sample.slot [2] 3 1 [] [] /\
   length [2] <= 1 /\ insertable Sample.page Sample.slot 1 2 /\
   payloadOf Sample.page 2 = Some (Text (str "a")) /\ 1 <= 1) /\
  exists d1 d2,
    updateNodeSlot 1 Sample.slot (ArgNode 2) Sample.page = Ok (tt, d1) /\
    updateNodeSlot 1 Sample.slot (ArgString (str "b")) d1 = Ok (tt, d2) /\
    anchored d2 Sample.slot [2] /\ payloadOf d2 2 = Some (Text (str "b")) /\
    nextRef d2 = nextRef d1 /\
    trace d2 = trace d1 ++ [CharacterData 2 (str "b")].
Proof.
  split; [split_and!; [exact wf_page|exact anchoredAt_page|simpl; lia
                      |exact insertable_page_text|vm_compute; reflexivity|lia]|].
  apply (updateNodeSlot_string_takes_given_text 1 Sample.page Sample.slot [2] [] []
           3 1 2 (str "a") (str "b") wf_page anchoredAt_page);
    [simpl; lia|exact insertable_page_text|vm_compute; reflexivity|lia].
Defined.

Lemma anchoredAt_fragmentPage :
  anchoredAt Fixture.fragmentPage Sample.slot [2] 3 1 [] [].
Proof. split_and!; vm_compute; reflexivity. Qed.

Lemma insertable_fragmentPage : insertable Fixture.fragmentPage Sample.slot 1 5.
Proof. split_and!; vm_compute; (reflexivity || discriminate). Qed.

Lemma updateNodeSlot_fragment_twice_witness :
  (wf Fixture.fragmentPage /\
   anchoredAt Fixture.fragmentPage Sample.slot [2] 3 1 [] [] /\ length [2] <= 1 /\
   insertable Fixture.fragmentPage Sample.slot 1 5 /\
   isFragment Fixture.fragmentPage 5 /\
   length (childrenOf Fixture.fragmentPage 5) <= 1) /\
  exists d1 d2,
    updateNodeSlot 1 Sample.slot (ArgNode 5) Fixture.fragmentPage = Ok (tt, d1) /\
    anchored d1 Sample.slot (childrenOf Fixture.fragmentPage 5) /\
    childrenOf d1 5 = [] /\
    updateNodeSlot 1 Sample.slot (ArgNode 5) d1 = Ok (tt, d2) /\
    anchored d2 Sample.slot [] /\
    forall k, k ∈ childrenOf Fixture.fragmentPage 5 -> parentOf d2 k = None.
Proof.
  assert (length (childrenOf Fixture.fragmentPage 5) <= 1) as Hlen
    by (vm_compute; lia).
  split; [split_and!; [exact wf_fragmentPage|exact anchoredAt_fragmentPage|simpl; lia
                      |exact insertable_fragmentPage|vm_compute; reflexivity
                      |exact Hlen]|].
  apply (updateNodeSlot_fragment_twice 1 1 Fixture.fragmentPage Sample.slot [2] [] []
           3 1 5 wf_fragmentPage anchoredAt_fragmentPage);
    [simpl; lia|exact insertable_fragmentPage|vm_compute; reflexivity|exact Hlen].
Defined.

Lemma updateAttrValueSlot_string_witness :
  let attrs := [(str "class", str "x")] in
  (slotElement Sample.classSlot = Some 1 /\
   payloadOf Sample.page 1 = Some (Element (str "p") attrs) /\
   NoDup attrs.*1 /\ emptyArg ArgNull) /\
  exists d1 d2,
    updateAttrValueSlot Sample.classSlot (ArgString (str "y")) Sample.page
    = Ok (tt, d1) /\
    getAttribute d1 1 (slotName Sample.classSlot) = Some (str "y") /\
    trace d1 = trace Sample.page
               ++ [AttributeSet 1 (slotName Sample.classSlot) (str "y")] /\
    updateAttrValueSlot Sample.classSlot ArgNull d1 = Ok (tt, d2) /\
    getAttribute d2 1 (slotName Sample.classSlot) = None /\
    trace d2 = trace d1 ++ [AttributeRemoved 1 (slotName Sample.classSlot)].
Proof.
  cbn zeta.
  assert (NoDup [(str "class", str "x")].*1) as Hnd by apply NoDup_singleton.
  split; [split_and!; [reflexivity|vm_compute; reflexivity|exact Hnd|exact I]|].
  apply (updateAttrValueSlot_string Sample.page Sample.classSlot 1 (str "p")
           [(str "class", str "x")] (str "y") ArgNull);
    [reflexivity|vm_compute; reflexivity|exact Hnd|exact I].
Defined.

Lemma html_twice_witness :
  let strings := mkStrings 0 [str "<p>"; str "</p>"] in
  let args1 := [ArgString (str "a")] in
  let args2 := [ArgNull] in
  let page1 := Fixture.after (html 4 Host.document strings args1 Fixture.emptyPage) in
  let page2 := Fixture.after (html 4 Host.document strings args2 page1) in
  (wf (tree Fixture.emptyPage) /\
   (forall r, ArgNode r ∉ args1) /\ (forall r, ArgNode r ∉ args2) /\
   html 4 Host.document strings args1 Fixture.emptyPage = Ok (5, page1) /\
   html 4 Host.document strings args2 page1 = Ok (9, page2)) /\
  templates page2 = templates page1 /\
  is_Some (templates page1 !! callSite strings) /\
  5 < 9 /\ 9 = nextRef (tree page1) /\
  (forall q, q < nextRef (tree page1) -> node (tree page2) q = node (tree page1) q) /\
  (forall q, q < nextRef (tree Fixture.emptyPage) ->
             node (tree page2) q = node (tree Fixture.emptyPage) q).
Proof.
  cbn zeta.
  assert (forall a, (forall r, ArgNode r <> a) -> forall r, ArgNode r ∉ [a]) as Hnone.
  { intros a Ha r Hin. apply list_elem_of_singleton in Hin. by apply (Ha r). }
  pose proof (Hnone (ArgString (str "a")) ltac:(discriminate)) as Hargs1.
  pose proof (Hnone ArgNull ltac:(discriminate)) as Hargs2.
  match goal with |- (_ /\ _ /\ _ /\ ?run1 = _ /\ ?run2 = _) /\ _ =>
    assert (run1 = Ok (5, Fixture.after run1)) as Hrun1 by (vm_compute; reflexivity);
    assert (run2 = Ok (9, Fixture.after run2)) as Hrun2 by (vm_compute; reflexivity)
  end.
  split; [split_and!; [exact wf_emptyDom|exact Hargs1|exact Hargs2
                      |exact Hrun1|exact Hrun2]|].
  exact (html_twice 4 Host.document _ _ _ Fixture.emptyPage _ _ _ _
           wf_emptyDom Hargs1 Hargs2 Hrun1 Hrun2).
Defined.

Lemma htmlElement_top_level_witness :
  let strings := mkStrings 0 [[]; []] in
  let template := mkTemplate 0 1 [TemplateNodeSlot [0]] in
  let d1 := Sample.outcome (createTemplate 4 Host.document (cooked strings)
                              Host.emptyDom) in
  let tops := length (List.filter isMElement
                        (parseFragment Host.document
                           (join replacement (cooked strings)))) in
  let cached := mkPage d1 (<[callSite strings := template]>
                             (templates Fixture.emptyPage)) in
  (wf (tree Fixture.emptyPage) /\
   templates Fixture.emptyPage !! callSite strings = None /\
   createTemplate 4 Host.document (cooked strings) (tree Fixture.emptyPage)
   = Ok (template, d1)) /\
  (tops <> 1 ->
   htmlElement 4 Host.document strings [ArgNull] Fixture.emptyPage
   = Throw (Error
              (str "html.element template should have a single top-level element: "
                 ++ join replacement (cooked strings)))) /\
  (tops = 1 ->
   htmlElement 4 Host.document strings [ArgNull] Fixture.emptyPage
   = andThen (onDom (createTemplateInstance 4 template [ArgNull]))
       (fun instance page' =>
          Ok (firstElementChild (tree page') (fragment instance), page'))
       cached).
Proof.
  cbn zeta.
  match goal with |- (_ /\ _ /\ ?run = _) /\ _ =>
    assert (run = Ok (mkTemplate 0 1 [TemplateNodeSlot [0]], Sample.outcome run))
      as Hrun by (vm_compute; reflexivity)
  end.
  split; [split_and!; [exact wf_emptyDom|reflexivity|exact Hrun]|].
  exact (htmlElement_top_level 4 Host.document (mkStrings 0 [[]; []]) [ArgNull]
           Fixture.emptyPage _ _ wf_emptyDom eq_refl Hrun).
Defined.

Lemma childSlotAppend_node_witness :
  (wf Sample.page /\ anchoredAt Sample.page Sample.slot [2] 3 1 [] [] /\
   insertable Sample.page Sample.slot 1 4 /\ (4 ∉ [2]) /\
   length [2] + length (insertedNodes Sample.page 4) <= 2) /\
  exists d',
    childSlotAppend Sample.slot [ItemNode 4] Sample.page = Ok (tt, d') /\
    childSlotNodes 2 Sample.slot d' = Ok ([2] ++ insertedNodes Sample.page 4, d') /\
    (forall q, payloadOf d' q = payloadOf Sample.page q) /\
    additions (trace d')
    = additions (trace Sample.page) ++ map (pair 1) (insertedNodes Sample.page 4).
Proof.
  assert (4 ∉ [2]) as Hout.
  { intros Hin. apply list_elem_of_singleton in Hin. discriminate. }
  assert (length [2] + length (insertedNodes Sample.page 4) <= 2) as Hfuel
    by (vm_compute; lia).
  split; [split_and!; [exact wf_page|exact anchoredAt_page|exact insertable_page
                      |exact Hout|exact Hfuel]|].
  exact (childSlotAppend_node 2 Sample.page Sample.slot [2] [] [] 3 1 4
           wf_page anchoredAt_page insertable_page Hout Hfuel).
Defined.

Lemma childSlotAppend_string_witness :
  (wf Sample.page /\ anchoredAt Sample.page Sample.slot [2] 3 1 [] [] /\
   S (length [2]) <= 2) /\
  exists d',
    childSlotAppend Sample.slot [ItemString (str "b")] Sample.page = Ok (tt, d') /\
    childSlotNodes 2 Sample.slot d' = Ok ([2] ++ [nextRef Sample.page], d') /\
    payloadOf d' (nextRef Sample.page) = Some (Text (str "b")) /\
    (forall q, q <> nextRef Sample.page -> payloadOf d' q = payloadOf Sample.page q).
Proof.
  split; [split_and!; [exact wf_page|exact anchoredAt_page|simpl; lia]|].
  apply (childSlotAppend_string 2 Sample.page Sample.slot [2] [] [] 3 1 (str "b")
           wf_page anchoredAt_page). simpl; lia.
Defined.

Lemma htmlInstance_childSlots_witness :
  let strings := mkStrings 0 [str "<p>"; str "</p>"] in
  let args := [ArgString (str "a")] in
  let instance :=
    mkInstance 5 (Some 6) (Some 6) [InstanceNodeSlot (mkNodeSlot None (Some 8))]
      [] [mkNodeSlot None (Some 8)] in
  let page' := Fixture.after (htmlInstance 4 Host.document strings args
                                Fixture.emptyPage) in
  (wf (tree Fixture.emptyPage) /\
   templates Fixture.emptyPage !! callSite strings = None /\
   htmlInstance 4 Host.document strings args Fixture.emptyPage
   = Ok (instance, page')) /\
  Forall (fun slot => is_Some (endBefore slot)) (childSlots instance) /\
  length (childSlots instance) + length (attrSlots instance)
  = length (instanceUpdaters instance) /\
  instanceNode instance = firstChild (tree page') (instanceFragment instance) /\
  instanceElement instance
  = firstElementChild (tree page') (instanceFragment instance) /\
  is_Some (templates page' !! callSite strings).
Proof.
  cbn zeta.
  match goal with |- (_ /\ _ /\ ?run = Ok (?i, _)) /\ _ =>
    assert (run = Ok (i, Fixture.after run)) as Hrun by (vm_compute; reflexivity)
  end.
  split; [split_and!; [exact wf_emptyDom|reflexivity|exact Hrun]|].
  exact (htmlInstance_childSlots 4 Host.document _ _ Fixture.emptyPage _ _
           wf_emptyDom eq_refl Hrun).
Defined.
